(** * The blob arena: a shallow embedding of [GameServer] (src/App.tsx)

    The authoritative simulation of the arena lives in the class
    [GameServer] of src/App.tsx (lines 370-707).  This file embeds its
    data, its utility functions and its public methods, and proves the
    properties of the engine that the specification lists.

    Numbers.  A JavaScript [number] is an IEEE 754 binary64, which is what
    Rocq's primitive [float] is; [+], [-], [*], [/], [<] and [Math.sqrt]
    are the primitive operations.  The functions of the host that have no
    primitive counterpart ([Math.hypot], [Math.cos], [Math.sin],
    [Math.atan2], [Math.floor]), the two sources of non-determinism
    ([Math.random], [Date.now]) and the conversion of a number inside a
    template literal are fields of the class [Runtime].

    Objects.  [this.blobs] is a [Map<string, Blob>] whose key is always the
    [id] of the blob it stores ([connectPlayer] and [playerSplit] are the
    only writers and both call [set(b.id, b)]; no [id] is ever assigned
    again).  It is modelled as the list of its values in insertion order.
    Arrays such as [allBlobs] and [playerBlobs] hold references to the
    objects of the map: a reference is the position of the object in the
    list, and a mutation through a reference updates the list at that
    position. *)

From Stdlib Require Import Floats.PrimFloat.
From Stdlib Require Floats.SpecFloat Floats.FloatOps Floats.FloatAxioms.
From stdpp Require Import base gmap strings list sorting.

Set Warnings "-inexact-float".
#[local] Open Scope float_scope.

(** ** Comparisons and truthiness of numbers *)

(** [a > b] and [a >= b] of the source, written with the arguments in the
    order of the source. *)
Definition gtb (a b : float) : bool := b <? a.
Definition geb (a b : float) : bool := b <=? a.
Infix ">?" := gtb (at level 70, no associativity) : float_scope.
Infix ">=?" := geb (at level 70, no associativity) : float_scope.

(** [v || 0] on an optional number: [undefined], [NaN], [0] and [-0] are
    falsy. *)
Definition or_zero (v : option float) : float :=
  match v with
  | None => 0
  | Some a => if is_nan a || is_zero a then 0 else a
  end.

(** [Math.max] and [Math.min] on two numbers: [NaN] is contagious and
    [+0] is larger than [-0]. *)
Definition Math_max (a b : float) : float :=
  if is_nan a || is_nan b then nan
  else if a <? b then b
  else if b <? a then a
  else if get_sign a then b else a.

Definition Math_min (a b : float) : float :=
  if is_nan a || is_nan b then nan
  else if a <? b then a
  else if b <? a then b
  else if get_sign a then a else b.

Definition Math_PI : float := 0x1.921fb54442d18p+1.

(** ** The host *)

Class Runtime := {
  Math_hypot : float → float → float;
  Math_cos : float → float;
  Math_sin : float → float;
  Math_atan2 : float → float → float;
  Math_floor : float → float;
  (** the value returned by the [k]-th call of [Math.random()] *)
  random_at : nat → float;
  (** the value returned by the [k]-th call of [Date.now()] *)
  now_at : nat → float;
  (** a number inside a template literal *)
  num_to_string : float → string;
}.

(** How many times the two sources have been read so far. *)
Record Host := { rnd_calls : nat; clk_calls : nat }.

(** Computations that read the host. *)
Definition M (A : Type) : Type := Host → A * Host.

Definition ret {A} (a : A) : M A := λ h, (a, h).
Definition bind {A B} (m : M A) (k : A → M B) : M B :=
  λ h, let (a, h') := m h in k a h'.

Notation "'let*' x := m 'in' k" := (bind m (λ x, k))
  (at level 10, x pattern, m at level 200, k at level 200, only parsing).

Fixpoint foldM {A B} (f : A → B → M A) (a : A) (l : list B) : M A :=
  match l with
  | [] => ret a
  | b :: l' => let* a' := f a b in foldM f a' l'
  end.

Fixpoint mapM {A B} (f : A → M B) (l : list A) : M (list B) :=
  match l with
  | [] => ret []
  | a :: l' => let* b := f a in let* bs := mapM f l' in ret (b :: bs)
  end.

(** ** Constants *)

Definition WORLD_WIDTH : float := 3000.
Definition WORLD_HEIGHT : float := 3000.
Definition INITIAL_PLAYER_MASS : float := 20.
Definition FOOD_COUNT : nat := 200.
Definition FOOD_MASS : float := 1.
Definition MIN_MASS_TO_SPLIT : float := 30.
Definition RECOMBINE_DELAY_MS : float := 25000.
Definition SPLIT_EJECT_SPEED : float := 20.

(** ** Types *)

Module Vector.
Record t := mk { x : float; y : float }.
End Vector.

Module Blob.
Record t := mk {
  id : string;
  pos : Vector.t;
  mass : float;
  radius : float;
  color : string;
  velocity : Vector.t;
  name : string;
  canRecombineTime : float;
  playerId : string;
}.

Definition with_pos (p : Vector.t) (b : t) : t :=
  mk (id b) p (mass b) (radius b) (color b) (velocity b) (name b)
     (canRecombineTime b) (playerId b).
Definition with_velocity (v : Vector.t) (b : t) : t :=
  mk (id b) (pos b) (mass b) (radius b) (color b) v (name b)
     (canRecombineTime b) (playerId b).
Definition with_mass (m : float) (b : t) : t :=
  mk (id b) (pos b) m (radius b) (color b) (velocity b) (name b)
     (canRecombineTime b) (playerId b).
Definition with_radius (r : float) (b : t) : t :=
  mk (id b) (pos b) (mass b) r (color b) (velocity b) (name b)
     (canRecombineTime b) (playerId b).
Definition with_canRecombineTime (c : float) (b : t) : t :=
  mk (id b) (pos b) (mass b) (radius b) (color b) (velocity b) (name b)
     c (playerId b).
End Blob.

Module Food.
Record t := mk {
  pos : Vector.t;
  mass : float;
  radius : float;
  color : string;
}.
End Food.

Module ChatMessage.
Record t := mk { id : float; name : string; text : string; color : string }.
End ChatMessage.

Module LeaderboardEntry.
Record t := mk { name : string; mass : float; playerId : string }.
End LeaderboardEntry.

Module WindowSize.
Record t := mk { width : float; height : float }.
End WindowSize.

Module Camera.
Record t := mk { x : float; y : float; zoom : float }.
End Camera.

Module GameState.
Record t := mk {
  blobs : list Blob.t;
  food : list Food.t;
  leaderboard : list LeaderboardEntry.t;
  messages : list ChatMessage.t;
}.
End GameState.

(** ** Insertion-ordered maps

    A JavaScript [Map] iterates in insertion order, and [set] on a key that
    is present keeps its place. *)

Section OrderedMap.
Context {V : Type}.

Fixpoint omap_get (k : string) (m : list (string * V)) : option V :=
  match m with
  | [] => None
  | (k', v) :: m' => if bool_decide (k' = k) then Some v else omap_get k m'
  end.

Fixpoint omap_set (k : string) (v : V) (m : list (string * V))
  : list (string * V) :=
  match m with
  | [] => [(k, v)]
  | (k', v') :: m' =>
      if bool_decide (k' = k) then (k, v) :: m'
      else (k', v') :: omap_set k v m'
  end.
End OrderedMap.

(** [this.blobs.set(b.id, b)] and [this.blobs.delete(id)] on the list of
    values. *)
Fixpoint blobs_set (b : Blob.t) (bs : list Blob.t) : list Blob.t :=
  match bs with
  | [] => [b]
  | b' :: bs' =>
      if bool_decide (Blob.id b' = Blob.id b) then b :: bs'
      else b' :: blobs_set b bs'
  end.

Definition blobs_delete (i : string) (bs : list Blob.t) : list Blob.t :=
  filter (λ b, Blob.id b ≠ i) bs.

(** ** [Array.prototype.sort]

    The sort of the language is stable, and its result is fixed by the
    language only when the comparator is consistent; on such a comparator
    every conforming sort returns what this stable insertion sort returns.
    A comparator result that is not greater than zero ([NaN] included)
    leaves the first argument in front. *)

Section JsSort.
Context {A : Type} (cmp : A → A → float).

Fixpoint js_insert (a : A) (l : list A) : list A :=
  match l with
  | [] => [a]
  | b :: l' => if cmp a b >? 0 then b :: js_insert a l' else a :: l
  end.

Definition js_sort (l : list A) : list A := foldr js_insert [] l.
End JsSort.

Fixpoint replicateM {A} (n : nat) (m : M A) : M (list A) :=
  match n with
  | O => ret []
  | S n' => let* a := m in let* l := replicateM n' m in ret (a :: l)
  end.

(** A small count as a number ([index], [length]). *)
Fixpoint float_of_nat (n : nat) : float :=
  match n with
  | O => 0
  | S n' => float_of_nat n' + 1
  end.

(** * The program *)

Section Program.
Context `{RT : Runtime}.

Definition Math_random : M float :=
  λ h, (random_at (rnd_calls h),
        {| rnd_calls := S (rnd_calls h); clk_calls := clk_calls h |}).

Definition Date_now : M float :=
  λ h, (now_at (clk_calls h),
        {| rnd_calls := rnd_calls h; clk_calls := S (clk_calls h) |}).

(** ** Utility functions *)

Definition random (min max : float) : M float :=
  let* r := Math_random in ret (r * (max - min) + min).

Definition randomColor : M string :=
  let* r := random 0 360 in
  ret ("hsl(" +:+ num_to_string r +:+ ", 100%, 50%)").

Definition distance (p1 p2 : Vector.t) : float :=
  Math_hypot (Vector.x p1 - Vector.x p2) (Vector.y p1 - Vector.y p2).

Definition lerp (start end_ amt : float) : float :=
  (1 - amt) * start + amt * end_.

Definition massToRadius (mass : float) : float :=
  sqrt (mass / Math_PI) * 10.

Definition getMaxBlobsForMass (mass : float) : nat :=
  if mass >=? 240 then 16
  else if mass >=? 120 then 8
  else if mass >=? 60 then 4
  else if mass >=? MIN_MASS_TO_SPLIT then 2
  else 1.

(** ** GameServer *)

(** The fields of the class that hold the world.  [tickInterval] and
    [onStateUpdate] belong to the scheduler and to the listener: a tick
    is the function [tick] below, and the state handed to the listener
    is the value [pushState] returns. *)
Record GameServer := {
  blobs : list Blob.t;
  food : list Food.t;
  messages : list ChatMessage.t;
  playerNames : gmap string string;
}.

Definition set_blobs (bs : list Blob.t) (s : GameServer) : GameServer :=
  {| blobs := bs; food := food s; messages := messages s;
     playerNames := playerNames s |}.

Definition createBlob (playerId name : string) : M Blob.t :=
  let mass := INITIAL_PLAYER_MASS in
  let* t := Date_now in
  let* r := Math_random in
  let* px := random 0 WORLD_WIDTH in
  let* py := random 0 WORLD_HEIGHT in
  let* c := randomColor in
  let* t' := Date_now in
  ret {| Blob.id := playerId +:+ "-" +:+ num_to_string t +:+ "-"
                     +:+ num_to_string r;
         Blob.playerId := playerId;
         Blob.pos := Vector.mk px py;
         Blob.mass := mass;
         Blob.radius := massToRadius mass;
         Blob.color := c;
         Blob.velocity := Vector.mk 0 0;
         Blob.name := name;
         Blob.canRecombineTime := t' |}.

Definition createFood : M Food.t :=
  let mass := FOOD_MASS in
  let* px := random 0 WORLD_WIDTH in
  let* py := random 0 WORLD_HEIGHT in
  let* c := randomColor in
  ret {| Food.pos := Vector.mk px py;
         Food.mass := mass;
         Food.radius := massToRadius mass;
         Food.color := c |}.

(** [constructor] *)
Definition GameServer_new : M GameServer :=
  let* fs := replicateM FOOD_COUNT createFood in
  ret {| blobs := []; food := fs; messages := []; playerNames := ∅ |}.

(** ** [tick]: movement *)

Definition moveBlob (blob : Blob.t) : Blob.t :=
  let p := Blob.pos blob in
  let v := Blob.velocity blob in
  let px := Math_max 0 (Math_min WORLD_WIDTH (Vector.x p + Vector.x v)) in
  let py := Math_max 0 (Math_min WORLD_HEIGHT (Vector.y p + Vector.y v)) in
  Blob.with_velocity (Vector.mk (Vector.x v * 0.98) (Vector.y v * 0.98))
    (Blob.with_pos (Vector.mk px py) blob).

(** ** [tick]: blob against food *)

(** [blob.mass += m; blob.radius = massToRadius(blob.mass)] *)
Definition grow (m : float) (blob : Blob.t) : Blob.t :=
  let mass' := Blob.mass blob + m in
  Blob.with_radius (massToRadius mass') (Blob.with_mass mass' blob).

(** One [this.food.filter(...)]: the callback mutates [blob] while it
    walks the pellets, so a pellet is tested against the radius the blob
    has after the pellets before it. *)
Fixpoint eatFood (blob : Blob.t) (fs : list Food.t)
  : Blob.t * list Food.t :=
  match fs with
  | [] => (blob, [])
  | f :: fs' =>
      if distance (Blob.pos blob) (Food.pos f) <? Blob.radius blob then
        eatFood (grow (Food.mass f) blob) fs'
      else
        let (blob', kept) := eatFood blob fs' in (blob', f :: kept)
  end.

(** [for (const blob of allBlobs) this.food = this.food.filter(...)] *)
Fixpoint eatAll (bs : list Blob.t) (fs : list Food.t)
  : list Blob.t * list Food.t :=
  match bs with
  | [] => ([], fs)
  | blob :: bs' =>
      let (blob', fs') := eatFood blob fs in
      let (bs'', fs'') := eatAll bs' fs' in
      (blob' :: bs'', fs'')
  end.

(** [while (this.food.length < FOOD_COUNT) this.food.push(createFood())]:
    every round makes the list one longer, so the loop runs once per
    missing pellet; [refill_unfold] below is the loop as written. *)
Fixpoint refill_loop (missing : nat) (fs : list Food.t) : M (list Food.t) :=
  match missing with
  | O => ret fs
  | S k => let* f := createFood in refill_loop k (fs ++ [f])
  end.

Definition refill (fs : list Food.t) : M (list Food.t) :=
  refill_loop (FOOD_COUNT - length fs) fs.

(** ** [tick]: blob against blob *)

(** [allBlobs] with the mutations made so far, and [consumedBlobIds]. *)
Record Scan := { arr : list Blob.t; consumed : gset string }.

(** [b.mass += other.mass; b.radius = massToRadius(b.mass);
    consumedBlobIds.add(other.id)] where [b] is [allBlobs[w]]. *)
Definition absorb (w : nat) (b other : Blob.t) (sc : Scan) : Scan :=
  {| arr := <[w := grow (Blob.mass other) b]> (arr sc);
     consumed := consumed sc ∪ {[Blob.id other]} |}.

(** The body of the inner loop at [(i, j)]. *)
Definition pairStep (sc : Scan) (ij : nat * nat) : M Scan :=
  let (i, j) := ij in
  match arr sc !! i, arr sc !! j with
  | Some b1, Some b2 =>
      if bool_decide (Blob.id b1 ∈ consumed sc)
         || bool_decide (Blob.id b2 ∈ consumed sc) then ret sc
      else
        let dist := distance (Blob.pos b1) (Blob.pos b2) in
        (* Recombination *)
        if bool_decide (Blob.playerId b1 = Blob.playerId b2)
           && bool_decide (Blob.playerId b1 ≠ "") then
          let* now := Date_now in
          if (now >? Blob.canRecombineTime b1)
             && (now >? Blob.canRecombineTime b2) then
            if (dist <? Blob.radius b1) || (dist <? Blob.radius b2) then
              ret (absorb i b1 b2 sc)
            else ret sc
          else ret sc
        (* Engulfment *)
        else
          if (Blob.mass b1 >? Blob.mass b2 * 1.1)
             && (dist <? Blob.radius b1 - Blob.radius b2 * 0.5) then
            ret (absorb i b1 b2 sc)
          else if (Blob.mass b2 >? Blob.mass b1 * 1.1)
                  && (dist <? Blob.radius b2 - Blob.radius b1 * 0.5) then
            ret (absorb j b2 b1 sc)
          else ret sc
  | _, _ => ret sc
  end.

(** The index pairs in the order of the two [for] loops:
    [i] from [0], [j] from [i + 1], both below [n]. *)
Definition innerPairs (n i : nat) : list (nat * nat) :=
  (λ j, (i, j)) <$> seq (S i) (n - S i).

Definition pairs (n : nat) : list (nat * nat) :=
  i ← seq 0 n; innerPairs n i.

Definition scan (bs : list Blob.t) : M Scan :=
  foldM pairStep {| arr := bs; consumed := ∅ |} (pairs (length bs)).

(** [if (consumedBlobIds.size > 0)
      consumedBlobIds.forEach(id => this.blobs.delete(id))] *)
Definition deleteConsumed (sc : Scan) : list Blob.t :=
  if bool_decide (0 < size (consumed sc))%nat then
    foldl (λ bs i, blobs_delete i bs) (arr sc) (elements (consumed sc))
  else arr sc.

(** ** [pushState] *)

(** [playerMasses.set(b.playerId,
      (playerMasses.get(b.playerId) || 0) + b.mass)] *)
Definition addMass (pm : list (string * float)) (b : Blob.t)
  : list (string * float) :=
  omap_set (Blob.playerId b)
    (or_zero (omap_get (Blob.playerId b) pm) + Blob.mass b) pm.

Definition playerMasses (bs : list Blob.t) : list (string * float) :=
  foldl addMass [] bs.

(** [this.playerNames.get(playerId) || 'Unknown'] *)
Definition nameOf (names : gmap string string) (playerId : string)
  : string :=
  match names !! playerId with
  | Some n => if bool_decide (n = "") then "Unknown" else n
  | None => "Unknown"
  end.

Definition toEntry (names : gmap string string) (e : string * float)
  : LeaderboardEntry.t :=
  {| LeaderboardEntry.playerId := e.1;
     LeaderboardEntry.name := nameOf names e.1;
     LeaderboardEntry.mass := Math_floor e.2 |}.

(** [(a, b) => b.mass - a.mass] *)
Definition byMassDesc (a b : LeaderboardEntry.t) : float :=
  LeaderboardEntry.mass b - LeaderboardEntry.mass a.

Definition leaderboardOf (names : gmap string string) (bs : list Blob.t)
  : list LeaderboardEntry.t :=
  take 10 (js_sort byMassDesc (toEntry names <$> playerMasses bs)).

(** The state handed to [onStateUpdate]. *)
Definition pushState (s : GameServer) : GameState.t :=
  {| GameState.blobs := blobs s;
     GameState.food := food s;
     GameState.leaderboard := leaderboardOf (playerNames s) (blobs s);
     GameState.messages := messages s |}.

(** ** [tick] *)

(** The first two phases of a tick: every blob moves, then every blob
    eats.  The result is [allBlobs] as the blob-against-blob scan finds
    it, and the pellets that are left. *)
Definition feed (s : GameServer) : list Blob.t * list Food.t :=
  let allBlobs := blobs s in
  eatAll (moveBlob <$> allBlobs) (food s).

Definition tick (s : GameServer) : M (GameServer * GameState.t) :=
  let (fed, eaten) := feed s in
  let* food' := refill eaten in
  (* blob against blob *)
  let* sc := scan fed in
  let s' := {| blobs := deleteConsumed sc; food := food';
               messages := messages s; playerNames := playerNames s |} in
  ret (s', pushState s').

(** ** Player actions *)

Definition connectPlayer (name : string) (s : GameServer)
  : M (GameServer * GameState.t * string) :=
  let* t := Date_now in
  let playerId := name +:+ "-" +:+ num_to_string t in
  let names := <[playerId := name]> (playerNames s) in
  let* blob := createBlob playerId name in
  let s' := {| blobs := blobs_set blob (blobs s); food := food s;
               messages := messages s; playerNames := names |} in
  ret (s', pushState s', playerId).

Definition disconnectPlayer (playerId : string) (s : GameServer)
  : GameServer :=
  {| blobs :=
       foldl (λ bs blob,
                if bool_decide (Blob.playerId blob = playerId)
                then blobs_delete (Blob.id blob) bs else bs)
             (blobs s) (blobs s);
     food := food s;
     messages := messages s;
     playerNames := delete playerId (playerNames s) |}.

(** [Array.from(this.blobs.values()).filter(b => b.playerId === playerId)]:
    the blobs of the player, each with its reference. *)
Fixpoint ownedFrom (k : nat) (playerId : string) (bs : list Blob.t)
  : list (nat * Blob.t) :=
  match bs with
  | [] => []
  | b :: bs' =>
      if bool_decide (Blob.playerId b = playerId)
      then (k, b) :: ownedFrom (S k) playerId bs'
      else ownedFrom (S k) playerId bs'
  end.

Definition owned (playerId : string) (bs : list Blob.t)
  : list (nat * Blob.t) := ownedFrom 0 playerId bs.

Section Input.
Variables (mousePos : Vector.t) (windowSize : WindowSize.t)
          (camera : Camera.t).

(** The body of the [forEach] of [updatePlayerInput]; [r0] refers to
    [mainBlob], [count] is [playerBlobs.length]. *)
Definition steer (count r0 : nat) (isMouseOverMainBlob : bool)
    (mouseInWorld : Vector.t) (store : list Blob.t) (ir : nat * nat)
  : M (list Blob.t) :=
  let (index, r) := ir in
  match store !! r0, store !! r with
  | Some mainBlob, Some p_blob =>
      let* targetPos :=
        if bool_decide (index = 0%nat) then ret mouseInWorld
        else if isMouseOverMainBlob then ret (Blob.pos mainBlob)
        else
          let orbitDistance :=
            Blob.radius mainBlob + Blob.radius p_blob + 15 in
          let* now := Date_now in
          let angleOffset := now / 3000 in
          let angle :=
            ((float_of_nat index - 1) / (float_of_nat count - 1))
            * 2 * Math_PI + angleOffset in
          ret (Vector.mk
                 (Vector.x (Blob.pos mainBlob)
                  + Math_cos angle * orbitDistance)
                 (Vector.y (Blob.pos mainBlob)
                  + Math_sin angle * orbitDistance)) in
      let distToTarget := distance (Blob.pos p_blob) targetPos in
      if distToTarget >? 1 then
        let angle :=
          Math_atan2 (Vector.y targetPos - Vector.y (Blob.pos p_blob))
                     (Vector.x targetPos - Vector.x (Blob.pos p_blob)) in
        let speed :=
          Math_min (distToTarget * 0.1)
                   (5 / (1 + Blob.mass p_blob * 0.01)) in
        let targetVx := Math_cos angle * speed in
        let targetVy := Math_sin angle * speed in
        let v := Blob.velocity p_blob in
        ret (<[r := Blob.with_velocity
                      (Vector.mk (lerp (Vector.x v) targetVx 0.15)
                                 (lerp (Vector.y v) targetVy 0.15))
                      p_blob]> store)
      else ret store
  | _, _ => ret store
  end.

Definition updatePlayerInput (playerId : string) (s : GameServer)
  : M GameServer :=
  let playerBlobs := owned playerId (blobs s) in
  if bool_decide (length playerBlobs = 0%nat) then ret s
  else
    let sorted :=
      js_sort (λ a b, Blob.mass b.2 - Blob.mass a.2) playerBlobs in
    match sorted with
    | [] => ret s  (* not reached: [sorted] is as long as [playerBlobs] *)
    | (r0, mainBlob) :: _ =>
        let mainBlobScreenPos :=
          Vector.mk
            ((Vector.x (Blob.pos mainBlob) - Camera.x camera)
             * Camera.zoom camera + WindowSize.width windowSize / 2)
            ((Vector.y (Blob.pos mainBlob) - Camera.y camera)
             * Camera.zoom camera + WindowSize.height windowSize / 2) in
        let mainBlobScreenRadius :=
          Blob.radius mainBlob * Camera.zoom camera in
        let isMouseOverMainBlob :=
          distance mousePos mainBlobScreenPos <? mainBlobScreenRadius in
        let mouseInWorld :=
          Vector.mk
            (Vector.x (Blob.pos mainBlob)
             + (Vector.x mousePos - WindowSize.width windowSize / 2)
               / Camera.zoom camera)
            (Vector.y (Blob.pos mainBlob)
             + (Vector.y mousePos - WindowSize.height windowSize / 2)
               / Camera.zoom camera) in
        let* store :=
          foldM (steer (length sorted) r0 isMouseOverMainBlob
                       mouseInWorld)
                (blobs s) (imap (λ index rb, (index, rb.1)) sorted) in
        ret (set_blobs store s)
    end.

(** The body of the [forEach] of [playerSplit]; [count] is
    [playerBlobs.length]. *)
Definition splitStep (count maxBlobs : nat) (recombineTime : float)
    (st : list Blob.t * list Blob.t) (r : nat)
  : M (list Blob.t * list Blob.t) :=
  let (store, newBlobs) := st in
  match store !! r with
  | Some p_blob =>
      if (Blob.mass p_blob >=? MIN_MASS_TO_SPLIT)
         && bool_decide (count + length newBlobs < maxBlobs)%nat then
        let mass' := Blob.mass p_blob / 2 in
        let p_blob' :=
          Blob.with_canRecombineTime recombineTime
            (Blob.with_radius (massToRadius mass')
               (Blob.with_mass mass' p_blob)) in
        let p := Blob.pos p_blob' in
        let mouseInWorld :=
          Vector.mk
            (Vector.x p
             + (Vector.x mousePos - WindowSize.width windowSize / 2)
               / Camera.zoom camera)
            (Vector.y p
             + (Vector.y mousePos - WindowSize.height windowSize / 2)
               / Camera.zoom camera) in
        let angle := Math_atan2 (Vector.y mouseInWorld - Vector.y p)
                                (Vector.x mouseInWorld - Vector.x p) in
        let ejectionDistance := Blob.radius p_blob' * 2.5 in
        let* t := Date_now in
        let* rnd := Math_random in
        let newBlob :=
          {| Blob.id := Blob.playerId p_blob' +:+ "-split-"
                        +:+ num_to_string t +:+ "-" +:+ num_to_string rnd;
             Blob.mass := Blob.mass p_blob';
             Blob.radius := Blob.radius p_blob';
             Blob.pos :=
               Vector.mk (Vector.x p + Math_cos angle * ejectionDistance)
                         (Vector.y p + Math_sin angle * ejectionDistance);
             Blob.velocity :=
               Vector.mk
                 (Vector.x (Blob.velocity p_blob')
                  + Math_cos angle * SPLIT_EJECT_SPEED)
                 (Vector.y (Blob.velocity p_blob')
                  + Math_sin angle * SPLIT_EJECT_SPEED);
             Blob.canRecombineTime := recombineTime;
             Blob.color := Blob.color p_blob';
             Blob.name := Blob.name p_blob';
             Blob.playerId := Blob.playerId p_blob' |} in
        ret (<[r := p_blob']> store, newBlobs ++ [newBlob])
      else ret st
  | None => ret st
  end.

Definition playerSplit (playerId : string) (s : GameServer)
  : M GameServer :=
  let playerBlobs := owned playerId (blobs s) in
  let totalPlayerMass :=
    foldl (λ sum b, sum + Blob.mass b.2) 0 playerBlobs in
  let maxBlobs := getMaxBlobsForMass totalPlayerMass in
  if bool_decide (maxBlobs ≤ length playerBlobs)%nat then ret s
  else
    let* now := Date_now in
    let recombineTime := now + RECOMBINE_DELAY_MS in
    let* st :=
      foldM (splitStep (length playerBlobs) maxBlobs recombineTime)
            (blobs s, []) (fst <$> playerBlobs) in
    let (store, newBlobs) := st in
    ret (set_blobs (foldl (λ bs b, blobs_set b bs) store newBlobs) s).
End Input.

Definition addMessage (name text color : string) (s : GameServer)
  : M GameServer :=
  let* t := Date_now in
  let* r := Math_random in
  let newMsg := ChatMessage.mk (t + r) name text color in
  let all := messages s ++ [newMsg] in
  ret {| blobs := blobs s; food := food s;
         messages := drop (length all - 10) all;
         playerNames := playerNames s |}.
End Program.

(** * Runs of the server *)

Section Runs.
Context `{RT : Runtime}.

(** The calls a client of the class can make, and the firing of the
    interval timer. *)
Inductive Action :=
| Tick
| ConnectPlayer (name : string)
| DisconnectPlayer (playerId : string)
| UpdatePlayerInput (playerId : string) (mousePos : Vector.t)
    (windowSize : WindowSize.t) (camera : Camera.t)
| PlayerSplit (playerId : string) (mousePos : Vector.t)
    (windowSize : WindowSize.t) (camera : Camera.t)
| AddMessage (name text color : string).

Definition perform (a : Action) (s : GameServer) : M GameServer :=
  match a with
  | Tick => let* r := tick s in ret r.1
  | ConnectPlayer name => let* r := connectPlayer name s in ret r.1.1
  | DisconnectPlayer playerId => ret (disconnectPlayer playerId s)
  | UpdatePlayerInput playerId mousePos windowSize camera =>
      updatePlayerInput mousePos windowSize camera playerId s
  | PlayerSplit playerId mousePos windowSize camera =>
      playerSplit mousePos windowSize camera playerId s
  | AddMessage name text color => addMessage name text color s
  end.

(** A server is constructed, then the actions happen in order. *)
Definition run (acts : list Action) : M GameServer :=
  let* s0 := GameServer_new in foldM (λ s a, perform a s) s0 acts.
End Runs.

(** * Vocabulary of the properties *)

Section Vocabulary.
Context `{RT : Runtime}.

(** The three tests of the inner loop, on the two blobs as the loop reads
    them and the distance [d] it computed. *)
Definition sameOwner (b1 b2 : Blob.t) : bool :=
  bool_decide (Blob.playerId b1 = Blob.playerId b2)
  && bool_decide (Blob.playerId b1 ≠ "").

Definition mayRecombine (now d : float) (b1 b2 : Blob.t) : bool :=
  ((now >? Blob.canRecombineTime b1) && (now >? Blob.canRecombineTime b2))
  && ((d <? Blob.radius b1) || (d <? Blob.radius b2)).

Definition mayEngulf (d : float) (a b : Blob.t) : bool :=
  (Blob.mass a >? Blob.mass b * 1.1)
  && (d <? Blob.radius a - Blob.radius b * 0.5).

(** The host after one reading of the clock. *)
Definition clock_read (h : Host) : Host :=
  {| rnd_calls := rnd_calls h; clk_calls := S (clk_calls h) |}.

(** A step either leaves the scan as it is or absorbs the blob at one
    end of the pair into the blob at the other end. *)
Inductive step_result (sc : Scan) (i j : nat) : Scan → Prop :=
| step_kept : step_result sc i j sc
| step_first b1 b2 :
    arr sc !! i = Some b1 → arr sc !! j = Some b2 →
    Blob.id b1 ∉ consumed sc → Blob.id b2 ∉ consumed sc →
    step_result sc i j (absorb i b1 b2 sc)
| step_second b1 b2 :
    arr sc !! i = Some b1 → arr sc !! j = Some b2 →
    Blob.id b1 ∉ consumed sc → Blob.id b2 ∉ consumed sc →
    step_result sc i j (absorb j b2 b1 sc).

(** What a step of the scan may change in a blob: its mass and its
    radius, nothing else. *)
Definition same_but_size (b b' : Blob.t) : Prop :=
  Blob.id b' = Blob.id b
  ∧ Blob.pos b' = Blob.pos b
  ∧ Blob.velocity b' = Blob.velocity b
  ∧ Blob.canRecombineTime b' = Blob.canRecombineTime b
  ∧ Blob.name b' = Blob.name b
  ∧ Blob.color b' = Blob.color b
  ∧ Blob.playerId b' = Blob.playerId b.

(** The radius stored in every blob is the radius of its stored mass. *)
Definition sized (b : Blob.t) : Prop :=
  Blob.radius b = massToRadius (Blob.mass b).

Definition radii_current (bs : list Blob.t) : Prop := Forall sized bs.

(** How many blobs a player owns, and their mass as [playerSplit] adds
    it up. *)
Definition ownedBy (playerId : string) (b : Blob.t) : Prop :=
  Blob.playerId b = playerId.

#[global] Instance ownedBy_dec playerId b : Decision (ownedBy playerId b).
Proof. unfold ownedBy. apply _. Defined.

Definition playerCount (playerId : string) (bs : list Blob.t) : nat :=
  length (filter (ownedBy playerId) bs).

Definition totalMass (playerId : string) (bs : list Blob.t) : float :=
  foldl (λ sum b, sum + Blob.mass b) 0 (filter (ownedBy playerId) bs).

(** The array of the scan keeps the length of [bs], and every slot keeps
    everything but the mass and the radius of its blob. *)
Definition framed (bs : list Blob.t) (sc : Scan) : Prop :=
  length (arr sc) = length bs
  ∧ ∀ k b b', bs !! k = Some b → arr sc !! k = Some b' → same_but_size b b'.

(** The body of the inner loop with the geometry of the tests read
    through [seen]: [seen k b] is the blob at index [k], whose current
    value is [b], as the tests of position and radius see it.  The mass
    is always the current one, and so is the blob that grows. *)
Definition pairStep_seen (seen : nat → Blob.t → Blob.t)
    (sc : Scan) (ij : nat * nat) : M Scan :=
  let (i, j) := ij in
  match arr sc !! i, arr sc !! j with
  | Some b1, Some b2 =>
      if bool_decide (Blob.id b1 ∈ consumed sc)
         || bool_decide (Blob.id b2 ∈ consumed sc) then ret sc
      else
        let g1 := seen i b1 in
        let g2 := seen j b2 in
        let dist := distance (Blob.pos g1) (Blob.pos g2) in
        if bool_decide (Blob.playerId b1 = Blob.playerId b2)
           && bool_decide (Blob.playerId b1 ≠ "") then
          let* now := Date_now in
          if (now >? Blob.canRecombineTime b1)
             && (now >? Blob.canRecombineTime b2) then
            if (dist <? Blob.radius g1) || (dist <? Blob.radius g2) then
              ret (absorb i b1 b2 sc)
            else ret sc
          else ret sc
        else
          if (Blob.mass b1 >? Blob.mass b2 * 1.1)
             && (dist <? Blob.radius g1 - Blob.radius g2 * 0.5) then
            ret (absorb i b1 b2 sc)
          else if (Blob.mass b2 >? Blob.mass b1 * 1.1)
                  && (dist <? Blob.radius g2 - Blob.radius g1 * 0.5) then
            ret (absorb j b2 b1 sc)
          else ret sc
  | _, _ => ret sc
  end.

Definition scan_seen (seen : nat → Blob.t → Blob.t) (bs : list Blob.t)
  : M Scan :=
  foldM (pairStep_seen seen) {| arr := bs; consumed := ∅ |}
        (pairs (length bs)).

(** The reading of the specification: position and radius are those of
    the snapshot [snap] taken when the scan begins. *)
Definition snapshot_pos_radius (snap : list Blob.t) (k : nat) (b : Blob.t)
  : Blob.t :=
  match snap !! k with
  | Some s0 => Blob.with_radius (Blob.radius s0)
                 (Blob.with_pos (Blob.pos s0) b)
  | None => b
  end.

(** The reading that the code admits: the position is that of the
    snapshot, the radius is the current one. *)
Definition snapshot_pos (snap : list Blob.t) (k : nat) (b : Blob.t)
  : Blob.t :=
  match snap !! k with
  | Some s0 => Blob.with_pos (Blob.pos s0) b
  | None => b
  end.

(** The order in which the two [for] loops reach the index pairs: by
    [i] first, by [j] next. *)
Definition pair_lt (p q : nat * nat) : Prop :=
  (p.1 < q.1)%nat ∨ (p.1 = q.1 ∧ (p.2 < q.2)%nat).
End Vocabulary.

(** ** Comparators

    The language fixes the result of a sort only for a comparator that is
    consistent on the values sorted; [a <CF b], [a =CF b] and [a >CF b]
    stand for a comparator result below, equal to (or [NaN]) and above
    zero. *)

Section Comparator.
Context {A : Type} (cmp : A → A → float).

Definition cf_gt (a b : A) : bool := cmp a b >? 0.
Definition cf_lt (a b : A) : bool := cmp a b <? 0.
Definition cf_eq (a b : A) : bool := negb (cf_gt a b) && negb (cf_lt a b).

Definition consistent_at (a b c : A) : bool :=
  cf_eq a a
  && implb (cf_eq a b) (cf_eq b a)
  && implb (cf_eq a b && cf_eq b c) (cf_eq a c)
  && implb (cf_lt a b && cf_lt b c) (cf_lt a c)
  && implb (cf_gt a b && cf_gt b c) (cf_gt a c).

(** The comparator is consistent on the values of [l]. *)
Definition consistent (l : list A) : bool :=
  forallb (λ a, forallb (λ b, forallb (consistent_at a b) l) l) l.

(** No value of the list has to go after a value that follows it. *)
Definition ordered (l : list A) : Prop :=
  StronglySorted (λ a b, ¬ cf_gt a b) l.
End Comparator.

(** The order in which a list of keys shows each key for the first
    time. *)
Definition firstSeen (keys : list string) : list string :=
  foldl (λ acc k, if decide (k ∈ acc) then acc else acc ++ [k]) [] keys.

(** The running total that [pushState] keeps for a player: it starts
    undefined and every blob of the player adds its mass to
    [(total || 0)]. *)
Definition summed (playerId : string) (bs : list Blob.t) : option float :=
  foldl (λ acc b, Some (or_zero acc + Blob.mass b)) None
        (filter (ownedBy playerId) bs).

(** A number that [||] keeps. *)
Definition truthy (a : float) : bool := negb (is_nan a || is_zero a).

(** The totals that a plain left-to-right sum of the masses goes through. *)
Fixpoint runningTotals (acc : float) (bs : list Blob.t) : list float :=
  match bs with
  | [] => []
  | b :: bs' => (acc + Blob.mass b) :: runningTotals (acc + Blob.mass b) bs'
  end.

(** No running total of the masses of the player is [NaN] or zero. *)
Definition steady (playerId : string) (bs : list Blob.t) : bool :=
  forallb truthy (runningTotals 0 (filter (ownedBy playerId) bs)).

(** An entry whose floored mass is a number. *)
Definition is_number (e : LeaderboardEntry.t) : Prop :=
  ¬ is_nan (LeaderboardEntry.mass e).

(** The comparator of a list ranked by the summed mass of the owners, as
    the specification words the order of the leaderboard. *)
Definition bySummedDesc (bs : list Blob.t) (a b : LeaderboardEntry.t)
  : float :=
  totalMass (LeaderboardEntry.playerId b) bs
  - totalMass (LeaderboardEntry.playerId a) bs.

(** * A host for the examples

    The theorems below hold for every host.  The examples need one to run
    on: [Math.hypot] by its defining formula, [Math.floor] by rounding to
    an integer and stepping down, the trigonometric functions exact on the
    axis-aligned directions the examples use and a short series elsewhere,
    a clock that advances by 16 ms per reading from [100000], a
    pseudo-random sequence in [[0, 1)], and numbers printed through their
    integer part. *)

Module Example_host.
Definition two52 : float := 4503599627370496.

Definition floor64 (a : float) : float :=
  if is_nan a || is_zero a then a
  else if (a >=? two52) || (a <=? - two52) then a
  else
    let r := if a <? 0 then (a - two52) + two52 else (a + two52) - two52 in
    if a <? r then r - 1 else r.

Definition hypot64 (a b : float) : float := sqrt (a * a + b * b).

Definition cos64 (a : float) : float :=
  if a =? 0 then 1
  else let a2 := a * a in 1 - a2 / 2 + a2 * a2 / 24 - a2 * a2 * a2 / 720.

Definition sin64 (a : float) : float :=
  if a =? 0 then a
  else let a2 := a * a in a - a * a2 / 6 + a * a2 * a2 / 120.

Definition atan2_64 (b a : float) : float :=
  if is_zero b then (if get_sign a then Math_PI else 0)
  else if is_zero a then (if b <? 0 then - (Math_PI / 2) else Math_PI / 2)
  else
    let t := b / a in
    let q := t / (1 + 0.28 * t * t) in
    if a >? 0 then q else if b <? 0 then q - Math_PI else q + Math_PI.

Definition digit (d : float) : string :=
  if d <? 1 then "0" else if d <? 2 then "1" else if d <? 3 then "2"
  else if d <? 4 then "3" else if d <? 5 then "4" else if d <? 6 then "5"
  else if d <? 7 then "6" else if d <? 8 then "7" else if d <? 9 then "8"
  else "9".

Fixpoint digits (fuel : nat) (a : float) (acc : string) : string :=
  match fuel with
  | O => acc
  | S fuel' =>
      let q := floor64 (a / 10) in
      let acc' := digit (a - q * 10) +:+ acc in
      if q <? 1 then acc' else digits fuel' q acc'
  end.

Definition show (a : float) : string :=
  let n := floor64 (abs a) in
  let frac := floor64 ((abs a - n) * 1000) in
  (if a <? 0 then "-" else "") +:+ digits 20 n ""
  +:+ (if frac >? 0 then "." +:+ digits 3 (frac + 1000) "" else "").

Definition host : Runtime := {|
  Math_hypot := hypot64;
  Math_cos := cos64;
  Math_sin := sin64;
  Math_atan2 := atan2_64;
  Math_floor := floor64;
  random_at := λ k, float_of_nat ((k * 37 + 11) mod 100) / 100;
  now_at := λ k, 100000 + 16 * float_of_nat k;
  num_to_string := show;
|}.

Definition h0 : Host := {| rnd_calls := 0; clk_calls := 0 |}.
End Example_host.


(** * Worlds for the examples *)

Module Example_world.
Import Example_host.

(** A blob at rest whose radius is the radius of its mass. *)
Definition blob (id owner : string) (x y mass time : float) : Blob.t :=
  {| Blob.id := id;
     Blob.pos := Vector.mk x y;
     Blob.mass := mass;
     Blob.radius := massToRadius mass;
     Blob.color := "hsl(0, 100%, 50%)";
     Blob.velocity := Vector.mk 0 0;
     Blob.name := owner;
     Blob.canRecombineTime := time;
     Blob.playerId := owner |}.

Definition world (bs : list Blob.t) (fs : list Food.t) : GameServer :=
  {| blobs := bs; food := fs; messages := [];
     playerNames := <["A" := "Ann"]> (<["B" := "Bob"]> ∅) |}.

Definition start (bs : list Blob.t) : Scan := {| arr := bs; consumed := ∅ |}.

(** The third scenario of the specification: a blob of mass 110 at
    distance 5 from a blob of mass 50 of another player. *)
Definition big : Blob.t := blob "a" "A" 0 0 110 0.
Definition small : Blob.t := blob "b" "B" 3 4 50 0.
Definition duel : GameServer := world [big; small] [].

(** The duel with a third blob at distance 50 from the big one, inside
    the reach of a blob of mass 160 and outside the reach of a blob of
    mass 110, and a fourth blob far from the others. *)
Definition third : Blob.t := blob "c" "C" 50 0 20 0.
Definition far : Blob.t := blob "d" "D" 2000 2000 20 0.
Definition chain : list Blob.t := [big; small; third; far].

(** Two pieces of one player on top of each other, 25 seconds before
    they may recombine. *)
Definition piece1 : Blob.t := blob "p-1" "P" 100 100 50 125000.
Definition piece2 : Blob.t := blob "p-2" "P" 103 104 50 125000.

(** A new server and one blob sitting on its first pellet. *)
Definition new_server : GameServer := (GameServer_new (RT := host) h0).1.

Definition on_pellet : GameServer :=
  match food new_server with
  | f :: _ =>
      set_blobs [blob "e" "E" (Vector.x (Food.pos f)) (Vector.y (Food.pos f))
                      20 0] new_server
  | [] => new_server
  end.

(** One blob of mass 100, the mouse to the right of the window centre. *)
Definition heavy : GameServer := world [blob "a" "A" 500 500 100 0] [].
Definition light : GameServer := world [blob "a" "A" 500 500 20 0] [].
Definition mouse : Vector.t := Vector.mk 500 300.
Definition window : WindowSize.t := WindowSize.mk 800 600.
Definition view : Camera.t := Camera.mk 500 500 1.

(** Two players whose masses differ by less than one. *)
Definition close_race : list Blob.t :=
  [blob "a" "A" 100 100 20.25 0; blob "b" "B" 900 900 20.75 0].
Definition names : gmap string string :=
  <["A" := "Ann"]> (<["B" := "Bob"]> ∅).

(** Three players: the second has the largest total, and the first and
    the third, with the totals 50.25 and 50.75, tie on the floored
    total. *)
Definition podium : list Blob.t :=
  [blob "a1" "A" 100 100 20.25 0; blob "b1" "B" 900 900 70.5 0;
   blob "a2" "A" 300 300 30 0; blob "c1" "C" 1500 1500 50.75 0].

(** Eleven players join a new server. *)
Definition joiners : list Action :=
  ConnectPlayer
  <$> ["p01"; "p02"; "p03"; "p04"; "p05"; "p06"; "p07"; "p08"; "p09";
       "p10"; "p11"].

Definition lobby : GameServer := (run (RT := host) joiners h0).1.
End Example_world.


(** * Vocabulary of the further properties *)

(** [lo <= v <= hi], or [v] is [NaN]: what clamping [v] into an interval
    yields. *)
Definition within (lo hi v : float) : Prop :=
  is_nan v ∨ (lo <=? v ∧ v <=? hi).

(** What names a blob and ties it to its player: the fields that neither
    a tick nor a steering input ever writes. *)
Definition identity (b : Blob.t) : string * string * string * string * float :=
  (Blob.id b, Blob.playerId b, Blob.name b, Blob.color b,
   Blob.canRecombineTime b).

(** A pellet as [createFood] makes it. *)
Definition pellet_ok (f : Food.t) : Prop :=
  Food.mass f = FOOD_MASS ∧ Food.radius f = massToRadius FOOD_MASS.





(** What a steering input may change in a blob: its velocity. *)
Definition same_but_velocity (b b' : Blob.t) : Prop :=
  Blob.id b' = Blob.id b
  ∧ Blob.pos b' = Blob.pos b
  ∧ Blob.mass b' = Blob.mass b
  ∧ Blob.radius b' = Blob.radius b
  ∧ Blob.color b' = Blob.color b
  ∧ Blob.name b' = Blob.name b
  ∧ Blob.canRecombineTime b' = Blob.canRecombineTime b
  ∧ Blob.playerId b' = Blob.playerId b.

(** [b'] is a half of [b] made by a split that locks its pieces until
    [time]: the piece that stays or the piece that is ejected. *)
Definition half_of (time : float) (b b' : Blob.t) : Prop :=
  Blob.playerId b' = Blob.playerId b
  ∧ Blob.name b' = Blob.name b
  ∧ Blob.color b' = Blob.color b
  ∧ Blob.mass b' = Blob.mass b / 2
  ∧ Blob.radius b' = massToRadius (Blob.mass b / 2)
  ∧ Blob.canRecombineTime b' = time.

(** How a blob of the world may stand in the store while the input of
    [playerId] is applied. *)
Definition steered (playerId : string) (b b' : Blob.t) : Prop :=
  if decide (ownedBy playerId b) then same_but_velocity b b' else b' = b.

(** A blob that a split may leave in the world: a blob of the world [bs],
    or a half of a blob of the player that was heavy enough to split. *)
Definition from_split (playerId : string) (time : float) (bs : list Blob.t)
    (b' : Blob.t) : Prop :=
  b' ∈ bs
  ∨ ∃ b, b ∈ bs ∧ Blob.playerId b = playerId
         ∧ Blob.mass b >=? MIN_MASS_TO_SPLIT ∧ half_of time b b'.

(** A blob whose mass is above zero. *)
Definition has_mass (b : Blob.t) : Prop := 0 <? Blob.mass b.

(** Every blob of the world belongs to a player whose name is stored. *)
Definition registered `{RT : Runtime} (s : GameServer) : Prop :=
  ∀ b, b ∈ blobs s → is_Some (playerNames s !! Blob.playerId b).

(** * Vocabulary of the order of the numbers *)

Module FloatCompare.
(** Exponent first, mantissa next: the comparison of two finite numbers
    of the same sign. *)
Definition lex (e1 : Z) (m1 : positive) (e2 : Z) (m2 : positive)
  : comparison :=
  match (e1 ?= e2)%Z with
  | Lt => Lt
  | Gt => Gt
  | Eq => Pos.compare_cont Eq m1 m2
  end.

(** The outcome of a comparison that says "less than or equal". *)
Definition at_most (c : option comparison) : Prop :=
  c = Some Lt ∨ c = Some Eq.
End FloatCompare.

(** * Further worlds for the examples *)

Module Further_worlds.
Import Example_host Example_world.

(** The clock 32 seconds after [h0], past the deadline of the two
    pieces. *)
Definition late : Host := {| rnd_calls := 0; clk_calls := 2000 |}.

(** The scan of the duel after its only pair resolved. *)
Definition fought : Scan :=
  (pairStep (RT := host) (start [big; small]) (0, 1)%nat h0).1.

(** Three blobs of one player, none heavy enough to split, under a cap
    of four. *)
Definition crowd : GameServer :=
  world [blob "a1" "A" 100 100 25 0; blob "a2" "A" 300 300 25 0;
         blob "a3" "A" 600 600 25 0] [].
End Further_worlds.

(** * The numbers *)

(** ** The order of the numbers

    The comparisons of binary64, from their specification in the standard
    library: on numbers that are not [NaN] they are a total preorder. *)

Module FloatOrder.
Import SpecFloat FloatOps FloatAxioms FloatCompare.

Lemma lex_spec e1 m1 e2 m2 :
  match lex e1 m1 e2 m2 with
  | Lt => (e1 < e2)%Z ∨ (e1 = e2 ∧ (m1 < m2)%positive)
  | Eq => e1 = e2 ∧ m1 = m2
  | Gt => (e2 < e1)%Z ∨ (e1 = e2 ∧ (m2 < m1)%positive)
  end.
Proof.
  unfold lex. change (Pos.compare_cont Eq m1 m2) with (Pos.compare m1 m2).
  destruct (Z.compare_spec e1 e2); [|by left..].
  destruct (Pos.compare_spec m1 m2); [done|by right..].
Qed.

Lemma lex_opp e1 m1 e2 m2 : lex e2 m2 e1 m1 = CompOpp (lex e1 m1 e2 m2).
Proof.
  unfold lex.
  change (Pos.compare_cont Eq m2 m1) with (Pos.compare m2 m1).
  change (Pos.compare_cont Eq m1 m2) with (Pos.compare m1 m2).
  rewrite (Z.compare_antisym e1 e2), (Pos.compare_antisym m1 m2).
  by destruct (e1 ?= e2)%Z.
Qed.

Lemma lex_trans e1 m1 e2 m2 e3 m3 :
  lex e1 m1 e2 m2 ≠ Gt → lex e2 m2 e3 m3 ≠ Gt → lex e1 m1 e3 m3 ≠ Gt.
Proof.
  pose proof (lex_spec e1 m1 e2 m2) as H12.
  pose proof (lex_spec e2 m2 e3 m3) as H23.
  pose proof (lex_spec e1 m1 e3 m3) as H13.
  destruct (lex e1 m1 e2 m2), (lex e2 m2 e3 m3), (lex e1 m1 e3 m3);
    try done; intros _ _; exfalso; lia.
Qed.

Lemma SFcompare_finite s1 m1 e1 s2 m2 e2 :
  SFcompare (S754_finite s1 m1 e1) (S754_finite s2 m2 e2)
  = Some match s1, s2 with
         | true, false => Lt
         | false, true => Gt
         | false, false => lex e1 m1 e2 m2
         | true, true => lex e2 m2 e1 m1
         end.
Proof.
  destruct s1, s2; simpl; try done.
  rewrite lex_opp. unfold lex. by destruct (e1 ?= e2)%Z.
Qed.

Lemma SFcompare_antisym x y :
  SFcompare y x = option_map CompOpp (SFcompare x y).
Proof.
  destruct x as [sx|sx| |sx mx ex], y as [sy|sy| |sy my ey];
    rewrite ?SFcompare_finite;
    try destruct sx; try destruct sy; simpl; try reflexivity;
    by rewrite lex_opp.
Qed.

Lemma SFcompare_refl x : x ≠ S754_nan → SFcompare x x = Some Eq.
Proof.
  destruct x as [sx|sx| |sx mx ex]; try destruct sx; simpl; try done;
    intros _; rewrite Z.compare_refl, Pos.compare_cont_refl; done.
Qed.

Lemma SFcompare_some x y :
  x ≠ S754_nan → y ≠ S754_nan → ∃ c, SFcompare x y = Some c.
Proof.
  destruct x as [sx|sx| |sx mx ex], y as [sy|sy| |sy my ey];
    try done; intros _ _; simpl; eauto.
Qed.

Lemma SFcompare_trans x y z :
  at_most (SFcompare x y) → at_most (SFcompare y z) →
  at_most (SFcompare x z).
Proof.
  unfold at_most.
  destruct x as [sx|sx| |sx mx ex], y as [sy|sy| |sy my ey],
           z as [sz|sz| |sz mz ez];
    rewrite ?SFcompare_finite;
    try destruct sx; try destruct sy; try destruct sz; simpl;
    try (intros [?|?] [?|?]; by (done || auto)).
  - intros H1 H2.
    pose proof (lex_trans ez mz ey my ex mx) as Ht.
    destruct (lex ey my ex mx), (lex ez mz ey my), (lex ez mz ex mx);
      try (destruct H1; done); try (destruct H2; done); auto;
      exfalso; by apply Ht.
  - intros H1 H2.
    pose proof (lex_trans ex mx ey my ez mz) as Ht.
    destruct (lex ex mx ey my), (lex ey my ez mz), (lex ex mx ez mz);
      try (destruct H1; done); try (destruct H2; done); auto;
      exfalso; by apply Ht.
Qed.

Lemma leb_at_most x y : x <=? y ↔ at_most (SFcompare (Prim2SF x) (Prim2SF y)).
Proof.
  rewrite leb_spec. unfold SFleb, at_most.
  destruct (SFcompare _ _) as [[]|]; simpl;
    (split; [intros ?; by (left + right) | intros [?|?]; done]).
Qed.

Lemma is_nan_spec x : ¬ is_nan x ↔ Prim2SF x ≠ S754_nan.
Proof.
  unfold is_nan. rewrite eqb_spec. unfold SFeqb. split.
  - intros H Hn. apply H. by rewrite Hn.
  - intros H. rewrite SFcompare_refl by done. simpl. tauto.
Qed.

Lemma ltb_leb x y : x <? y → x <=? y.
Proof.
  rewrite ltb_spec, leb_spec. unfold SFltb, SFleb.
  by destruct (SFcompare _ _) as [[]|].
Qed.

(** Of two numbers, the first is below the second or the second is at
    most the first. *)
Lemma not_ltb_leb x y : ¬ is_nan x → ¬ is_nan y → ¬ x <? y → y <=? x.
Proof.
  rewrite !is_nan_spec, ltb_spec, leb_spec. unfold SFltb, SFleb.
  intros Hx Hy. rewrite (SFcompare_antisym (Prim2SF x) (Prim2SF y)).
  destruct (SFcompare_some _ _ Hx Hy) as [c ->]. destruct c; simpl; tauto.
Qed.

Lemma leb_refl x : ¬ is_nan x → x <=? x.
Proof.
  rewrite is_nan_spec, leb_spec. unfold SFleb. intros Hx.
  by rewrite SFcompare_refl.
Qed.

Lemma leb_trans x y z : x <=? y → y <=? z → x <=? z.
Proof. rewrite !leb_at_most. apply SFcompare_trans. Qed.

Lemma leb_not_nan x y : x <=? y → ¬ is_nan x ∧ ¬ is_nan y.
Proof.
  rewrite leb_spec, !is_nan_spec. unfold SFleb.
  destruct (Prim2SF x), (Prim2SF y); simpl; try done.
Qed.
End FloatOrder.

(** ** The sign of sums and differences

    Addition and subtraction of binary64, from their specification: the
    difference of two numbers has the sign of their comparison, and a sum
    of positive numbers is positive. *)

Module FloatArith.
Import SpecFloat FloatOps FloatAxioms FloatCompare FloatOrder.
#[local] Open Scope Z_scope.

Lemma digits2_pos_bounds m :
  2 ^ (Zpos (digits2_pos m) - 1) ≤ Zpos m < 2 ^ Zpos (digits2_pos m).
Proof.
  induction m as [m IH|m IH|]; cbn [digits2_pos];
    rewrite ?Pos2Z.inj_succ; [| |by compute].
  - replace (Z.succ (Zpos (digits2_pos m)) - 1)
      with (Z.succ (Zpos (digits2_pos m) - 1)) by lia.
    rewrite !Z.pow_succ_r by lia.
    change (Zpos m~1) with (2 * Zpos m + 1).
    revert IH. generalize (2 ^ (Zpos (digits2_pos m) - 1)).
    generalize (2 ^ Zpos (digits2_pos m)). lia.
  - replace (Z.succ (Zpos (digits2_pos m)) - 1)
      with (Z.succ (Zpos (digits2_pos m) - 1)) by lia.
    rewrite !Z.pow_succ_r by lia.
    change (Zpos m~0) with (2 * Zpos m).
    revert IH. generalize (2 ^ (Zpos (digits2_pos m) - 1)).
    generalize (2 ^ Zpos (digits2_pos m)). lia.
Qed.

Lemma shr_1_m mrs : 0 ≤ shr_m mrs → shr_m (shr_1 mrs) = Z.div2 (shr_m mrs).
Proof. destruct mrs as [[|[p|p|]|p] r s]; cbn; by try lia. Qed.

Lemma iter_shr_1_m p :
  ∀ mrs, 0 ≤ shr_m mrs →
         shr_m (iter_pos shr_1 p mrs) = Z.shiftr (shr_m mrs) (Zpos p).
Proof.
  induction p as [p IH|p IH|]; intros mrs Hm; cbn [iter_pos].
  - assert (0 ≤ shr_m (shr_1 mrs)) as H1.
    { rewrite shr_1_m by done. by apply Z.div2_nonneg. }
    assert (0 ≤ shr_m (iter_pos shr_1 p (shr_1 mrs))) as H2.
    { rewrite IH by done. by apply Z.shiftr_nonneg. }
    rewrite (IH _ H2), (IH _ H1), shr_1_m, Z.div2_spec by done.
    rewrite !Z.shiftr_shiftr by lia. f_equal. lia.
  - assert (0 ≤ shr_m (iter_pos shr_1 p mrs)) as H2.
    { rewrite IH by done. by apply Z.shiftr_nonneg. }
    rewrite (IH _ H2), (IH _ Hm).
    rewrite !Z.shiftr_shiftr by lia. f_equal. lia.
  - rewrite shr_1_m by done. apply Z.div2_spec.
Qed.

Lemma shr_record_of_loc_m m l : shr_m (shr_record_of_loc m l) = m.
Proof. by destruct l as [|[]]. Qed.

(** Rounding a positive mantissa whose exponent is not below the least
    exponent never shifts every digit out. *)
Lemma shr_fexp_pos m e l :
  emin ≤ e →
  0 < shr_m (shr_fexp prec emax (Zpos m) e l).1
  ∧ emin ≤ (shr_fexp prec emax (Zpos m) e l).2.
Proof.
  intros He. unfold shr_fexp, shr. cbn [Zdigits2].
  pose proof (digits2_pos_bounds m) as [Hlo _].
  set (d := Zpos (digits2_pos m)) in *.
  assert (fexp prec emax (d + e) - e ≤ d - 1) as Hn.
  { unfold fexp, SpecFloat.emin, prec, emax in *. lia. }
  destruct (fexp prec emax (d + e) - e) as [|p|p] eqn:Hp; cbn [fst snd];
    rewrite ?shr_record_of_loc_m; [lia| |lia].
  split; [|lia].
  rewrite iter_shr_1_m by (rewrite shr_record_of_loc_m; lia).
  rewrite shr_record_of_loc_m, Z.shiftr_div_pow2 by lia.
  apply Z.div_str_pos. split; [by apply Z.pow_pos_nonneg|].
  etrans; [|exact Hlo]. apply Z.pow_le_mono_r; lia.
Qed.

Lemma round_nearest_even_pos m l : 0 < m → 0 < round_nearest_even m l.
Proof.
  intros Hm. destruct l as [|[]]; cbn; try lia. destruct (Z.even m); lia.
Qed.

Lemma binary_round_aux_sign s m e l :
  emin ≤ e →
  SFcompare (binary_round_aux prec emax s (Zpos m) e l) (S754_zero false)
  = Some (if s then Lt else Gt).
Proof.
  intros He. unfold binary_round_aux.
  destruct (shr_fexp_pos m e l He) as [H1 He'].
  destruct (shr_fexp prec emax (Zpos m) e l) as [mrs' e']. cbn [fst snd] in *.
  pose proof (round_nearest_even_pos (shr_m mrs') (loc_of_shr_record mrs') H1)
    as H2.
  destruct (round_nearest_even (shr_m mrs') (loc_of_shr_record mrs'))
    as [|m2|m2]; [lia| |lia].
  destruct (shr_fexp_pos m2 e' loc_Exact He') as [H3 _].
  destruct (shr_fexp prec emax (Zpos m2) e' loc_Exact) as [mrs'' e''].
  cbn [fst snd] in *.
  destruct (shr_m mrs'') as [|m3|m3]; [lia| |lia].
  by destruct (e'' <=? emax - prec), s.
Qed.

Lemma binary_round_sign s m e :
  emin ≤ e →
  SFcompare (binary_round prec emax s m e) (S754_zero false)
  = Some (if s then Lt else Gt).
Proof.
  intros He. unfold binary_round, shl_align.
  destruct (fexp prec emax (Zpos (digits2_pos m) + e) - e);
    apply binary_round_aux_sign; [done..|].
  unfold fexp. lia.
Qed.

Lemma binary_normalize_sign z e :
  emin ≤ e →
  SFcompare (binary_normalize prec emax z e false) (S754_zero false)
  = Some (z ?= 0).
Proof.
  intros He. destruct z; cbn [binary_normalize]; [done|..];
    by rewrite binary_round_sign.
Qed.

Lemma bounded_spec m e :
  bounded prec emax m e = true →
  emin ≤ e ∧ Zpos (digits2_pos m) ≤ prec
  ∧ (emin < e → Zpos (digits2_pos m) = prec).
Proof.
  unfold bounded, canonical_mantissa, fexp, SpecFloat.emin, prec, emax.
  intros [H1 H2]%andb_prop. apply Z.eqb_eq in H1. lia.
Qed.

Lemma iter_xO m d : Zpos (Pos.iter xO m d) = Zpos m * 2 ^ Zpos d.
Proof.
  induction d as [|d IH] using Pos.peano_ind.
  - cbn. lia.
  - rewrite Pos.iter_succ, Pos2Z.inj_xO, IH, Pos2Z.inj_succ.
    rewrite Z.pow_succ_r by lia. lia.
Qed.

Lemma shl_align_fst m e ez :
  ez ≤ e → Zpos (shl_align m e ez).1 = Zpos m * 2 ^ (e - ez).
Proof.
  intros Hle. unfold shl_align.
  destruct (ez - e) as [|d|d] eqn:Hd; cbn [fst]; [|lia|].
  - replace (e - ez) with 0 by lia. lia.
  - replace (e - ez) with (Zpos d) by lia. apply iter_xO.
Qed.

(** Numbers in canonical form compare as their aligned mantissas do. *)
Lemma aligned_compare m1 e1 m2 e2 :
  bounded prec emax m1 e1 = true → bounded prec emax m2 e2 = true →
  (Zpos (shl_align m1 e1 (Z.min e1 e2)).1
   ?= Zpos (shl_align m2 e2 (Z.min e1 e2)).1)
  = lex e1 m1 e2 m2.
Proof.
  intros (Hmin1 & Hd1 & Hn1)%bounded_spec (Hmin2 & Hd2 & Hn2)%bounded_spec.
  rewrite !shl_align_fst by lia. unfold lex.
  pose proof (digits2_pos_bounds m1) as [Hlo1 Hhi1].
  pose proof (digits2_pos_bounds m2) as [Hlo2 Hhi2].
  assert (∀ d, d ≤ prec → 2 ^ d ≤ 2 ^ prec) as Hpow
    by (intros d Hd; apply Z.pow_le_mono_r; lia).
  destruct (Z.compare_spec e1 e2) as [->|Hlt|Hgt].
  - rewrite Z.min_id, Z.sub_diag, !Z.mul_1_r. done.
  - rewrite Z.min_l, Z.sub_diag, Z.mul_1_r by lia.
    apply Z.compare_lt_iff.
    assert (2 ^ 1 ≤ 2 ^ (e2 - e1)) as Hk by (apply Z.pow_le_mono_r; lia).
    rewrite Hn2 in Hlo2 by lia.
    pose proof (Hpow _ Hd1) as Hp1.
    replace (2 ^ prec) with (2 * 2 ^ (prec - 1)) in Hp1 by done.
    change (2 ^ 1) with 2 in Hk. nia.
  - rewrite Z.min_r, Z.sub_diag, Z.mul_1_r by lia.
    apply Z.compare_gt_iff.
    assert (2 ^ 1 ≤ 2 ^ (e1 - e2)) as Hk by (apply Z.pow_le_mono_r; lia).
    rewrite Hn1 in Hlo1 by lia.
    pose proof (Hpow _ Hd2) as Hp2.
    replace (2 ^ prec) with (2 * 2 ^ (prec - 1)) in Hp2 by done.
    change (2 ^ 1) with 2 in Hk. nia.
Qed.

(** The difference of two numbers compares with zero as the numbers
    compare with each other; it is [NaN] only for two infinities of the
    same sign. *)
Lemma SFsub_compare x y :
  valid_binary x = true → valid_binary y = true →
  x ≠ S754_nan → y ≠ S754_nan →
  match SFcompare (SFsub prec emax x y) (S754_zero false) with
  | Some c => SFcompare x y = Some c
  | None => SFcompare x y = Some Eq
  end.
Proof.
  destruct x as [sx|sx| |sx mx ex], y as [sy|sy| |sy my ey];
    try done; intros Hx Hy _ _;
    try (by destruct sx, sy); try (by destruct sx); try (by destruct sy).
  cbn [valid_binary] in Hx, Hy. unfold SFsub. cbv zeta.
  pose proof (bounded_spec _ _ Hx) as (Hex & _).
  pose proof (bounded_spec _ _ Hy) as (Hey & _).
  rewrite binary_normalize_sign by lia.
  rewrite <- Z.compare_sub, SFcompare_finite.
  pose proof (aligned_compare mx ex my ey Hx Hy) as Hal.
  pose proof (aligned_compare my ey mx ex Hy Hx) as Hal'.
  rewrite (Z.min_comm ey ex) in Hal'.
  destruct sx, sy; cbn [cond_Zopp].
  - rewrite Z.compare_opp. by rewrite Hal'.
  - done.
  - done.
  - by rewrite Hal.
Qed.

(** A number that is zero or above plus a number above zero is above
    zero. *)
Lemma SFadd_pos x y :
  valid_binary x = true → valid_binary y = true →
  SFcompare (S754_zero false) x ≠ Some Gt → x ≠ S754_nan →
  SFcompare y (S754_zero false) = Some Gt →
  SFcompare (SFadd prec emax x y) (S754_zero false) = Some Gt.
Proof.
  destruct x as [sx|sx| |sx mx ex], y as [sy|sy| |sy my ey];
    try done; intros Hx Hy Hx0 _ Hy0;
    try (by destruct sx, sy); try (by destruct sx); try (by destruct sy).
  cbn [valid_binary] in Hx, Hy. unfold SFadd. cbv zeta.
  pose proof (bounded_spec _ _ Hx) as (Hex & _).
  pose proof (bounded_spec _ _ Hy) as (Hey & _).
  rewrite binary_normalize_sign by lia.
  destruct sx; [by destruct Hx0|]. destruct sy; [done|].
  cbn [cond_Zopp]. done.
Qed.

#[local] Open Scope float_scope.

Lemma Prim2SF_zero : Prim2SF 0 = S754_zero false.
Proof. reflexivity. Qed.

(** [x - y > 0] exactly when [y < x], and [x - y < 0] exactly when
    [x < y], for numbers that are not [NaN]. *)
Lemma sub_gtb x y : ¬ is_nan x → ¬ is_nan y → (x - y >? 0) = (y <? x).
Proof.
  intros Hx%is_nan_spec Hy%is_nan_spec. unfold gtb.
  rewrite !ltb_spec, sub_spec, Prim2SF_zero. unfold SFltb, SF64sub.
  pose proof (SFsub_compare _ _ (Prim2SF_valid x) (Prim2SF_valid y) Hx Hy)
    as H.
  rewrite (SFcompare_antisym (SFsub prec emax (Prim2SF x) (Prim2SF y))
             (S754_zero false)).
  rewrite (SFcompare_antisym (Prim2SF x) (Prim2SF y)).
  destruct (SFcompare (SFsub prec emax (Prim2SF x) (Prim2SF y))
              (S754_zero false)) as [c|]; rewrite H; [by destruct c|done].
Qed.

Lemma sub_ltb x y : ¬ is_nan x → ¬ is_nan y → (x - y <? 0) = (x <? y).
Proof.
  intros Hx%is_nan_spec Hy%is_nan_spec.
  rewrite !ltb_spec, sub_spec, Prim2SF_zero. unfold SFltb, SF64sub.
  pose proof (SFsub_compare _ _ (Prim2SF_valid x) (Prim2SF_valid y) Hx Hy)
    as H.
  destruct (SFcompare (SFsub prec emax (Prim2SF x) (Prim2SF y))
              (S754_zero false)) as [c|]; rewrite H; [by destruct c|done].
Qed.

(** A number above zero is a number, is not below zero and is not
    zero. *)
Lemma pos_spec x : 0 <? x ↔ SFcompare (Prim2SF x) (S754_zero false) = Some Gt.
Proof.
  rewrite ltb_spec, Prim2SF_zero. unfold SFltb.
  rewrite (SFcompare_antisym (Prim2SF x) (S754_zero false)).
  destruct (SFcompare (Prim2SF x) (S754_zero false)) as [[]|]; cbn;
    split; (done || by intros []).
Qed.

Lemma pos_not_nan x : 0 <? x → ¬ is_nan x.
Proof.
  intros Hx%pos_spec. apply is_nan_spec. intros Hn. by rewrite Hn in Hx.
Qed.

Lemma pos_not_neg x : 0 <? x → ¬ x <? 0.
Proof.
  intros Hx%pos_spec. rewrite ltb_spec, Prim2SF_zero. unfold SFltb.
  rewrite Hx. cbn. tauto.
Qed.

Lemma pos_not_zero x : 0 <? x → ¬ is_zero x.
Proof.
  intros Hx%pos_spec. unfold is_zero.
  rewrite eqb_spec. change (Prim2SF zero) with (S754_zero false).
  unfold SFeqb. rewrite Hx. cbn. tauto.
Qed.

(** Adding a number above zero to a number that is not below zero gives
    a number above zero (which may be the infinity). *)
Lemma add_pos x y : ¬ is_nan x → ¬ x <? 0 → 0 <? y → 0 <? x + y.
Proof.
  intros Hx%is_nan_spec Hx0 Hy%pos_spec. apply pos_spec.
  rewrite add_spec. apply SFadd_pos; try done; try apply Prim2SF_valid.
  intros Hgt. apply Hx0. rewrite ltb_spec, Prim2SF_zero. unfold SFltb.
  rewrite (SFcompare_antisym (S754_zero false) (Prim2SF x)), Hgt. exact I.
Qed.

Lemma leb_not_ltb x y : x <=? y → ¬ y <? x.
Proof.
  rewrite leb_spec, ltb_spec. unfold SFleb, SFltb.
  rewrite (SFcompare_antisym (Prim2SF x) (Prim2SF y)).
  destruct (SFcompare (Prim2SF x) (Prim2SF y)) as [[]|]; cbn; tauto.
Qed.

Lemma ltb_irrefl x : ¬ x <? x.
Proof.
  rewrite ltb_spec. unfold SFltb.
  destruct (Prim2SF x) as [s|s| |s m e]; try destruct s; cbn; try tauto;
    rewrite Z.compare_refl, Pos.compare_cont_refl; cbn; tauto.
Qed.

Lemma ltb_not_nan x y : x <? y → ¬ is_nan x ∧ ¬ is_nan y.
Proof. intros H%ltb_leb. by apply leb_not_nan. Qed.

Lemma ltb_trans x y z : x <? y → y <? z → x <? z.
Proof.
  intros Hxy Hyz.
  destruct (ltb_not_nan _ _ Hxy) as [Hx _].
  destruct (ltb_not_nan _ _ Hyz) as [_ Hz].
  destruct (x <? z) eqn:Hxz; [done|]. exfalso.
  assert (z <=? x) as Hzx.
  { apply not_ltb_leb; [done..|]. rewrite Hxz. by intros []. }
  apply (leb_not_ltb z y); [|done].
  eapply leb_trans; [exact Hzx|]. by apply ltb_leb.
Qed.

(** Numbers of which neither is below the other are equal as numbers,
    and being equal in this way is transitive. *)
Lemma eqb_tie x y :
  ¬ is_nan x → ¬ is_nan y → (x =? y) = negb (x <? y) && negb (y <? x).
Proof.
  intros Hx%is_nan_spec Hy%is_nan_spec.
  rewrite eqb_spec, !ltb_spec. unfold SFeqb, SFltb.
  rewrite (SFcompare_antisym (Prim2SF x) (Prim2SF y)).
  destruct (SFcompare_some _ _ Hx Hy) as [c ->]. by destruct c.
Qed.

Lemma tie_trans x y z :
  ¬ is_nan x → ¬ is_nan y → ¬ is_nan z →
  ¬ x <? y → ¬ y <? x → ¬ y <? z → ¬ z <? y → ¬ x <? z ∧ ¬ z <? x.
Proof.
  intros Hx Hy Hz Hxy Hyx Hyz Hzy.
  apply not_ltb_leb in Hxy, Hyx, Hyz, Hzy; try done.
  split; apply leb_not_ltb; eapply leb_trans; done.
Qed.
End FloatArith.

(** ** Halving

    Division of binary64, from its specification, on the one case the
    engine has: a mass that may split, divided by two. *)

Module FloatHalf.
Import SpecFloat FloatOps FloatAxioms FloatCompare FloatOrder FloatArith.
#[local] Open Scope Z_scope.

(** Half of a number that is at least 30 is above zero. *)
Lemma SFdiv_two_pos x :
  valid_binary x = true →
  SFleb (Prim2SF 30%float) x = true →
  SFcompare (SFdiv prec emax x (Prim2SF 2%float)) (S754_zero false) = Some Gt.
Proof.
  change (Prim2SF 30%float) with (S754_finite false 8444249301319680 (-48)).
  change (Prim2SF 2%float) with (S754_finite false 4503599627370496 (-51)).
  destruct x as [s|s| |s m e]; try done; try (by destruct s).
  intros Hv. cbn [valid_binary] in Hv.
  destruct (bounded_spec _ _ Hv) as (Hmin & Hd & Hnormal).
  unfold SFleb. rewrite SFcompare_finite.
  destruct s; [done|]. intros Hle.
  assert (-48 ≤ e) as He.
  { pose proof (lex_spec (-48) 8444249301319680 e m) as Hlex.
    destruct (lex (-48) 8444249301319680 e m); [lia|lia|done]. }
  assert (Zpos (digits2_pos m) = 53) as Hdig
    by (apply Hnormal; unfold SpecFloat.emin, prec, emax; lia).
  unfold SFdiv, SFdiv_core_binary. cbn [Zdigits2 xorb].
  rewrite Hdig.
  change (Zpos (digits2_pos 4503599627370496)) with 53.
  replace (Z.min (fexp prec emax (53 + e - (53 + -51))) (e - -51))
    with (e - 2) by (unfold fexp, SpecFloat.emin, prec, emax; lia).
  replace (e - -51 - (e - 2)) with 53 by lia.
  pose proof (Z.div_eucl_eq (Z.shiftl (Zpos m) 53) (Zpos 4503599627370496))
    as Heq.
  pose proof (Z.mod_pos_bound (Z.shiftl (Zpos m) 53) (Zpos 4503599627370496))
    as Hmod.
  unfold Z.modulo in Hmod.
  destruct (Z.div_eucl (Z.shiftl (Zpos m) 53) (Zpos 4503599627370496))
    as [q r].
  rewrite Z.shiftl_mul_pow2 in Heq by lia.
  assert (0 < q) as Hq.
  { specialize (Heq ltac:(lia)). specialize (Hmod ltac:(lia)).
    change (2 ^ 53) with 9007199254740992 in Heq. lia. }
  destruct q as [|q|q]; [lia| |lia].
  apply (binary_round_aux_sign false).
  unfold SpecFloat.emin, prec, emax. lia.
Qed.

#[local] Open Scope float_scope.

Lemma half_pos m : 30 <=? m → 0 <? m / 2.
Proof.
  intros Hm. apply pos_spec. rewrite div_spec.
  apply SFdiv_two_pos; [apply Prim2SF_valid|].
  rewrite <- leb_spec. by apply Is_true_true.
Qed.
End FloatHalf.

(** * Properties *)

(** ** The host monad *)

Lemma bind_run {A B} (m : M A) (k : A → M B) (h : Host) :
  bind m k h = k (m h).1 (m h).2.
Proof. unfold bind. by destruct (m h). Qed.

Lemma foldM_app {A B} (f : A → B → M A) (l1 l2 : list B) (a : A) (h : Host) :
  foldM f a (l1 ++ l2) h = foldM f (foldM f a l1 h).1 l2 (foldM f a l1 h).2.
Proof.
  revert a h. induction l1 as [|b l1 IH]; intros a h; [done|].
  simpl. rewrite !bind_run. apply IH.
Qed.

(** An invariant of the body of a loop is an invariant of the loop. *)
Lemma foldM_invariant {A B} (P : A → Host → Prop) (f : A → B → M A)
    (l : list B) (a : A) (h : Host) :
  (∀ a h b, b ∈ l → P a h → P (f a b h).1 (f a b h).2) →
  P a h → P (foldM f a l h).1 (foldM f a l h).2.
Proof.
  revert a h. induction l as [|b l IH]; intros a h Hstep Ha; [done|].
  simpl. rewrite bind_run. apply IH.
  - intros a' h' b' Hb'. apply Hstep. by right.
  - apply Hstep; [by left | done].
Qed.

(** What no round of a loop changes, the loop does not change: [obs] is
    any observation of the loop state, and the rounds are named by the
    prefix of the list that ran before them. *)
Lemma foldM_unchanged {A B X} (obs : A → X) (f : A → B → M A)
    (l : list B) (a : A) (h : Host) :
  (∀ l1 b l2, l = l1 ++ b :: l2 →
     obs (f (foldM f a l1 h).1 b (foldM f a l1 h).2).1
     = obs (foldM f a l1 h).1) →
  obs (foldM f a l h).1 = obs a.
Proof.
  induction l as [|b l IH] using rev_ind; intros Hstep; [done|].
  rewrite foldM_app. simpl. rewrite bind_run. simpl.
  rewrite (Hstep l b []); [|done].
  apply IH. intros l1 b' l2 ->. apply (Hstep l1 b' (l2 ++ [b])).
  by rewrite <- app_assoc.
Qed.

(** ** One pair of the blob-against-blob scan *)

Section PairStep.
Context `{RT : Runtime}.

Lemma pairStep_out_of_range sc i j h :
  arr sc !! i = None ∨ arr sc !! j = None → pairStep sc (i, j) h = (sc, h).
Proof.
  unfold pairStep. intros [-> | ->]; [done|]. by destruct (arr sc !! i).
Qed.

Lemma pairStep_consumed sc i j b1 b2 h :
  arr sc !! i = Some b1 → arr sc !! j = Some b2 →
  Blob.id b1 ∈ consumed sc ∨ Blob.id b2 ∈ consumed sc →
  pairStep sc (i, j) h = (sc, h).
Proof.
  unfold pairStep. intros -> -> Hc.
  destruct Hc as [Hc | Hc]; rewrite (bool_decide_eq_true_2 _ Hc);
    [done | by rewrite orb_true_r].
Qed.

(** The body of the inner loop on two blobs that are both still alive. *)
Lemma pairStep_alive sc i j b1 b2 h :
  arr sc !! i = Some b1 → arr sc !! j = Some b2 →
  Blob.id b1 ∉ consumed sc → Blob.id b2 ∉ consumed sc →
  pairStep sc (i, j) h =
    let d := distance (Blob.pos b1) (Blob.pos b2) in
    if sameOwner b1 b2 then
      (if mayRecombine (now_at (clk_calls h)) d b1 b2
       then absorb i b1 b2 sc else sc, clock_read h)
    else
      (if mayEngulf d b1 b2 then absorb i b1 b2 sc
       else if mayEngulf d b2 b1 then absorb j b2 b1 sc
       else sc, h).
Proof.
  unfold pairStep. intros -> -> H1 H2.
  rewrite (bool_decide_eq_false_2 _ H1), (bool_decide_eq_false_2 _ H2).
  simpl. unfold sameOwner, mayRecombine, mayEngulf.
  destruct (bool_decide (Blob.playerId b1 = Blob.playerId b2)
            && bool_decide (Blob.playerId b1 ≠ "")).
  - rewrite bind_run. unfold Date_now, clock_read. simpl.
    by repeat (case_match; simpl in * ).
  - by repeat (case_match; simpl in * ).
Qed.

(** Absorbing marks an identifier that was not marked, so it is never
    the identity. *)
Lemma absorb_consumed w b other sc :
  consumed (absorb w b other sc) = consumed sc ∪ {[Blob.id other]}.
Proof. done. Qed.

Lemma absorb_changes w b other sc :
  Blob.id other ∉ consumed sc → consumed (absorb w b other sc) ≠ consumed sc.
Proof.
  rewrite absorb_consumed. intros Hn Heq. apply Hn. rewrite <- Heq.
  apply elem_of_union_r, elem_of_singleton. done.
Qed.

Lemma pairStep_result sc i j h : step_result sc i j (pairStep sc (i, j) h).1.
Proof.
  destruct (arr sc !! i) as [b1|] eqn:E1;
    [|rewrite pairStep_out_of_range by auto; constructor].
  destruct (arr sc !! j) as [b2|] eqn:E2;
    [|rewrite pairStep_out_of_range by auto; constructor].
  destruct (decide (Blob.id b1 ∈ consumed sc)) as [H1|H1];
    [rewrite (pairStep_consumed sc i j b1 b2) by auto; constructor|].
  destruct (decide (Blob.id b2 ∈ consumed sc)) as [H2|H2];
    [rewrite (pairStep_consumed sc i j b1 b2) by auto; constructor|].
  rewrite (pairStep_alive sc i j b1 b2) by done. simpl.
  repeat case_match; simpl; by econstructor.
Qed.
End PairStep.

(** ** The whole scan, and the deletion that follows it *)

Section ScanFacts.
Context `{RT : Runtime}.

Lemma pairStep_consumed_mono sc ij h :
  consumed sc ⊆ consumed (pairStep sc ij h).1.
Proof.
  destruct ij as [i j].
  destruct (pairStep_result sc i j h); rewrite ?absorb_consumed; set_solver.
Qed.

Lemma foldM_pairStep_consumed_mono ps sc h :
  consumed sc ⊆ consumed (foldM pairStep sc ps h).1.
Proof.
  apply (foldM_invariant (λ sc' _, consumed sc ⊆ consumed sc')); [|done].
  intros sc' h' ij _ Hsub. etrans; [done|]. apply pairStep_consumed_mono.
Qed.

Lemma filter_keeps_all {A} (P : A → Prop) `{∀ a, Decision (P a)}
    (l : list A) :
  (∀ a, a ∈ l → P a) → filter P l = l.
Proof.
  induction l as [|a l IH]; intros Hall; [done|].
  rewrite filter_cons_True by (apply Hall; by left).
  f_equal. apply IH. intros a' Ha'. apply Hall. by right.
Qed.

Lemma foldl_blobs_delete (ids : list string) (bs : list Blob.t) :
  foldl (λ bs i, blobs_delete i bs) bs ids
  = filter (λ b, Blob.id b ∉ ids) bs.
Proof.
  revert bs. induction ids as [|i ids IH]; intros bs; simpl.
  - symmetry. apply filter_keeps_all. intros b _. apply not_elem_of_nil.
  - rewrite IH. unfold blobs_delete. rewrite list_filter_filter.
    apply list_filter_iff. intros b. rewrite not_elem_of_cons. tauto.
Qed.

(** After the deletion the world holds the blobs of the array whose
    identifier was not marked, in their order. *)
Lemma deleteConsumed_filter sc :
  deleteConsumed sc = filter (λ b, Blob.id b ∉ consumed sc) (arr sc).
Proof.
  unfold deleteConsumed. case_bool_decide as Hsz.
  - rewrite foldl_blobs_delete. apply list_filter_iff.
    intros b. by rewrite elem_of_elements.
  - symmetry. apply filter_keeps_all. intros b _.
    assert (consumed sc ≡ ∅) as Hem by (apply size_empty_iff; lia).
    rewrite Hem. apply not_elem_of_empty.
Qed.

Lemma tick_blobs s h :
  blobs (tick s h).1.1
  = deleteConsumed (scan (feed s).1 (refill (feed s).2 h).2).1.
Proof.
  unfold tick. destruct (feed s) as [fed eaten]. simpl.
  rewrite !bind_run. done.
Qed.
End ScanFacts.

(** ** The order of the scan *)

Lemma elem_of_innerPairs n i a b :
  (a, b) ∈ innerPairs n i ↔ a = i ∧ i < b < n.
Proof.
  unfold innerPairs. rewrite list_elem_of_fmap. split.
  - intros (j & [= -> ->] & Hj%elem_of_seq). lia.
  - intros (-> & Hb). exists b. split; [done|]. apply elem_of_seq. lia.
Qed.

Lemma elem_of_pairs n i j : (i, j) ∈ pairs n ↔ i < j < n.
Proof.
  unfold pairs. rewrite list_elem_of_bind. split.
  - intros (k & (-> & Hj)%elem_of_innerPairs & _). done.
  - intros Hij. exists i. split.
    + by apply elem_of_innerPairs.
    + apply elem_of_seq. lia.
Qed.

Lemma NoDup_pairs n : NoDup (pairs n).
Proof.
  unfold pairs. apply NoDup_bind.
  - intros i1 i2 [a b] _ _ (-> & _)%elem_of_innerPairs
      (-> & _)%elem_of_innerPairs. done.
  - intros i _. unfold innerPairs. apply NoDup_fmap_2; [|apply NoDup_seq].
    by intros j1 j2 [= ->].
  - apply NoDup_seq.
Qed.

Lemma StronglySorted_app_2 {A} (R : A → A → Prop) (l1 l2 : list A) :
  StronglySorted R l1 → StronglySorted R l2 →
  (∀ a b, a ∈ l1 → b ∈ l2 → R a b) → StronglySorted R (l1 ++ l2).
Proof.
  intros H1 H2 H12. induction H1 as [|a l1 Hl1 IH Ha]; [done|].
  cbn [app]. constructor.
  - apply IH. intros x y Hx Hy. apply H12; [by right|done].
  - apply Forall_app. split; [done|].
    apply Forall_forall. intros y Hy. apply H12; [by left|done].
Qed.

Lemma StronglySorted_middle {A} (R : A → A → Prop) (l1 l2 : list A) x :
  StronglySorted R (l1 ++ x :: l2) →
  Forall (λ a, R a x) l1 ∧ Forall (R x) l2.
Proof.
  induction l1 as [|a l1 IH]; cbn [app]; intros Hs.
  - apply StronglySorted_inv in Hs as [_ Hx]. by split.
  - apply StronglySorted_inv in Hs as [Hs Ha].
    destruct (IH Hs) as [H1 H2]. split; [|done].
    constructor; [|done].
    rewrite Forall_app, Forall_cons in Ha. tauto.
Qed.

Lemma innerPairs_sorted n i : StronglySorted pair_lt (innerPairs n i).
Proof.
  unfold innerPairs. generalize (S i) (n - S i)%nat. intros a k.
  revert a. induction k as [|k IH]; intros a; cbn; constructor; [done|].
  apply Forall_forall. intros [i' j] (j' & [= -> ->] & Hj%elem_of_seq)%list_elem_of_fmap.
  right. cbn. lia.
Qed.

Lemma pairs_from_sorted n a k :
  StronglySorted pair_lt (seq a k ≫= innerPairs n).
Proof.
  revert a. induction k as [|k IH]; intros a; cbn; [constructor|].
  apply StronglySorted_app_2; [apply innerPairs_sorted|apply IH|].
  intros [i j] [i' j'] (-> & _)%elem_of_innerPairs
    (a' & (-> & _)%elem_of_innerPairs & Ha'%elem_of_seq)%list_elem_of_bind.
  left. cbn. lia.
Qed.

(** The pairs come in ascending order of [i], then of [j]. *)
Lemma pairs_sorted n : StronglySorted pair_lt (pairs n).
Proof. apply pairs_from_sorted. Qed.

(** ** Recombination and engulfment *)

Section Resolution.
Context `{RT : Runtime}.

Lemma grow_mass m b : Blob.mass (grow m b) = Blob.mass b + m.
Proof. done. Qed.

Lemma grow_radius m b : sized (grow m b).
Proof. done. Qed.

Lemma absorb_lookup_winner w b other sc :
  w < length (arr sc) →
  arr (absorb w b other sc) !! w = Some (grow (Blob.mass other) b).
Proof. intros Hw. simpl. by apply list_lookup_insert_eq. Qed.

Lemma absorb_lookup_other w b other sc k :
  k ≠ w → arr (absorb w b other sc) !! k = arr sc !! k.
Proof. intros Hk. simpl. by apply list_lookup_insert_ne. Qed.

(** A step on two blobs of different owners that consumes something. *)
Lemma engulf_cases sc i j b1 b2 h :
  arr sc !! i = Some b1 → arr sc !! j = Some b2 →
  Blob.playerId b1 ≠ Blob.playerId b2 →
  consumed (pairStep sc (i, j) h).1 ≠ consumed sc →
  let d := distance (Blob.pos b1) (Blob.pos b2) in
  ((pairStep sc (i, j) h).1 = absorb i b1 b2 sc ∧ mayEngulf d b1 b2)
  ∨ ((pairStep sc (i, j) h).1 = absorb j b2 b1 sc ∧ mayEngulf d b2 b1).
Proof.
  intros E1 E2 Hdiff.
  destruct (decide (Blob.id b1 ∈ consumed sc)) as [H1|H1];
    [by rewrite (pairStep_consumed sc i j b1 b2) by auto|].
  destruct (decide (Blob.id b2 ∈ consumed sc)) as [H2|H2];
    [by rewrite (pairStep_consumed sc i j b1 b2) by auto|].
  rewrite (pairStep_alive sc i j b1 b2) by done. simpl.
  unfold sameOwner. rewrite (bool_decide_eq_false_2 _ Hdiff). simpl.
  destruct (mayEngulf _ b1 b2); [by left|].
  destruct (mayEngulf _ b2 b1); [by right|done].
Qed.

(** C3.  At any state of the scan of a tick, when the two blobs of the
    pair have the same non-empty owner and the clock reading of that
    pair is not strictly past both of their [canRecombineTime], the step
    merges nothing: the array and the set of consumed blobs are left as
    they were, whatever the distance between the two blobs. *)
Theorem recombination_waits_for_both_deadlines sc i j b1 b2 h :
  arr sc !! i = Some b1 → arr sc !! j = Some b2 →
  Blob.playerId b1 = Blob.playerId b2 → Blob.playerId b1 ≠ "" →
  ¬ (now_at (clk_calls h) >? Blob.canRecombineTime b1
     ∧ now_at (clk_calls h) >? Blob.canRecombineTime b2) →
  (pairStep sc (i, j) h).1 = sc.
Proof.
  intros E1 E2 Hsame Hne Hnot.
  destruct (decide (Blob.id b1 ∈ consumed sc)) as [H1|H1];
    [by rewrite (pairStep_consumed sc i j b1 b2) by auto|].
  destruct (decide (Blob.id b2 ∈ consumed sc)) as [H2|H2];
    [by rewrite (pairStep_consumed sc i j b1 b2) by auto|].
  rewrite (pairStep_alive sc i j b1 b2) by done. simpl.
  unfold sameOwner.
  rewrite (bool_decide_eq_true_2 _ Hsame), (bool_decide_eq_true_2 _ Hne).
  simpl. unfold mayRecombine.
  destruct (now_at (clk_calls h) >? Blob.canRecombineTime b1);
    destruct (now_at (clk_calls h) >? Blob.canRecombineTime b2);
    simpl in *; try done.
  exfalso. by apply Hnot.
Qed.

(** C5.  For a pair of blobs with different owners, a step of the scan
    consumes a blob only in one of two ways: the first absorbs the
    second, and then the mass of the first exceeds 1.1 times the mass of
    the second and the distance is less than the radius of the first
    minus 0.5 times the radius of the second; or the second absorbs the
    first under the same two conditions with the roles exchanged.  When
    neither direction passes both tests the step changes nothing. *)
Theorem engulfment_needs_margin_and_depth sc i j b1 b2 h :
  arr sc !! i = Some b1 → arr sc !! j = Some b2 →
  Blob.playerId b1 ≠ Blob.playerId b2 →
  let d := distance (Blob.pos b1) (Blob.pos b2) in
  let sc' := (pairStep sc (i, j) h).1 in
  (consumed sc' ≠ consumed sc →
     (sc' = absorb i b1 b2 sc
      ∧ Blob.mass b1 >? Blob.mass b2 * 1.1
      ∧ d <? Blob.radius b1 - Blob.radius b2 * 0.5)
     ∨ (sc' = absorb j b2 b1 sc
        ∧ Blob.mass b2 >? Blob.mass b1 * 1.1
        ∧ d <? Blob.radius b2 - Blob.radius b1 * 0.5))
  ∧ (¬ (Blob.mass b1 >? Blob.mass b2 * 1.1
        ∧ d <? Blob.radius b1 - Blob.radius b2 * 0.5) →
     ¬ (Blob.mass b2 >? Blob.mass b1 * 1.1
        ∧ d <? Blob.radius b2 - Blob.radius b1 * 0.5) →
     sc' = sc).
Proof.
  intros E1 E2 Hdiff d sc'. split.
  - intros Hch.
    destruct (engulf_cases sc i j b1 b2 h E1 E2 Hdiff Hch)
      as [[Heq Hc]|[Heq Hc]]; [left|right];
      (split; [done|]); by apply andb_True in Hc.
  - intros Hn1 Hn2. subst sc'.
    destruct (decide (Blob.id b1 ∈ consumed sc)) as [H1|H1];
      [by rewrite (pairStep_consumed sc i j b1 b2) by auto|].
    destruct (decide (Blob.id b2 ∈ consumed sc)) as [H2|H2];
      [by rewrite (pairStep_consumed sc i j b1 b2) by auto|].
    rewrite (pairStep_alive sc i j b1 b2) by done. simpl.
    unfold sameOwner. rewrite (bool_decide_eq_false_2 _ Hdiff). simpl.
    fold d.
    destruct (mayEngulf d b1 b2) eqn:G1;
      [exfalso; apply Hn1, andb_True; by rewrite <- Is_true_true in G1|].
    destruct (mayEngulf d b2 b1) eqn:G2;
      [exfalso; apply Hn2, andb_True; by rewrite <- Is_true_true in G2|].
    done.
Qed.

(** C1.  Take any tick and any pair [(i, j)] of its blob-against-blob
    scan; [before] is the state of the scan when the pair is reached and
    [after] the state right after it.  If the two blobs have different
    owners and the pair resolves (a blob is consumed), then one of the
    two is the winner and the other the loser, the mass of the winner
    in [after] is the sum of the masses the two had in [before], and no
    blob of the world the tick leaves carries the identifier of the
    loser. *)
Theorem engulfment_conserves_mass s h ps1 i j ps2 b1 b2 :
  let fed := (feed s).1 in
  let before :=
    foldM pairStep {| arr := fed; consumed := ∅ |} ps1
          (refill (feed s).2 h).2 in
  let after := (pairStep before.1 (i, j) before.2).1 in
  pairs (length fed) = ps1 ++ (i, j) :: ps2 →
  arr before.1 !! i = Some b1 → arr before.1 !! j = Some b2 →
  Blob.playerId b1 ≠ Blob.playerId b2 →
  consumed after ≠ consumed before.1 →
  ∃ w winner loser winner',
    ((w, winner, loser) = (i, b1, b2) ∨ (w, winner, loser) = (j, b2, b1))
    ∧ arr after !! w = Some winner'
    ∧ Blob.mass winner' = Blob.mass winner + Blob.mass loser
    ∧ ∀ b, b ∈ blobs (tick s h).1.1 → Blob.id b ≠ Blob.id loser.
Proof.
  intros fed before after Hps E1 E2 Hdiff Hch.
  assert (∀ loser, Blob.id loser ∈ consumed after →
            ∀ b, b ∈ blobs (tick s h).1.1 → Blob.id b ≠ Blob.id loser)
    as Hgone.
  { intros loser Hin b Hb Heq.
    rewrite tick_blobs, deleteConsumed_filter in Hb.
    apply list_elem_of_filter in Hb as [Hnot _]. apply Hnot.
    rewrite Heq. unfold scan. fold fed. rewrite Hps, foldM_app.
    fold before. simpl. rewrite bind_run. fold after.
    by apply foldM_pairStep_consumed_mono. }
  destruct (engulf_cases _ i j b1 b2 _ E1 E2 Hdiff Hch)
    as [[Heq _]|[Heq _]]; fold after in Heq.
  - exists i, b1, b2, (grow (Blob.mass b2) b1). split_and!.
    + by left.
    + rewrite Heq. apply absorb_lookup_winner. by eapply lookup_lt_Some.
    + done.
    + apply Hgone. rewrite Heq, absorb_consumed. set_solver.
  - exists j, b2, b1, (grow (Blob.mass b1) b2). split_and!.
    + by right.
    + rewrite Heq. apply absorb_lookup_winner. by eapply lookup_lt_Some.
    + done.
    + apply Hgone. rewrite Heq, absorb_consumed. set_solver.
Qed.
End Resolution.

(** ** The food population *)

Section FoodCount.
Context `{RT : Runtime}.

Lemma eatFood_length blob fs : length (eatFood blob fs).2 ≤ length fs.
Proof.
  revert blob. induction fs as [|f fs IH]; intros blob; simpl; [done|].
  case_match.
  - etrans; [apply IH|]. lia.
  - specialize (IH blob). destruct (eatFood blob fs). simpl in *. lia.
Qed.

Lemma eatAll_length bs fs : length (eatAll bs fs).2 ≤ length fs.
Proof.
  revert fs. induction bs as [|blob bs IH]; intros fs; simpl; [done|].
  pose proof (eatFood_length blob fs) as H1.
  destruct (eatFood blob fs) as [blob' fs']. simpl in *.
  specialize (IH fs'). destruct (eatAll bs fs'). simpl in *. lia.
Qed.

Lemma refill_loop_length k fs h :
  length (refill_loop k fs h).1 = (length fs + k)%nat.
Proof.
  revert fs h. induction k as [|k IH]; intros fs h; simpl.
  - lia.
  - rewrite bind_run, IH, length_app. simpl. lia.
Qed.

(** The loop as the source writes it: test the length, push, repeat. *)
Lemma refill_unfold fs h :
  refill fs h =
    if bool_decide (length fs < FOOD_COUNT)
    then (let* f := createFood in refill (fs ++ [f])) h
    else ret fs h.
Proof.
  unfold refill. case_bool_decide as Hlt.
  - destruct (FOOD_COUNT - length fs)%nat as [|k] eqn:Hk; [lia|].
    simpl. rewrite !bind_run. f_equal. f_equal.
    rewrite length_app. simpl. lia.
  - by replace (FOOD_COUNT - length fs)%nat with 0%nat by lia.
Qed.

Lemma refill_length fs h :
  length fs ≤ FOOD_COUNT → length (refill fs h).1 = FOOD_COUNT.
Proof. intros Hle. unfold refill. rewrite refill_loop_length. lia. Qed.

Lemma tick_food s h : food (tick s h).1.1 = (refill (feed s).2 h).1.
Proof.
  unfold tick. destruct (feed s) as [fed eaten]. simpl.
  rewrite !bind_run. done.
Qed.

Lemma replicateM_length {A} n (m : M A) h :
  length (replicateM n m h).1 = n.
Proof.
  revert h. induction n as [|n IH]; intros h; simpl; [done|].
  rewrite !bind_run. simpl. by rewrite IH.
Qed.

Lemma GameServer_new_food h : length (food (GameServer_new h).1) = FOOD_COUNT.
Proof.
  unfold GameServer_new. rewrite bind_run. unfold ret. cbn [fst food].
  apply replicateM_length.
Qed.

(** C4.  A tick that starts with exactly [FOOD_COUNT] = 200 pellets ends
    with exactly 200 pellets, however many of them the blobs ate. *)
Theorem food_count_restored s h :
  length (food s) = FOOD_COUNT →
  length (food (tick s h).1.1) = 200%nat.
Proof.
  intros Hfull. rewrite tick_food. apply refill_length.
  unfold feed. etrans; [apply eatAll_length|]. lia.
Qed.
End FoodCount.

(** ** What the scan leaves alone *)

Section Frame.
Context `{RT : Runtime}.

Lemma same_but_size_refl b : same_but_size b b.
Proof. by repeat split. Qed.

Lemma same_but_size_trans b1 b2 b3 :
  same_but_size b1 b2 → same_but_size b2 b3 → same_but_size b1 b3.
Proof.
  unfold same_but_size. intros (?&?&?&?&?&?&?) (?&?&?&?&?&?&?).
  repeat split; congruence.
Qed.

Lemma same_but_size_grow m b : same_but_size b (grow m b).
Proof. by repeat split. Qed.

Lemma framed_init bs : framed bs {| arr := bs; consumed := ∅ |}.
Proof.
  split; [done|]. simpl. intros k b b' -> [= ->]. apply same_but_size_refl.
Qed.

Lemma framed_absorb bs sc w bw other :
  arr sc !! w = Some bw → framed bs sc → framed bs (absorb w bw other sc).
Proof.
  intros Hw [Hlen Hsame]. split; simpl.
  - by rewrite length_insert.
  - intros k b b' Hb Hb'. destruct (decide (k = w)) as [->|Hne].
    + rewrite list_lookup_insert_eq in Hb' by by eapply lookup_lt_Some.
      injection Hb' as <-.
      eapply same_but_size_trans; [by eapply Hsame|].
      apply same_but_size_grow.
    + rewrite list_lookup_insert_ne in Hb' by done. by eapply Hsame.
Qed.

Lemma framed_pairStep bs sc ij h :
  framed bs sc → framed bs (pairStep sc ij h).1.
Proof.
  destruct ij as [i j]. intros Hf.
  destruct (pairStep_result sc i j h); [done| |]; by apply framed_absorb.
Qed.

Lemma framed_foldM bs ps h :
  framed bs (foldM pairStep {| arr := bs; consumed := ∅ |} ps h).1.
Proof.
  apply (foldM_invariant (λ sc _, framed bs sc)); [|apply framed_init].
  intros sc h' ij _. apply framed_pairStep.
Qed.

(** One step writes at most one slot, an end of the pair. *)
Lemma pairStep_writes_one sc i j h :
  (pairStep sc (i, j) h).1 = sc
  ∨ ∃ w, (w = i ∨ w = j)
         ∧ consumed (pairStep sc (i, j) h).1 ≠ consumed sc
         ∧ ∀ k, k ≠ w → arr (pairStep sc (i, j) h).1 !! k = arr sc !! k.
Proof.
  destruct (pairStep_result sc i j h) as [|b1 b2 ? ? ? ?|b1 b2 ? ? ? ?];
    [by left|right; exists i|right; exists j];
    (split_and!; [by auto|by apply absorb_changes|]);
    intros k Hk; by apply absorb_lookup_other.
Qed.

(** A step that is not the identity absorbs the blob at one end of the
    pair, the loser, into the blob at the other end, the winner; both
    were alive. *)
Lemma pairStep_absorbs sc i j h :
  (pairStep sc (i, j) h).1 = sc
  ∨ ∃ w l bw bl,
      ((w = i ∧ l = j) ∨ (w = j ∧ l = i))
      ∧ arr sc !! w = Some bw ∧ arr sc !! l = Some bl
      ∧ (Blob.id bw ∉ consumed sc) ∧ (Blob.id bl ∉ consumed sc)
      ∧ (pairStep sc (i, j) h).1 = absorb w bw bl sc.
Proof.
  destruct (pairStep_result sc i j h) as [|b1 b2 ? ? ? ?|b1 b2 ? ? ? ?];
    [by left|right; exists i, j, b1, b2|right; exists j, i, b2, b1];
    split_and!; auto.
Qed.

(** Two slots of a framed scan hold blobs of different identifiers when
    the identifiers of the world are distinct. *)
Lemma framed_ids_differ bs sc w l bw bl :
  framed bs sc → NoDup (Blob.id <$> bs) → w ≠ l →
  arr sc !! w = Some bw → arr sc !! l = Some bl →
  Blob.id bw ≠ Blob.id bl.
Proof.
  intros [Hlen Hsame] Hnd Hwl Hw Hl Heq.
  destruct (lookup_lt_is_Some_2 bs w) as [b0 Hb0];
    [rewrite <- Hlen; by eapply lookup_lt_Some|].
  destruct (lookup_lt_is_Some_2 bs l) as [b1 Hb1];
    [rewrite <- Hlen; by eapply lookup_lt_Some|].
  destruct (Hsame w b0 bw Hb0 Hw) as [Hid0 _].
  destruct (Hsame l b1 bl Hb1 Hl) as [Hid1 _].
  apply Hwl. apply (NoDup_lookup (Blob.id <$> bs) w l (Blob.id bw)); [done|..].
  - by rewrite list_lookup_fmap, Hb0, Hid0.
  - by rewrite list_lookup_fmap, Hb1, Heq, Hid1.
Qed.

(** C10.  The blob-against-blob scan of [bs] keeps the number of slots;
    in every slot it keeps the identifier, position, velocity,
    [canRecombineTime], name, color and owner of the blob.  A step of
    the scan, at the pair [(i, j)] and on the scan [sc] that the steps
    before it left, is the identity or resolves the pair: then the two
    ends are a winner [bw] in the slot [w] and a loser [bl] in the slot
    [l], both alive before the step; the identifier that the step marks
    as consumed is the loser's, and (the identifiers of the world being
    distinct) the winner is not marked; the record of the loser is not
    written; the only slot written is the winner's, which keeps all of
    the winner but the mass, now the sum of the two masses, and the
    radius, now the radius of that mass.  And a blob that is at neither
    end of any pair that resolved is, at the end of the scan, exactly
    the blob it was. *)
Theorem scan_changes_only_winner_size bs h :
  let run := λ ps, foldM pairStep {| arr := bs; consumed := ∅ |} ps h in
  let resolved := λ ps1 ij,
    consumed (pairStep (run ps1).1 ij (run ps1).2).1
    ≠ consumed (run ps1).1 in
  let final := (scan bs h).1 in
  length (arr final) = length bs
  ∧ (∀ k b b', bs !! k = Some b → arr final !! k = Some b' →
       same_but_size b b')
  ∧ (∀ ps1 i j ps2, pairs (length bs) = ps1 ++ (i, j) :: ps2 →
       let sc := (run ps1).1 in
       let sc' := (pairStep sc (i, j) (run ps1).2).1 in
       sc' = sc
       ∨ ∃ w l bw bl,
           ((w = i ∧ l = j) ∨ (w = j ∧ l = i)) ∧ w ≠ l
           ∧ resolved ps1 (i, j)
           ∧ arr sc !! w = Some bw ∧ arr sc !! l = Some bl
           ∧ (Blob.id bw ∉ consumed sc) ∧ (Blob.id bl ∉ consumed sc)
           ∧ consumed sc' = consumed sc ∪ {[Blob.id bl]}
           ∧ (NoDup (Blob.id <$> bs) → Blob.id bw ∉ consumed sc')
           ∧ arr sc' !! l = Some bl
           ∧ (∃ bw', arr sc' !! w = Some bw'
                     ∧ same_but_size bw bw'
                     ∧ Blob.mass bw' = Blob.mass bw + Blob.mass bl
                     ∧ Blob.radius bw' = massToRadius (Blob.mass bw'))
           ∧ ∀ k, k ≠ w → arr sc' !! k = arr sc !! k)
  ∧ (∀ k,
       (∀ ps1 i j ps2, pairs (length bs) = ps1 ++ (i, j) :: ps2 →
          k = i ∨ k = j → ¬ resolved ps1 (i, j)) →
       arr final !! k = bs !! k).
Proof.
  intros run resolved final. split_and!.
  - apply (framed_foldM bs).
  - apply (framed_foldM bs).
  - intros ps1 i j ps2 Hps sc sc'.
    assert (i < j) as Hij.
    { apply (elem_of_pairs (length bs)). rewrite Hps.
      apply elem_of_app. right. by left. }
    pose proof (framed_foldM bs ps1 h) as Hframed.
    subst sc sc' resolved. cbv beta.
    fold (run ps1) in Hframed.
    set (sc := (run ps1).1) in *. set (h1 := (run ps1).2).
    destruct (pairStep_absorbs sc i j h1)
      as [Hid|(w & l & bw & bl & Hwl & Hw & Hl & Hnw & Hnl & Heq)];
      [by left|right].
    rewrite !Heq.
    assert (w ≠ l) as Hne by (destruct Hwl as [[-> ->]|[-> ->]]; lia).
    exists w, l, bw, bl. split_and!; try done.
    + by apply absorb_changes.
    + intros Hnd. rewrite absorb_consumed, not_elem_of_union.
      split; [done|]. rewrite not_elem_of_singleton.
      by apply (framed_ids_differ bs sc w l).
    + by rewrite absorb_lookup_other.
    + exists (grow (Blob.mass bl) bw). split_and!.
      * apply absorb_lookup_winner. by eapply lookup_lt_Some.
      * apply same_but_size_grow.
      * apply grow_mass.
      * apply grow_radius.
    + intros k Hk. by apply absorb_lookup_other.
  - intros k Hk. subst final. unfold scan.
    apply (foldM_unchanged (λ sc, arr sc !! k)).
    intros ps1 [i j] ps2 Hps. fold (run ps1).
    destruct (pairStep_writes_one (run ps1).1 i j (run ps1).2)
      as [->|(w & Hw & Hres & Hothers)]; [done|].
    destruct (decide (k = w)) as [->|Hne]; [|by apply Hothers].
    exfalso. by apply (Hk ps1 i j ps2).
Qed.

Lemma snapshot_pos_framed bs sc k b :
  framed bs sc → arr sc !! k = Some b → snapshot_pos bs k b = b.
Proof.
  intros [Hlen Hsame] Hb. unfold snapshot_pos.
  destruct (bs !! k) as [s0|] eqn:Hs; [|done].
  destruct (Hsame k s0 b Hs Hb) as (_ & Hpos & _).
  destruct b. simpl in *. by subst.
Qed.

Lemma pairStep_seen_snapshot_pos bs sc ij h :
  framed bs sc → pairStep_seen (snapshot_pos bs) sc ij h = pairStep sc ij h.
Proof.
  intros Hf. destruct ij as [i j]. unfold pairStep_seen, pairStep.
  destruct (arr sc !! i) as [b1|] eqn:E1; [|done].
  destruct (arr sc !! j) as [b2|] eqn:E2; [|done].
  by rewrite (snapshot_pos_framed bs sc i b1),
    (snapshot_pos_framed bs sc j b2).
Qed.

Lemma foldM_seen_snapshot_pos bs ps sc h :
  framed bs sc →
  foldM (pairStep_seen (snapshot_pos bs)) sc ps h = foldM pairStep sc ps h.
Proof.
  revert sc h. induction ps as [|ij ps IH]; intros sc h Hf; [done|].
  simpl. rewrite !bind_run, pairStep_seen_snapshot_pos by done.
  apply IH. by apply framed_pairStep.
Qed.

(** C7, as the code has it.  The scan visits the index pairs [(i, j)]
    with [i < j] below the number of blobs, all of them, in ascending
    order of [i] and then of [j]; so each of them is visited once and no
    unordered pair is evaluated twice.  Its tests read the position each
    blob had when the scan began together with the current mass and
    radius of the blob: the scan equals the scan whose tests read the
    positions from the snapshot and everything else from the array as
    the earlier steps of the same tick left it.  Step by step: the step
    at [(i, j)] runs on the scan that the steps at the pairs before
    [(i, j)] in this order left, it is that same step with the positions
    read from the snapshot, and the scan goes on from its result with the
    pairs after [(i, j)]. *)
Theorem scan_pairs_once_on_live_sizes :
  (∀ n, StronglySorted pair_lt (pairs n))
  ∧ (∀ n i j, (i, j) ∈ pairs n ↔ i < j < n)
  ∧ (∀ n, NoDup (pairs n))
  ∧ (∀ n i j, (i, j) ∈ pairs n → (j, i) ∉ pairs n)
  ∧ (∀ bs h, scan bs h = scan_seen (snapshot_pos bs) bs h)
  ∧ (∀ bs h ps1 i j ps2, pairs (length bs) = ps1 ++ (i, j) :: ps2 →
       let before := foldM pairStep {| arr := bs; consumed := ∅ |} ps1 h in
       let after := pairStep before.1 (i, j) before.2 in
       Forall (λ p, pair_lt p (i, j)) ps1
       ∧ Forall (pair_lt (i, j)) ps2
       ∧ after = pairStep_seen (snapshot_pos bs) before.1 (i, j) before.2
       ∧ scan bs h = foldM pairStep after.1 ps2 after.2).
Proof.
  split_and!.
  - apply pairs_sorted.
  - apply elem_of_pairs.
  - apply NoDup_pairs.
  - intros n i j Hij%elem_of_pairs. rewrite elem_of_pairs. lia.
  - intros bs h. unfold scan, scan_seen. symmetry.
    apply foldM_seen_snapshot_pos, framed_init.
  - intros bs h ps1 i j ps2 Hps before after.
    pose proof (pairs_sorted (length bs)) as Hsorted. rewrite Hps in Hsorted.
    apply StronglySorted_middle in Hsorted as [H1 H2].
    split_and!; [done..| |].
    + subst after. symmetry.
      apply pairStep_seen_snapshot_pos, framed_foldM.
    + unfold scan. rewrite Hps, foldM_app. cbn [foldM].
      by rewrite bind_run.
Qed.
End Frame.

(** ** Splitting *)

Section Split.
Context `{RT : Runtime}.
Variables (mousePos : Vector.t) (windowSize : WindowSize.t)
          (camera : Camera.t).

Lemma ownedFrom_snd k playerId bs :
  (ownedFrom k playerId bs).*2 = filter (ownedBy playerId) bs.
Proof.
  revert k. induction bs as [|b bs IH]; intros k; simpl; [done|].
  rewrite filter_cons. unfold ownedBy at 1.
  case_bool_decide; case_decide; try done; simpl; by rewrite IH.
Qed.

Lemma owned_length playerId bs :
  length (owned playerId bs) = playerCount playerId bs.
Proof.
  unfold owned, playerCount.
  by rewrite <- (ownedFrom_snd 0), length_fmap.
Qed.

Lemma owned_totalMass playerId bs :
  foldl (λ sum b, sum + Blob.mass b.2) 0 (owned playerId bs)
  = totalMass playerId bs.
Proof.
  unfold owned, totalMass. rewrite <- (ownedFrom_snd 0).
  generalize 0%float. generalize (ownedFrom 0 playerId bs).
  induction l as [|rb l IH]; intros acc; simpl; [done|]. apply IH.
Qed.

Lemma playerCount_insert playerId bs r b b' :
  bs !! r = Some b → Blob.playerId b' = Blob.playerId b →
  playerCount playerId (<[r := b']> bs) = playerCount playerId bs.
Proof.
  unfold playerCount. revert r.
  induction bs as [|a bs IH]; intros r Hr Hsame; [done|].
  destruct r as [|r]; simpl in *.
  - injection Hr as ->. rewrite !filter_cons.
    destruct (decide (ownedBy playerId b')) as [H1|H1],
             (decide (ownedBy playerId b)) as [H2|H2];
      unfold ownedBy in *; simpl; congruence.
  - rewrite !filter_cons. case_decide; simpl; by rewrite (IH r).
Qed.

Lemma playerCount_blobs_set playerId b bs :
  playerCount playerId (blobs_set b bs) ≤ S (playerCount playerId bs).
Proof.
  unfold playerCount. induction bs as [|a bs IH]; simpl.
  - rewrite filter_cons, filter_nil. case_decide; simpl; lia.
  - case_bool_decide; rewrite !filter_cons;
      repeat case_decide; simpl in *; lia.
Qed.

Lemma playerCount_foldl_blobs_set playerId news bs :
  playerCount playerId (foldl (λ bs b, blobs_set b bs) bs news)
  ≤ (playerCount playerId bs + length news)%nat.
Proof.
  revert bs. induction news as [|b news IH]; intros bs; simpl; [lia|].
  etrans; [apply IH|]. pose proof (playerCount_blobs_set playerId b bs). lia.
Qed.

(** One round of the loop of [playerSplit] keeps the owners of the
    stored blobs and pushes a blob only under the cap. *)
Lemma splitStep_bound playerId count maxBlobs recombineTime st r h :
  let st' := (splitStep mousePos windowSize camera count maxBlobs
                        recombineTime st r h).1 in
  (count + length st.2 ≤ maxBlobs)%nat →
  playerCount playerId st'.1 = playerCount playerId st.1
  ∧ (count + length st'.2 ≤ maxBlobs)%nat.
Proof.
  destruct st as [store newBlobs]. simpl. intros Hle. unfold splitStep.
  destruct (store !! r) as [p_blob|] eqn:Hr; [|done].
  destruct (Blob.mass p_blob >=? MIN_MASS_TO_SPLIT); simpl; [|done].
  case_bool_decide as Hlt; simpl; [|done].
  split.
  - by apply (playerCount_insert _ _ _ p_blob).
  - rewrite length_app. simpl. lia.
Qed.

Lemma splitLoop_bound playerId count maxBlobs recombineTime refs st h :
  let st' := (foldM (splitStep mousePos windowSize camera count maxBlobs
                               recombineTime) st refs h).1 in
  (count + length st.2 ≤ maxBlobs)%nat →
  playerCount playerId st'.1 = playerCount playerId st.1
  ∧ (count + length st'.2 ≤ maxBlobs)%nat.
Proof.
  simpl. intros Hle.
  apply (foldM_invariant
           (λ st' _, playerCount playerId st'.1 = playerCount playerId st.1
                     ∧ (count + length st'.2 ≤ maxBlobs)%nat));
    [|done].
  intros st1 h1 r _ [Hcount Hcap].
  destruct (splitStep_bound playerId count maxBlobs recombineTime st1 r h1
              Hcap) as [Hc1 Hc2].
  split; [congruence|done].
Qed.

(** C2.  [playerSplit] computes the cap from the sum of the masses of
    the blobs of the player at the moment of the call.  When the player
    already has that many blobs or more, the server is left as it is;
    otherwise the player has at most that many blobs afterwards. *)
Theorem split_respects_cap playerId s h :
  let cap := getMaxBlobsForMass (totalMass playerId (blobs s)) in
  let s' := (playerSplit mousePos windowSize camera playerId s h).1 in
  (cap ≤ playerCount playerId (blobs s) → s' = s)
  ∧ (playerCount playerId (blobs s) < cap →
     playerCount playerId (blobs s') ≤ cap).
Proof.
  intros cap s'. subst s'. unfold playerSplit.
  rewrite owned_totalMass, owned_length. fold cap. split; intros Hcap.
  - by rewrite bool_decide_eq_true_2.
  - rewrite bool_decide_eq_false_2 by lia.
    rewrite !bind_run. simpl.
    match goal with
    | |- context [foldM (splitStep _ _ _ ?c ?m ?rt) ?st ?refs ?h'] =>
        pose proof (splitLoop_bound playerId c m rt refs st h') as Hloop;
        destruct (foldM (splitStep mousePos windowSize camera c m rt)
                        st refs h') as [[store newBlobs] h2]
    end.
    simpl in *. destruct Hloop as [Hcount Hnew]; [lia|].
    etrans; [apply playerCount_foldl_blobs_set|]. lia.
Qed.
End Split.

(** ** Actions of a player without blobs *)

Section UnknownPlayer.
Context `{RT : Runtime}.

Lemma ownedFrom_none k playerId bs :
  (∀ b, b ∈ bs → Blob.playerId b ≠ playerId) → ownedFrom k playerId bs = [].
Proof.
  revert k. induction bs as [|b bs IH]; intros k Hnone; simpl; [done|].
  rewrite bool_decide_eq_false_2 by (apply Hnone; by left).
  apply IH. intros b' Hb'. apply Hnone. by right.
Qed.

Lemma disconnect_foldl_none playerId (l bs : list Blob.t) :
  (∀ b, b ∈ l → Blob.playerId b ≠ playerId) →
  foldl (λ bs blob,
           if bool_decide (Blob.playerId blob = playerId)
           then blobs_delete (Blob.id blob) bs else bs) bs l = bs.
Proof.
  revert bs. induction l as [|b l IH]; intros bs Hnone; simpl; [done|].
  rewrite bool_decide_eq_false_2 by (apply Hnone; by left).
  apply IH. intros b' Hb'. apply Hnone. by right.
Qed.

Lemma set_blobs_same s : set_blobs (blobs s) s = s.
Proof. by destruct s. Qed.

(** C9.  When no blob of the world belongs to [playerId], each of the
    three actions returns (the model has no exception to raise, and none
    of the three can fail in the source: they only filter and iterate)
    and leaves the blobs and the food as they were: [disconnectPlayer]
    deletes no blob, [updatePlayerInput] returns at its first test, and
    [playerSplit] finds a cap of 1 for a total mass of 0, iterates over
    no blob and adds none. *)
Theorem unknown_player_is_noop playerId mousePos windowSize camera s h :
  (∀ b, b ∈ blobs s → Blob.playerId b ≠ playerId) →
  (blobs (disconnectPlayer playerId s) = blobs s
   ∧ food (disconnectPlayer playerId s) = food s)
  ∧ (updatePlayerInput mousePos windowSize camera playerId s h).1 = s
  ∧ (playerSplit mousePos windowSize camera playerId s h).1 = s.
Proof.
  intros Hnone. split_and!.
  - simpl. by apply disconnect_foldl_none.
  - done.
  - unfold updatePlayerInput, owned. by rewrite ownedFrom_none.
  - unfold playerSplit, owned. rewrite ownedFrom_none by done. simpl.
    apply set_blobs_same.
Qed.
End UnknownPlayer.

(** ** The radius follows the mass *)

Section Radius.
Context `{RT : Runtime}.

Lemma current_filter (P : Blob.t → Prop) `{∀ b, Decision (P b)} bs :
  radii_current bs → radii_current (filter P bs).
Proof.
  unfold radii_current. rewrite !Forall_forall. intros Hall b Hb.
  apply list_elem_of_filter in Hb as [_ Hb]. by apply Hall.
Qed.

Lemma current_moveBlob bs : radii_current bs → radii_current (moveBlob <$> bs).
Proof.
  unfold radii_current. rewrite Forall_fmap. intros Hall.
  eapply Forall_impl; [done|]. by intros b.
Qed.

Lemma sized_eatFood blob fs : sized blob → sized (eatFood blob fs).1.
Proof.
  revert blob. induction fs as [|f fs IH]; intros blob Hb; simpl; [done|].
  case_match.
  - apply IH, grow_radius.
  - specialize (IH blob Hb). by destruct (eatFood blob fs).
Qed.

Lemma current_eatAll bs fs : radii_current bs → radii_current (eatAll bs fs).1.
Proof.
  unfold radii_current. revert fs.
  induction bs as [|blob bs IH]; intros fs Hall; simpl; [done|].
  apply Forall_cons in Hall as [Hb Hbs].
  pose proof (sized_eatFood blob fs Hb) as Hb'.
  destruct (eatFood blob fs) as [blob' fs'].
  specialize (IH fs' Hbs). destruct (eatAll bs fs'). simpl in *.
  by constructor.
Qed.

Lemma current_feed s : radii_current (blobs s) → radii_current (feed s).1.
Proof. intros Hs. by apply current_eatAll, current_moveBlob. Qed.

Lemma current_pairStep sc ij h :
  radii_current (arr sc) → radii_current (arr (pairStep sc ij h).1).
Proof.
  destruct ij as [i j]. intros Hf.
  destruct (pairStep_result sc i j h); [done| |];
    simpl; apply Forall_insert; by try apply grow_radius.
Qed.

Lemma current_scan bs h : radii_current bs → radii_current (arr (scan bs h).1).
Proof.
  intros Hf. unfold scan.
  apply (foldM_invariant (λ sc _, radii_current (arr sc))); [|done].
  intros sc h' ij _. apply current_pairStep.
Qed.

Lemma current_tick s h : radii_current (blobs s) → radii_current (blobs (tick s h).1.1).
Proof.
  intros Hs. rewrite tick_blobs, deleteConsumed_filter.
  by apply current_filter, current_scan, current_feed.
Qed.

Lemma current_blobs_set b bs : sized b → radii_current bs → radii_current (blobs_set b bs).
Proof.
  unfold radii_current. intros Hb.
  induction bs as [|a bs IH]; intros Hall; simpl.
  - by constructor.
  - apply Forall_cons in Hall as [Ha Hbs].
    case_bool_decide; constructor; auto.
Qed.

Lemma sized_createBlob playerId name h :
  sized (createBlob playerId name h).1.
Proof. unfold createBlob. rewrite !bind_run. done. Qed.

Lemma current_connectPlayer name s h :
  radii_current (blobs s) → radii_current (blobs (connectPlayer name s h).1.1.1).
Proof.
  intros Hs. unfold connectPlayer. rewrite !bind_run.
  cbn [fst snd ret blobs].
  apply current_blobs_set; [apply sized_createBlob | done].
Qed.

Lemma current_disconnect_foldl playerId (l bs : list Blob.t) :
  radii_current bs →
  radii_current (foldl (λ bs blob,
                  if bool_decide (Blob.playerId blob = playerId)
                  then blobs_delete (Blob.id blob) bs else bs) bs l).
Proof.
  revert bs. induction l as [|b l IH]; intros bs Hbs; simpl; [done|].
  apply IH. case_bool_decide; [|done]. by apply current_filter.
Qed.

Lemma current_disconnectPlayer playerId s :
  radii_current (blobs s) → radii_current (blobs (disconnectPlayer playerId s)).
Proof. apply current_disconnect_foldl. Qed.

Lemma current_steer count r0 over mouseInWorld store ir h :
  radii_current store → radii_current (steer count r0 over mouseInWorld store ir h).1.
Proof.
  intros Hs. destruct ir as [index r]. unfold steer.
  destruct (store !! r0) as [mainBlob|]; [|done].
  destruct (store !! r) as [p_blob|] eqn:Hr; [|done].
  rewrite bind_run.
  match goal with |- context [if ?c then _ else _] => destruct c end;
    [|done].
  cbn [fst ret]. apply Forall_insert; [done|].
  by apply (Forall_lookup_1 _ _ _ _ Hs Hr).
Qed.

Lemma current_updatePlayerInput mousePos windowSize camera playerId s h :
  radii_current (blobs s) →
  radii_current (blobs (updatePlayerInput mousePos windowSize camera playerId s h).1).
Proof.
  intros Hs. unfold updatePlayerInput.
  case_bool_decide; [done|].
  destruct (js_sort _ _) as [|[r0 mainBlob] rest]; [done|].
  rewrite bind_run. cbn [fst ret set_blobs blobs].
  apply (foldM_invariant (λ store _, radii_current store)); [|done].
  intros store h' ir _. apply current_steer.
Qed.

Lemma current_splitStep mousePos windowSize camera count maxBlobs
    recombineTime st r h :
  let st' := (splitStep mousePos windowSize camera count maxBlobs
                        recombineTime st r h).1 in
  radii_current st.1 ∧ radii_current st.2 → radii_current st'.1 ∧ radii_current st'.2.
Proof.
  destruct st as [store newBlobs]. cbn [fst snd]. intros [Hs Hn].
  unfold splitStep.
  destruct (store !! r) as [p_blob|] eqn:Hr; [|done].
  destruct (_ && _); [|done].
  rewrite !bind_run. cbn [fst snd ret]. split.
  - by apply Forall_insert.
  - apply Forall_app. split; [done|]. by repeat constructor.
Qed.

Lemma current_foldl_blobs_set news bs :
  radii_current news → radii_current bs → radii_current (foldl (λ bs b, blobs_set b bs) bs news).
Proof.
  revert bs. induction news as [|b news IH]; intros bs Hn Hbs; [done|].
  apply Forall_cons in Hn as [Hb Hn]. simpl.
  apply IH; [done|]. by apply current_blobs_set.
Qed.

Lemma current_playerSplit mousePos windowSize camera playerId s h :
  radii_current (blobs s) →
  radii_current (blobs (playerSplit mousePos windowSize camera playerId s h).1).
Proof.
  intros Hs. unfold playerSplit. case_bool_decide; [done|].
  rewrite !bind_run.
  match goal with
  | |- context [foldM ?f ?st ?refs ?h'] =>
      pose proof (foldM_invariant (λ st' _, radii_current st'.1 ∧ radii_current st'.2)
                    f refs st h') as Hloop;
      destruct (foldM f st refs h') as [[store newBlobs] h2]
  end.
  cbn [fst snd ret set_blobs blobs] in *.
  destruct Hloop as [Hstore Hnew].
  - intros st1 h1 r _. apply current_splitStep.
  - split; [done|constructor].
  - by apply current_foldl_blobs_set.
Qed.

Lemma current_perform a s h :
  radii_current (blobs s) → radii_current (blobs (perform a s h).1).
Proof.
  intros Hs. destruct a; unfold perform; rewrite ?bind_run; cbn [fst ret].
  - by apply current_tick.
  - by apply current_connectPlayer.
  - by apply current_disconnectPlayer.
  - by apply current_updatePlayerInput.
  - by apply current_playerSplit.
  - unfold addMessage. by rewrite !bind_run.
Qed.

Lemma current_run acts h : radii_current (blobs (run acts h).1).
Proof.
  unfold run. rewrite bind_run.
  apply (foldM_invariant (λ s _, radii_current (blobs s))).
  - intros s h' a _. apply current_perform.
  - unfold GameServer_new. rewrite bind_run. constructor.
Qed.

(** C6.  The stored radius is the radius of the stored mass,
    [sqrt(mass / π) * 10], in every blob of the world: the property
    survives the eating of pellets, every step of the blob-against-blob
    scan (recombination and engulfment), and every action of the server
    (tick, join, leave, steering, split, chat); and it holds in every
    state the server reaches from its construction. *)
Theorem radius_never_stale :
  (∀ s, radii_current (blobs s) → radii_current (feed s).1)
  ∧ (∀ sc ij h, radii_current (arr sc) → radii_current (arr (pairStep sc ij h).1))
  ∧ (∀ a s h, radii_current (blobs s) → radii_current (blobs (perform a s h).1))
  ∧ (∀ acts h, radii_current (blobs (run acts h).1)).
Proof.
  split_and!.
  - apply current_feed.
  - apply current_pairStep.
  - apply current_perform.
  - apply current_run.
Qed.
End Radius.

(** ** Sorting with a consistent comparator *)

Section SortFacts.
Context {A : Type} (cmp : A → A → float).

Lemma js_insert_perm a l : js_insert cmp a l ≡ₚ a :: l.
Proof.
  induction l as [|b l IH]; simpl; [done|].
  case_match; [|done]. rewrite IH. apply Permutation_swap.
Qed.

Lemma js_sort_perm l : js_sort cmp l ≡ₚ l.
Proof.
  induction l as [|a l IH]; simpl; [done|].
  by rewrite js_insert_perm, IH.
Qed.

Lemma consistent_spec l a b c :
  consistent cmp l → a ∈ l → b ∈ l → c ∈ l → consistent_at cmp a b c.
Proof.
  unfold consistent. intros Hall Ha Hb Hc.
  apply Is_true_true in Hall.
  rewrite forallb_forall in Hall.
  specialize (Hall a (proj1 (list_elem_of_In _ _) Ha)).
  rewrite forallb_forall in Hall.
  specialize (Hall b (proj1 (list_elem_of_In _ _) Hb)).
  rewrite forallb_forall in Hall.
  specialize (Hall c (proj1 (list_elem_of_In _ _) Hc)).
  by apply Is_true_true.
Qed.

Lemma cf_trichotomy a b : cf_gt cmp a b ∨ cf_lt cmp a b ∨ cf_eq cmp a b.
Proof.
  unfold cf_eq. destruct (cf_gt cmp a b), (cf_lt cmp a b); simpl; tauto.
Qed.

Lemma cf_eq_not_gt a b : cf_eq cmp a b → ¬ cf_gt cmp a b.
Proof. unfold cf_eq. destruct (cf_gt cmp a b); simpl; tauto. Qed.

Lemma cf_eq_not_lt a b : cf_eq cmp a b → ¬ cf_lt cmp a b.
Proof.
  unfold cf_eq. destruct (cf_gt cmp a b), (cf_lt cmp a b); simpl; tauto.
Qed.

Lemma implb_elim (x y : bool) : implb x y → x → y.
Proof. destruct x, y; simpl; tauto. Qed.

Section Consistent.
Variable l : list A.
Hypothesis Hcons : consistent cmp l.

Lemma cf_eq_refl a : a ∈ l → cf_eq cmp a a.
Proof.
  intros Ha. pose proof (consistent_spec l a a a Hcons Ha Ha Ha) as H.
  unfold consistent_at in H. rewrite !andb_True in H. tauto.
Qed.

Lemma cf_eq_sym a b : a ∈ l → b ∈ l → cf_eq cmp a b → cf_eq cmp b a.
Proof.
  intros Ha Hb. pose proof (consistent_spec l a b a Hcons Ha Hb Ha) as H.
  unfold consistent_at in H. rewrite !andb_True in H.
  destruct H as [[[[_ H] _] _] _]. by apply implb_elim.
Qed.

Lemma cf_eq_trans a b c :
  a ∈ l → b ∈ l → c ∈ l →
  cf_eq cmp a b → cf_eq cmp b c → cf_eq cmp a c.
Proof.
  intros Ha Hb Hc H1 H2.
  pose proof (consistent_spec l a b c Hcons Ha Hb Hc) as H.
  unfold consistent_at in H. rewrite !andb_True in H.
  destruct H as [[[_ H] _] _]. apply (implb_elim _ _ H).
  by apply andb_True.
Qed.

Lemma cf_lt_trans a b c :
  a ∈ l → b ∈ l → c ∈ l →
  cf_lt cmp a b → cf_lt cmp b c → cf_lt cmp a c.
Proof.
  intros Ha Hb Hc H1 H2.
  pose proof (consistent_spec l a b c Hcons Ha Hb Hc) as H.
  unfold consistent_at in H. rewrite !andb_True in H.
  destruct H as [[_ H] _]. apply (implb_elim _ _ H).
  by apply andb_True.
Qed.

Lemma cf_gt_trans a b c :
  a ∈ l → b ∈ l → c ∈ l →
  cf_gt cmp a b → cf_gt cmp b c → cf_gt cmp a c.
Proof.
  intros Ha Hb Hc H1 H2.
  pose proof (consistent_spec l a b c Hcons Ha Hb Hc) as H.
  unfold consistent_at in H. rewrite !andb_True in H.
  destruct H as [_ H]. apply (implb_elim _ _ H).
  by apply andb_True.
Qed.

Lemma cf_gt_asym a b : a ∈ l → b ∈ l → cf_gt cmp a b → ¬ cf_gt cmp b a.
Proof.
  intros Ha Hb Hab Hba.
  apply (cf_eq_not_gt a a); [by apply cf_eq_refl|].
  by apply (cf_gt_trans a b a).
Qed.

(** What goes after neither of two values in a row goes after none. *)
Lemma cf_not_gt_trans a b c :
  a ∈ l → b ∈ l → c ∈ l →
  ¬ cf_gt cmp a b → ¬ cf_gt cmp b c → ¬ cf_gt cmp a c.
Proof.
  intros Ha Hb Hc Hab Hbc Hac.
  assert (cf_lt cmp c a) as Hca.
  { destruct (cf_trichotomy c a) as [Hgt|[Hlt|Heq]]; [|done|].
    - exfalso. by apply (cf_gt_asym a c).
    - exfalso. apply (cf_eq_not_gt a c); [|done]. by apply cf_eq_sym. }
  destruct (cf_trichotomy a b) as [?|[Hlt|Heq]]; [done| |];
    destruct (cf_trichotomy b c) as [?|[Hlt'|Heq']]; try done.
  - apply (cf_eq_not_lt c c); [by apply cf_eq_refl|].
    apply (cf_lt_trans c b c); [done..| |done].
    by apply (cf_lt_trans c a b).
  - apply (cf_eq_not_lt c b); [by apply cf_eq_sym|].
    by apply (cf_lt_trans c a b).
  - apply (cf_eq_not_lt b a); [by apply cf_eq_sym|].
    by apply (cf_lt_trans b c a).
  - apply (cf_eq_not_gt a c); [|done]. by apply (cf_eq_trans a b c).
Qed.

(** Two values of which one goes after the other are not both tied
    with a third. *)
Lemma cf_gt_not_tied e a b :
  e ∈ l → a ∈ l → b ∈ l →
  cf_gt cmp a b → cf_eq cmp e a → cf_eq cmp e b → False.
Proof.
  intros He Ha Hb Hgt H1 H2.
  apply (cf_eq_not_gt a b); [|done].
  apply (cf_eq_trans a e b); [done..| |done]. by apply cf_eq_sym.
Qed.

Lemma js_insert_ordered a l0 :
  a ∈ l → l0 ⊆ l → ordered cmp l0 → ordered cmp (js_insert cmp a l0).
Proof.
  unfold ordered. intros Ha.
  induction l0 as [|b l0 IH]; intros Hsub Hord; simpl.
  - by repeat constructor.
  - apply StronglySorted_cons in Hord as [Hb Hord].
    assert (b ∈ l) as Hbl by (apply Hsub; by left).
    assert (l0 ⊆ l) as Hsub' by (intros z Hz; apply Hsub; by right).
    destruct (cmp a b >? 0) eqn:Hgt.
    + apply StronglySorted_cons. split; [|by apply IH].
      rewrite Forall_forall. intros z Hz.
      rewrite js_insert_perm in Hz.
      apply elem_of_cons in Hz as [->|Hz].
      * apply cf_gt_asym; [done..|]. unfold cf_gt. by rewrite Hgt.
      * rewrite Forall_forall in Hb. by apply Hb.
    + apply StronglySorted_cons. split.
      * assert (¬ cf_gt cmp a b) as Hab
          by (unfold cf_gt; rewrite Hgt; by intros []).
        constructor; [done|].
        rewrite Forall_forall in Hb |- *. intros z Hz.
        apply (cf_not_gt_trans a b z); auto.
      * by apply StronglySorted_cons.
Qed.

Lemma js_sort_ordered l0 : l0 ⊆ l → ordered cmp (js_sort cmp l0).
Proof.
  induction l0 as [|a l0 IH]; intros Hsub; simpl.
  - constructor.
  - apply js_insert_ordered.
    + apply Hsub. by left.
    + intros z Hz. rewrite js_sort_perm in Hz. apply Hsub. by right.
    + apply IH. intros z Hz. apply Hsub. by right.
Qed.

(** The values tied with [e] come out in the order they went in. *)
Lemma js_insert_stable e a l0 :
  e ∈ l → a ∈ l → l0 ⊆ l →
  filter (λ z, cf_eq cmp e z) (js_insert cmp a l0)
  = filter (λ z, cf_eq cmp e z) (a :: l0).
Proof.
  intros He Ha. induction l0 as [|b l0 IH]; intros Hsub; simpl; [done|].
  assert (b ∈ l) as Hbl by (apply Hsub; by left).
  assert (l0 ⊆ l) as Hsub' by (intros z Hz; apply Hsub; by right).
  destruct (cmp a b >? 0) eqn:Hgt; [|done].
  rewrite (filter_cons _ b), IH by done.
  rewrite !filter_cons.
  destruct (decide (cf_eq cmp e a)) as [Hea|Hea],
           (decide (cf_eq cmp e b)) as [Heb|Heb]; try done.
  exfalso. apply (cf_gt_not_tied e a b); try done.
  unfold cf_gt. by rewrite Hgt.
Qed.

Lemma js_sort_stable e l0 :
  e ∈ l → l0 ⊆ l →
  filter (λ z, cf_eq cmp e z) (js_sort cmp l0)
  = filter (λ z, cf_eq cmp e z) l0.
Proof.
  intros He. induction l0 as [|a l0 IH]; intros Hsub; simpl; [done|].
  assert (a ∈ l) as Hal by (apply Hsub; by left).
  assert (l0 ⊆ l) as Hsub' by (intros z Hz; apply Hsub; by right).
  rewrite js_insert_stable; [|done..|].
  - rewrite !filter_cons, IH by done. done.
  - intros z Hz. rewrite js_sort_perm in Hz. by apply Hsub'.
Qed.
End Consistent.
End SortFacts.

Lemma filter_ext_in {A} (P Q : A → Prop) `{∀ a, Decision (P a)}
    `{∀ a, Decision (Q a)} (l : list A) :
  (∀ a, a ∈ l → P a ↔ Q a) → filter P l = filter Q l.
Proof.
  induction l as [|a l IH]; intros Hiff; [done|].
  rewrite !filter_cons.
  assert (P a ↔ Q a) as Ha by (apply Hiff; by left).
  rewrite IH by (intros a' Ha'; apply Hiff; by right).
  destruct (decide (P a)), (decide (Q a)); tauto.
Qed.

(** ** The leaderboard *)

Section OrderedMapFacts.
Context {V : Type}.
Implicit Types (m : list (string * V)).

Lemma omap_get_set k v m k' :
  omap_get k' (omap_set k v m)
  = if decide (k = k') then Some v else omap_get k' m.
Proof.
  induction m as [|[k0 v0] m IH]; simpl.
  - destruct (decide (k = k')) as [->|Hne].
    + by rewrite bool_decide_eq_true_2.
    + by rewrite bool_decide_eq_false_2.
  - destruct (decide (k0 = k)) as [->|H0].
    + rewrite (bool_decide_eq_true_2 (k = k)) by done. simpl.
      destruct (decide (k = k')) as [->|Hne].
      * by rewrite bool_decide_eq_true_2.
      * by rewrite bool_decide_eq_false_2.
    + rewrite (bool_decide_eq_false_2 (k0 = k)) by done. simpl.
      rewrite IH. destruct (decide (k = k')) as [->|Hne]; [|done].
      by rewrite bool_decide_eq_false_2.
Qed.

Lemma omap_set_keys_old k v m : k ∈ m.*1 → (omap_set k v m).*1 = m.*1.
Proof.
  induction m as [|[k0 v0] m IH]; simpl; intros Hin.
  - by apply elem_of_nil in Hin.
  - case_bool_decide as H0; simpl; [by subst|].
    f_equal. apply IH. apply elem_of_cons in Hin as [?|?]; [by subst|done].
Qed.

Lemma omap_set_keys_new k v m :
  k ∉ m.*1 → (omap_set k v m).*1 = m.*1 ++ [k].
Proof.
  induction m as [|[k0 v0] m IH]; simpl; intros Hin; [done|].
  apply not_elem_of_cons in Hin as [Hne Hin].
  rewrite bool_decide_eq_false_2 by done. simpl. f_equal. by apply IH.
Qed.

Lemma omap_set_keys k v m :
  (omap_set k v m).*1 = if decide (k ∈ m.*1) then m.*1 else m.*1 ++ [k].
Proof.
  case_decide; [by apply omap_set_keys_old | by apply omap_set_keys_new].
Qed.

Lemma omap_get_elem_of k v m :
  NoDup m.*1 → (k, v) ∈ m → omap_get k m = Some v.
Proof.
  induction m as [|[k0 v0] m IH]; simpl; intros Hnd Hin.
  - by apply elem_of_nil in Hin.
  - apply NoDup_cons in Hnd as [Hk0 Hnd].
    apply elem_of_cons in Hin as [[= -> ->]|Hin].
    + by rewrite bool_decide_eq_true_2.
    + rewrite bool_decide_eq_false_2; [by apply IH|].
      intros ->. apply Hk0. apply list_elem_of_fmap. by exists (k, v).
Qed.
End OrderedMapFacts.

Lemma firstSeen_snoc keys k :
  firstSeen (keys ++ [k])
  = if decide (k ∈ firstSeen keys) then firstSeen keys
    else firstSeen keys ++ [k].
Proof. unfold firstSeen. by rewrite foldl_app. Qed.

Lemma NoDup_firstSeen keys : NoDup (firstSeen keys).
Proof.
  induction keys as [|k keys IH] using rev_ind; [constructor|].
  rewrite firstSeen_snoc. case_decide as Hin; [done|].
  apply NoDup_app. split_and!; [done| |apply NoDup_singleton].
  intros z Hz ->%list_elem_of_singleton. done.
Qed.

Section Leaderboard.
Context `{RT : Runtime}.

Lemma playerMasses_snoc bs b :
  playerMasses (bs ++ [b]) = addMass (playerMasses bs) b.
Proof. unfold playerMasses. by rewrite foldl_app. Qed.

Lemma playerMasses_keys bs :
  (playerMasses bs).*1 = firstSeen (Blob.playerId <$> bs).
Proof.
  induction bs as [|b bs IH] using rev_ind; [done|].
  rewrite playerMasses_snoc, fmap_app.
  change (Blob.playerId <$> [b]) with [Blob.playerId b].
  rewrite firstSeen_snoc. unfold addMass. by rewrite omap_set_keys, IH.
Qed.

Lemma summed_snoc playerId bs b :
  summed playerId (bs ++ [b])
  = if decide (Blob.playerId b = playerId)
    then Some (or_zero (summed playerId bs) + Blob.mass b)
    else summed playerId bs.
Proof.
  unfold summed. rewrite filter_app, foldl_app.
  rewrite filter_cons, filter_nil.
  destruct (decide (ownedBy playerId b)) as [Hb|Hb]; unfold ownedBy in Hb.
  - by rewrite decide_True.
  - by rewrite decide_False.
Qed.

(** The total stored for a player is the running total of that player. *)
Lemma playerMasses_get playerId bs :
  omap_get playerId (playerMasses bs) = summed playerId bs.
Proof.
  induction bs as [|b bs IH] using rev_ind; [done|].
  rewrite playerMasses_snoc, summed_snoc. unfold addMass.
  rewrite omap_get_set.
  destruct (decide (Blob.playerId b = playerId)) as [->|Hne]; [|done].
  by rewrite IH.
Qed.

Lemma playerMasses_elem_of k v bs :
  (k, v) ∈ playerMasses bs → summed k bs = Some v.
Proof.
  intros Hin. rewrite <- playerMasses_get. apply omap_get_elem_of; [|done].
  rewrite playerMasses_keys. apply NoDup_firstSeen.
Qed.

(** With running totals that [||] keeps, the total is the plain sum. *)
Lemma steady_foldl acc bs :
  truthy acc → forallb truthy (runningTotals acc bs) →
  foldl (λ a b, Some (or_zero a + Blob.mass b)) (Some acc) bs
  = Some (foldl (λ sum b, sum + Blob.mass b) acc bs).
Proof.
  revert acc. induction bs as [|b bs IH]; intros acc Hacc Hall; [done|].
  simpl in *. apply andb_True in Hall as [H1 H2].
  unfold truthy in Hacc.
  destruct (is_nan acc || is_zero acc); [done|]. by apply IH.
Qed.

Lemma summed_steady playerId bs :
  steady playerId bs → playerCount playerId bs ≠ 0%nat →
  summed playerId bs = Some (totalMass playerId bs).
Proof.
  unfold steady, summed, totalMass, playerCount.
  destruct (filter (ownedBy playerId) bs) as [|b l]; [done|].
  simpl. intros Hall _. apply andb_True in Hall as [H1 H2].
  by apply steady_foldl.
Qed.

(** *** Totals of positive masses *)

Lemma truthy_pos a : 0 <? a → truthy a.
Proof.
  intros Ha. unfold truthy.
  pose proof (FloatArith.pos_not_nan a Ha).
  pose proof (FloatArith.pos_not_zero a Ha).
  destruct (is_nan a), (is_zero a); cbn in *; tauto.
Qed.

Lemma sum_pos acc l :
  0 <? acc → Forall (λ b, 0 <? Blob.mass b) l →
  0 <? foldl (λ sum b, sum + Blob.mass b) acc l.
Proof.
  revert acc. induction l as [|b l IH]; intros acc Hacc Hall; [done|].
  apply Forall_cons in Hall as [Hb Hall]. cbn [foldl]. apply IH; [|done].
  apply FloatArith.add_pos; [|by apply FloatArith.pos_not_neg|done].
  by apply FloatArith.pos_not_nan.
Qed.

Lemma runningTotals_pos acc l :
  0 <? acc → Forall (λ b, 0 <? Blob.mass b) l →
  forallb truthy (runningTotals acc l).
Proof.
  revert acc. induction l as [|b l IH]; intros acc Hacc Hall; [done|].
  apply Forall_cons in Hall as [Hb Hall]. cbn [runningTotals forallb].
  assert (0 <? acc + Blob.mass b) as Hsum.
  { apply FloatArith.add_pos; [|by apply FloatArith.pos_not_neg|done].
    by apply FloatArith.pos_not_nan. }
  apply andb_True. split; [by apply truthy_pos|by apply IH].
Qed.

Lemma zero_add_pos m : 0 <? m → 0 <? 0 + m.
Proof.
  intros Hm. apply FloatArith.add_pos; [| |done]; by vm_compute.
Qed.

(** A player with a blob, all blobs of positive mass: the running totals
    are kept by [||], and the total is positive. *)
Lemma positive_masses_steady playerId bs :
  Forall (λ b, 0 <? Blob.mass b) bs → playerCount playerId bs ≠ 0%nat →
  steady playerId bs ∧ 0 <? totalMass playerId bs.
Proof.
  intros Hall. unfold steady, totalMass, playerCount.
  assert (Forall (λ b, 0 <? Blob.mass b) (filter (ownedBy playerId) bs))
    as Hown.
  { rewrite Forall_forall in Hall |- *.
    intros b [_ Hb]%list_elem_of_filter. by apply Hall. }
  destruct (filter (ownedBy playerId) bs) as [|b l]; [done|]. intros _.
  apply Forall_cons in Hown as [Hb Hl].
  pose proof (zero_add_pos _ Hb) as H0.
  cbn [runningTotals forallb foldl]. split.
  - apply andb_True. split; [by apply truthy_pos|by apply runningTotals_pos].
  - by apply sum_pos.
Qed.

(** *** The comparator on floored masses that are numbers *)

Lemma byMassDesc_gt a b :
  is_number a → is_number b →
  cf_gt byMassDesc a b
  = (LeaderboardEntry.mass a <? LeaderboardEntry.mass b).
Proof. intros Ha Hb. unfold cf_gt, byMassDesc. by apply FloatArith.sub_gtb. Qed.

Lemma byMassDesc_lt a b :
  is_number a → is_number b →
  cf_lt byMassDesc a b
  = (LeaderboardEntry.mass b <? LeaderboardEntry.mass a).
Proof. intros Ha Hb. unfold cf_lt, byMassDesc. by apply FloatArith.sub_ltb. Qed.

Lemma consistent_at_byMassDesc a b c :
  is_number a → is_number b → is_number c →
  consistent_at byMassDesc a b c.
Proof.
  intros Ha Hb Hc. unfold consistent_at, cf_eq.
  rewrite !byMassDesc_gt, !byMassDesc_lt by done.
  set (x := LeaderboardEntry.mass a). set (y := LeaderboardEntry.mass b).
  set (z := LeaderboardEntry.mass c).
  pose proof (FloatArith.ltb_irrefl x) as Hirr.
  pose proof (FloatArith.ltb_trans x y z) as Hup.
  pose proof (FloatArith.ltb_trans z y x) as Hdown.
  pose proof (FloatArith.tie_trans x y z Ha Hb Hc) as Htie.
  destruct (x <? x), (x <? y), (y <? x), (y <? z), (z <? y), (x <? z),
    (z <? x); cbn in *; tauto.
Qed.

(** The comparator [b.mass - a.mass] is consistent on entries none of
    which has [NaN] for its floored mass. *)
Lemma consistent_byMassDesc l :
  Forall is_number l → consistent byMassDesc l.
Proof.
  intros Hall. unfold consistent.
  apply forallb_True, Forall_forall. intros a Ha.
  apply forallb_True, Forall_forall. intros b Hb.
  apply forallb_True, Forall_forall. intros c Hc.
  rewrite Forall_forall in Hall. apply consistent_at_byMassDesc; auto.
Qed.

Lemma ordered_descending l :
  Forall is_number l → ordered byMassDesc l →
  StronglySorted
    (λ a z, LeaderboardEntry.mass z <=? LeaderboardEntry.mass a) l.
Proof.
  intros Hall Hord. induction Hord as [|a l Hl IH Ha]; [constructor|].
  apply Forall_cons in Hall as [Hna Hall]. constructor; [by apply IH|].
  rewrite Forall_forall in Ha, Hall |- *. intros z Hz.
  specialize (Ha z Hz). rewrite byMassDesc_gt in Ha by auto.
  apply FloatOrder.not_ltb_leb; [done|by apply Hall|done].
Qed.

Lemma tied_sameMass e l :
  is_number e → Forall is_number l →
  filter (λ z, cf_eq byMassDesc e z) l
  = filter (λ z, LeaderboardEntry.mass z =? LeaderboardEntry.mass e) l.
Proof.
  intros He Hall. apply filter_ext_in. intros z Hz.
  rewrite Forall_forall in Hall. specialize (Hall z Hz).
  unfold cf_eq. rewrite byMassDesc_gt, byMassDesc_lt by done.
  rewrite (FloatArith.eqb_tie _ _ Hall He).
  by rewrite andb_comm.
Qed.

(** C8, as the code has it.  The leaderboard has one entry for each
    player that owns a live blob, in the order in which the blobs show
    the players.  The mass of the entry is [Math.floor] of the total that
    [pushState] keeps for the player, to which every blob of the player
    adds its mass (a total that is [NaN] or zero counting as zero); when
    all the masses of the world are positive, and whenever no running
    total is [NaN] or zero, this is the plain left-to-right sum of the
    masses of the blobs of the player, and it is positive.  The list
    published is the first 10 entries of the entries sorted, all of them
    when there are fewer.  When no floored mass is [NaN], the entries
    sorted are in descending order of the floored mass, every entry at
    least as heavy as all the entries after it, and the entries of one
    floored mass stand in the order of their first appearance; so the
    entries cut are the last of that order. *)
Theorem leaderboard_ranks_floored_totals names bs :
  let entries := toEntry names <$> playerMasses bs in
  let sorted := js_sort byMassDesc entries in
  let board := leaderboardOf names bs in
  let sameMass := λ e z,
    LeaderboardEntry.mass z =? LeaderboardEntry.mass e in
  LeaderboardEntry.playerId <$> entries = firstSeen (Blob.playerId <$> bs)
  ∧ (∀ e, e ∈ entries →
       ∃ total, summed (LeaderboardEntry.playerId e) bs = Some total
                ∧ LeaderboardEntry.mass e = Math_floor total
                ∧ (steady (LeaderboardEntry.playerId e) bs →
                   total = totalMass (LeaderboardEntry.playerId e) bs))
  ∧ (Forall (λ b, 0 <? Blob.mass b) bs →
     ∀ e, e ∈ entries →
       LeaderboardEntry.mass e
       = Math_floor (totalMass (LeaderboardEntry.playerId e) bs)
       ∧ 0 <? totalMass (LeaderboardEntry.playerId e) bs)
  ∧ sorted ≡ₚ entries
  ∧ board = take 10 sorted
  ∧ length board = (10 `min` length entries)%nat
  ∧ (Forall (λ e, ¬ is_nan (LeaderboardEntry.mass e)) entries →
     StronglySorted
       (λ a z, LeaderboardEntry.mass z <=? LeaderboardEntry.mass a) sorted
     ∧ ∀ e, e ∈ entries →
         filter (sameMass e) sorted = filter (sameMass e) entries).
Proof.
  intros entries sorted board sameMass.
  assert (∀ e, e ∈ entries →
            playerCount (LeaderboardEntry.playerId e) bs ≠ 0%nat
            ∧ ∃ total,
                summed (LeaderboardEntry.playerId e) bs = Some total
                ∧ LeaderboardEntry.mass e = Math_floor total) as Hentry.
  { intros e (kv & -> & Hkv)%list_elem_of_fmap. destruct kv as [k v].
    pose proof (playerMasses_elem_of k v bs Hkv) as Hsum. cbn. split.
    - unfold playerCount, summed in *.
      by destruct (filter (ownedBy k) bs).
    - by exists v. }
  assert (sorted ≡ₚ entries) as Hperm by apply js_sort_perm.
  split_and!.
  - subst entries. rewrite <- list_fmap_compose.
    rewrite <- playerMasses_keys. done.
  - intros e He. destruct (Hentry e He) as (Hcount & total & Hsum & Hmass).
    exists total. split_and!; [done..|].
    intros Hst. apply summed_steady in Hst; [congruence|done].
  - intros Hpos e He.
    destruct (Hentry e He) as (Hcount & total & Hsum & Hmass).
    destruct (positive_masses_steady _ bs Hpos Hcount) as [Hst Htot].
    split; [|done].
    apply summed_steady in Hst; [|done]. congruence.
  - done.
  - done.
  - subst board. unfold leaderboardOf. fold entries. fold sorted.
    by rewrite length_take, Hperm.
  - intros Hnum.
    assert (consistent byMassDesc entries) as Hcons
      by by apply consistent_byMassDesc.
    assert (Forall is_number sorted) as Hnum' by by rewrite Hperm.
    split.
    + apply ordered_descending; [done|].
      by apply (js_sort_ordered _ entries).
    + intros e He. subst sameMass. cbv beta.
      assert (is_number e) as Hne
        by (rewrite Forall_forall in Hnum; by apply Hnum).
      rewrite <- !tied_sameMass by done.
      by apply (js_sort_stable byMassDesc entries Hcons e entries).
Qed.
End Leaderboard.

(** * Examples *)

Section Examples.
Import Example_host Example_world.
#[local] Existing Instance host.

(** Two overlapping pieces of one player, read by the clock 25 seconds
    before their deadline: the step leaves them apart. *)
Lemma recombination_waits_witness :
  ¬ (now_at (clk_calls h0) >? Blob.canRecombineTime piece1
     ∧ now_at (clk_calls h0) >? Blob.canRecombineTime piece2)
  ∧ distance (Blob.pos piece1) (Blob.pos piece2) <? Blob.radius piece1
  ∧ (pairStep (start [piece1; piece2]) (0, 1)%nat h0).1
    = start [piece1; piece2].
Proof.
  split_and!.
  - vm_compute. tauto.
  - by vm_compute.
  - apply (recombination_waits_for_both_deadlines _ 0 1 piece1 piece2);
      [done | done | done | done | vm_compute; tauto].
Defined.

(** The duel: the pair resolves, and it does so with the big blob
    absorbing the small one under both tests. *)
Lemma engulfment_margin_witness :
  (pairStep (start [big; small]) (0, 1)%nat h0).1
  = absorb 0 big small (start [big; small])
  ∧ Blob.mass big >? Blob.mass small * 1.1
  ∧ distance (Blob.pos big) (Blob.pos small)
    <? Blob.radius big - Blob.radius small * 0.5.
Proof.
  destruct (engulfment_needs_margin_and_depth
              (start [big; small]) 0 1 big small h0) as [Honly _];
    [done | done | done |].
  destruct Honly as [H|[H _]].
  - intros Heq. apply (f_equal size) in Heq. by vm_compute in Heq.
  - exact H.
  - exfalso. apply (f_equal (λ sc, Blob.mass <$> arr sc)) in H.
    vm_compute in H. discriminate H.
Defined.

(** A tick of the duel: the winner leaves the step with the mass of
    both, and the loser is not in the world the tick leaves. *)
Lemma engulfment_conserves_mass_witness :
  let before :=
    foldM pairStep {| arr := (feed duel).1; consumed := ∅ |} []
          (refill (feed duel).2 h0).2 in
  let after := (pairStep before.1 (0, 1)%nat before.2).1 in
  ∃ w winner loser winner',
    ((w, winner, loser) = (0%nat, big, small)
     ∨ (w, winner, loser) = (1%nat, small, big))
    ∧ arr after !! w = Some winner'
    ∧ Blob.mass winner' = Blob.mass winner + Blob.mass loser
    ∧ ∀ b, b ∈ blobs (tick duel h0).1.1 → Blob.id b ≠ Blob.id loser.
Proof.
  pose proof (engulfment_conserves_mass duel h0 [] 0 1 [] big small) as H.
  cbv zeta in *. apply H; clear H.
  - by vm_compute.
  - by vm_compute.
  - by vm_compute.
  - done.
  - intros Heq. apply (f_equal size) in Heq. by vm_compute in Heq.
Defined.

(** A server with its 200 pellets and a blob on one of them: the tick
    ends with 200 pellets. *)
Lemma food_count_witness :
  length (food on_pellet) = FOOD_COUNT
  ∧ length (food (tick on_pellet h0).1.1) = 200%nat.
Proof.
  assert (length (food on_pellet) = FOOD_COUNT) as Hfull by by vm_compute.
  split; [exact Hfull|]. apply (food_count_restored on_pellet h0 Hfull).
Defined.

(** A blob of mass 20 is at its cap of 1 and is left alone; a blob of
    mass 100 has a cap of 4 and stays within it. *)
Lemma split_cap_witness :
  (getMaxBlobsForMass (totalMass "A" (blobs light))
   ≤ playerCount "A" (blobs light) →
   (playerSplit mouse window view "A" light h0).1 = light)
  ∧ playerCount "A" (blobs heavy) = 1%nat
  ∧ getMaxBlobsForMass (totalMass "A" (blobs heavy)) = 4%nat
  ∧ playerCount "A" (blobs (playerSplit mouse window view "A" heavy h0).1)
    ≤ getMaxBlobsForMass (totalMass "A" (blobs heavy)).
Proof.
  split_and!.
  - apply (split_respects_cap mouse window view "A" light h0).
  - by vm_compute.
  - by vm_compute.
  - apply (split_respects_cap mouse window view "A" heavy h0).
    vm_compute. lia.
Defined.

(** The radii of the duel are current before and after a tick. *)
Lemma radius_never_stale_witness :
  radii_current (blobs duel) ∧ radii_current (blobs (perform Tick duel h0).1).
Proof.
  assert (radii_current (blobs duel)) as Hduel by (repeat constructor).
  split; [exact Hduel|].
  destruct (radius_never_stale (RT := host)) as (_ & _ & Hact & _).
  apply (Hact Tick duel h0 Hduel).
Defined.

(** No blob of the duel belongs to the player Z. *)
Lemma unknown_player_witness :
  (blobs (disconnectPlayer "Z" duel) = blobs duel
   ∧ food (disconnectPlayer "Z" duel) = food duel)
  ∧ (updatePlayerInput mouse window view "Z" duel h0).1 = duel
  ∧ (playerSplit mouse window view "Z" duel h0).1 = duel.
Proof.
  apply (unknown_player_is_noop "Z" mouse window view duel h0).
  intros b Hb. apply list_elem_of_In in Hb. simpl in Hb.
  destruct Hb as [<-|[<-|[]]]; discriminate.
Defined.

(** The fourth blob of [chain] is at neither end of a pair that
    resolves, and comes out of the scan as it went in. *)
Lemma scan_frame_witness :
  arr (scan chain h0).1 !! 3%nat = chain !! 3%nat
  ∧ Blob.mass <$> arr (scan chain h0).1 = [180; 50; 20; 20].
Proof.
  split; [|by vm_compute].
  destruct (scan_changes_only_winner_size chain h0) as (_ & _ & _ & Hidle).
  apply (Hidle 3%nat). intros ps1 i j ps2 Hps Hk Hres. apply Hres. clear Hres.
  change (pairs (length chain))
    with [(0, 1); (0, 2); (0, 3); (1, 2); (1, 3); (2, 3)]%nat in Hps.
  repeat (destruct ps1 as [|p ps1]; cbn [app] in Hps;
          [injection Hps; intros _ Hj Hi; subst i j;
           first [exfalso; lia | by vm_compute]
          |injection Hps; clear Hps; intros Hps Hp; subst p]).
  destruct ps1; cbn [app] in Hps; discriminate Hps.
Defined.

(** The pair [(0, 2)] of a scan of three blobs. *)
Lemma scan_pairs_once_witness :
  pairs (length chain) = [(0, 1); (0, 2); (0, 3); (1, 2); (1, 3); (2, 3)]%nat
  ∧ ((2, 0)%nat ∉ pairs (length chain))
  ∧ scan chain h0 = scan_seen (snapshot_pos chain) chain h0
  ∧ Forall (λ p, pair_lt p (0, 3)%nat) [(0, 1); (0, 2)]%nat
  ∧ Forall (pair_lt (0, 3)%nat) [(1, 2); (1, 3); (2, 3)]%nat
  ∧ scan chain h0
    = foldM pairStep
        (foldM pairStep (start chain) [(0, 1); (0, 2); (0, 3)]%nat h0).1
        [(1, 2); (1, 3); (2, 3)]%nat
        (foldM pairStep (start chain) [(0, 1); (0, 2); (0, 3)]%nat h0).2.
Proof.
  assert (pairs (length chain)
          = [(0, 1); (0, 2)] ++ (0, 3) :: [(1, 2); (1, 3); (2, 3)])%nat
    as Hps by reflexivity.
  destruct (scan_pairs_once_on_live_sizes (RT := host))
    as (_ & Hin & _ & Honce & Heq & Hstep).
  destruct (Hstep chain h0 _ _ _ _ Hps) as (Hbefore & Hafter & _ & Hgo).
  split_and!; [exact Hps| |apply Heq|exact Hbefore|exact Hafter|].
  - apply (Honce _ 0 2)%nat. apply Hin. cbn. lia.
  - rewrite Hgo. reflexivity.
Defined.

(** The scan on [chain]: the big blob engulfs the small one, grows from
    mass 110 to mass 160, and with the radius of mass 160 it reaches the
    third blob, which the radius of mass 110 did not reach. *)
Lemma scan_reads_grown_radius :
  (Blob.mass <$> arr (scan chain h0).1 = [180; 50; 20; 20]
   ∧ elements (consumed (scan chain h0).1) = ["c"; "b"])
  ∧ (Blob.mass <$> arr (scan_seen (snapshot_pos_radius chain) chain h0).1
     = [160; 50; 20; 20]
     ∧ elements (consumed (scan_seen (snapshot_pos_radius chain) chain h0).1)
       = ["b"])
  ∧ scan chain h0 ≠ scan_seen (snapshot_pos_radius chain) chain h0.
Proof.
  split_and!; [by vm_compute..|].
  intros Heq. apply (f_equal (λ r, Blob.mass <$> arr r.1)) in Heq.
  vm_compute in Heq. discriminate Heq.
Defined.

(** Two players with the totals 20.25 and 20.75, the smaller first: both
    entries show 20, they stay in the order of the blobs, and the list is
    not in descending order of the totals. *)
Lemma leaderboard_not_ranked_by_sum :
  (LeaderboardEntry.playerId <$> leaderboardOf names close_race = ["A"; "B"]
   ∧ LeaderboardEntry.mass <$> leaderboardOf names close_race = [20; 20])
  ∧ (totalMass "A" close_race = 20.25 ∧ totalMass "B" close_race = 20.75)
  ∧ ¬ ordered (bySummedDesc close_race) (leaderboardOf names close_race).
Proof.
  split_and!; [by vm_compute..|].
  intros Hord.
  change (leaderboardOf names close_race)
    with [toEntry names ("A", 20.25); toEntry names ("B", 20.75)] in Hord.
  apply StronglySorted_cons in Hord as [Hfirst _].
  apply Forall_cons in Hfirst as [Hfirst _].
  apply Hfirst. by vm_compute.
Defined.

(** The three players of [podium] come out by floored total, the two
    tied ones in the order of their first blobs; and of the eleven
    players who joined a new server, all of mass 20, the ten who joined
    first are listed, in the order in which they joined. *)
Lemma leaderboard_witness :
  (Forall (λ b, 0 <? Blob.mass b) podium
   ∧ Forall (λ e, ¬ is_nan (LeaderboardEntry.mass e))
            (toEntry names <$> playerMasses podium)
   ∧ LeaderboardEntry.playerId <$> leaderboardOf names podium
     = ["B"; "A"; "C"]
   ∧ LeaderboardEntry.mass <$> leaderboardOf names podium = [70; 50; 50]
   ∧ (totalMass "A" podium = 50.25 ∧ totalMass "C" podium = 50.75)
   ∧ StronglySorted
       (λ a z, LeaderboardEntry.mass z <=? LeaderboardEntry.mass a)
       (js_sort byMassDesc (toEntry names <$> playerMasses podium)))
  ∧ (length (blobs lobby) = 11%nat
     ∧ Forall (λ b, 0 <? Blob.mass b) (blobs lobby)
     ∧ Forall (λ e, ¬ is_nan (LeaderboardEntry.mass e))
              (toEntry (playerNames lobby) <$> playerMasses (blobs lobby))
     ∧ length (leaderboardOf (playerNames lobby) (blobs lobby)) = 10%nat
     ∧ LeaderboardEntry.name <$> leaderboardOf (playerNames lobby)
                                               (blobs lobby)
       = ["p01"; "p02"; "p03"; "p04"; "p05"; "p06"; "p07"; "p08"; "p09";
          "p10"]
     ∧ StronglySorted
         (λ a z, LeaderboardEntry.mass z <=? LeaderboardEntry.mass a)
         (js_sort byMassDesc
            (toEntry (playerNames lobby) <$> playerMasses (blobs lobby)))).
Proof.
  assert (Forall (λ e, ¬ is_nan (LeaderboardEntry.mass e))
                 (toEntry names <$> playerMasses podium)) as Hnum.
  { apply (bool_decide_unpack _). by vm_compute. }
  assert (Forall (λ e, ¬ is_nan (LeaderboardEntry.mass e))
                 (toEntry (playerNames lobby)
                  <$> playerMasses (blobs lobby))) as Hnum'.
  { apply (bool_decide_unpack _). by vm_compute. }
  destruct (leaderboard_ranks_floored_totals names podium)
    as (_ & _ & _ & _ & _ & _ & Hrank).
  destruct (leaderboard_ranks_floored_totals (playerNames lobby)
              (blobs lobby)) as (_ & _ & _ & _ & _ & Hlen & Hrank').
  split; split_and!.
  - apply (bool_decide_unpack _). by vm_compute.
  - exact Hnum.
  - by vm_compute.
  - by vm_compute.
  - by vm_compute.
  - by vm_compute.
  - exact (proj1 (Hrank Hnum)).
  - by vm_compute.
  - apply (bool_decide_unpack _). by vm_compute.
  - exact Hnum'.
  - rewrite Hlen. by vm_compute.
  - by vm_compute.
  - exact (proj1 (Hrank' Hnum')).
Defined.

(** The first scenario of the specification: a blob of mass 20 and one
    pellet of mass 1 at distance 10.  After the tick the pellet is gone,
    the blob has mass 21 and the food is back at 200 pellets. *)
Example scenario_one_pellet :
  let s := world [blob "a" "A" 100 100 20 0]
                 [Food.mk (Vector.mk 110 100) 1 (massToRadius 1) "red"] in
  Blob.mass <$> blobs (tick s h0).1.1 = [21]
  ∧ length (food (tick s h0).1.1) = 200%nat
  ∧ filter (λ f, Food.color f = "red") (food (tick s h0).1.1) = [].
Proof. split_and!; by vm_compute. Qed.

(** The second scenario: a blob of mass 100 splits into two blobs of
    mass 50 with the radius of mass 50, both due 25 seconds later. *)
Example scenario_split :
  let s' := (playerSplit mouse window view "A" heavy h0).1 in
  Blob.mass <$> blobs s' = [50; 50]
  ∧ Blob.radius <$> blobs s' = [massToRadius 50; massToRadius 50]
  ∧ Blob.canRecombineTime <$> blobs s'
    = [now_at 0 + 25000; now_at 0 + 25000].
Proof. by vm_compute. Qed.

(** The third scenario: the blob of mass 110 consumes the blob of mass
    50 at distance 5 and has mass 160. *)
Example scenario_duel :
  Blob.id <$> blobs (tick duel h0).1.1 = ["a"]
  ∧ Blob.mass <$> blobs (tick duel h0).1.1 = [160].
Proof. by vm_compute. Qed.
End Examples.


(** * Further properties *)

(** ** Clamping *)

Section Clamp.
Import FloatOrder.

Lemma not_Is_true_false (b : bool) : b = false → ¬ b.
Proof. intros ->. by intros []. Qed.

Lemma Math_min_cases hi v :
  ¬ is_nan hi →
  is_nan (Math_min hi v)
  ∨ (¬ is_nan (Math_min hi v) ∧ Math_min hi v <=? hi).
Proof.
  intros Hhi. unfold Math_min.
  destruct (is_nan hi) eqn:Nhi; [by destruct Hhi|].
  destruct (is_nan v) eqn:Nv; simpl; [by left|].
  right.
  apply not_Is_true_false in Nhi, Nv.
  destruct (hi <? v) eqn:L1.
  { split; [done|]. by apply leb_refl. }
  assert (v <=? hi) as Hle.
  { apply not_ltb_leb; [done..|]. by apply not_Is_true_false. }
  destruct (v <? hi); [done|].
  destruct (get_sign hi); [|done].
  split; [done|]. by apply leb_refl.
Qed.

(** [Math.max(lo, Math.min(hi, v))] lies between [lo] and [hi], or is
    [NaN] (which happens exactly when [v] is). *)
Lemma clamp_within lo hi v :
  lo <=? hi → within lo hi (Math_max lo (Math_min hi v)).
Proof.
  intros Hlh. destruct (leb_not_nan _ _ Hlh) as [Hlo Hhi].
  destruct (Math_min_cases hi v Hhi) as [Hn|[Hu Hle]].
  { left. unfold Math_max. destruct (is_nan (Math_min hi v)); [|done].
    rewrite orb_true_r. done. }
  set (u := Math_min hi v) in *. unfold within, Math_max.
  destruct (is_nan lo) eqn:Nlo; [by destruct Hlo|].
  destruct (is_nan u) eqn:Nu; [by destruct Hu|]. simpl.
  apply not_Is_true_false in Nlo, Nu.
  right.
  assert (lo <=? lo) as Hll by by apply leb_refl.
  destruct (lo <? u) eqn:L1.
  { split; [|done]. apply ltb_leb. by rewrite L1. }
  destruct (u <? lo) eqn:L2; [done|].
  assert (lo <=? u) as Hlu.
  { apply not_ltb_leb; [done..|]. by apply not_Is_true_false. }
  by destruct (get_sign lo).
Qed.
End Clamp.

(** ** What a tick does to the blobs and to the food *)

Section TickFacts.
Context `{RT : Runtime}.

Lemma same_but_size_identity b b' :
  same_but_size b b' → identity b' = identity b.
Proof.
  unfold same_but_size, identity. intros (-> & _ & _ & -> & -> & -> & ->).
  done.
Qed.

Lemma eatFood_spec blob fs :
  same_but_size blob (eatFood blob fs).1
  ∧ (eatFood blob fs).2 `sublist_of` fs.
Proof.
  revert blob. induction fs as [|f fs IH]; intros blob; simpl.
  - split; [apply same_but_size_refl | done].
  - case_match.
    + destruct (IH (grow (Food.mass f) blob)) as [Hs Hl]. split.
      * eapply same_but_size_trans; [apply same_but_size_grow | done].
      * by apply sublist_cons.
    + destruct (IH blob) as [Hs Hl].
      destruct (eatFood blob fs) as [blob' kept]. simpl in *.
      split; [done | by apply sublist_skip].
Qed.

Lemma eatAll_spec bs fs :
  Forall2 same_but_size bs (eatAll bs fs).1
  ∧ (eatAll bs fs).2 `sublist_of` fs.
Proof.
  revert fs. induction bs as [|blob bs IH]; intros fs; simpl.
  - by split.
  - destruct (eatFood_spec blob fs) as [Hs Hl].
    destruct (eatFood blob fs) as [blob' fs']. simpl in *.
    destruct (IH fs') as [Hs' Hl'].
    destruct (eatAll bs fs') as [bs'' fs'']. simpl in *.
    split; [by constructor | by etrans].
Qed.

Lemma scan_slots bs h : Forall2 same_but_size bs (arr (scan bs h).1).
Proof.
  destruct (framed_foldM bs (pairs (length bs)) h) as [Hlen Hsame].
  apply Forall2_same_length_lookup_2; [done|]. apply Hsame.
Qed.

(** Slot by slot, the array that the scan of a tick leaves holds the
    blobs of the world, moved, with another mass and radius at most. *)
Lemma tick_slots s h :
  Forall2 (λ b b', same_but_size (moveBlob b) b') (blobs s)
          (arr (scan (feed s).1 (refill (feed s).2 h).2).1).
Proof.
  pose proof (proj1 (eatAll_spec (moveBlob <$> blobs s) (food s))) as H1.
  apply (proj1 (Forall2_fmap_l moveBlob same_but_size _ _)) in H1.
  eapply Forall2_trans; [|apply H1|apply scan_slots].
  intros b b1 b2 Hb1 Hb2. eapply same_but_size_trans; [apply Hb1|apply Hb2].
Qed.

Lemma Forall2_fmap_eq {A B} (f : A → B) (l k : list A) :
  Forall2 (λ a a', f a' = f a) l k → f <$> k = f <$> l.
Proof.
  induction 1 as [|a a' l k Ha _ IH]; [done|].
  rewrite !fmap_cons. by f_equal.
Qed.

Lemma tick_identities s h :
  identity <$> blobs (tick s h).1.1 `sublist_of` identity <$> blobs s.
Proof.
  rewrite tick_blobs, deleteConsumed_filter.
  set (final := arr (scan (feed s).1 (refill (feed s).2 h).2).1).
  assert (identity <$> final = identity <$> blobs s) as <-.
  { apply Forall2_fmap_eq.
    eapply Forall2_impl; [apply tick_slots|].
    intros b b' Hs. by apply same_but_size_identity in Hs. }
  apply fmap_sublist, sublist_filter.
Qed.

(** A tick creates no blob and renames none: the blobs it leaves are
    blobs it found, in their order, each with its identifier, owner,
    name, color and [canRecombineTime]. *)
Theorem tick_creates_no_blob s h :
  identity <$> blobs (tick s h).1.1 `sublist_of` identity <$> blobs s.
Proof. apply tick_identities. Qed.

(** After a tick every blob is inside the world: each coordinate lies
    in [[0, WORLD_WIDTH]], respectively [[0, WORLD_HEIGHT]], unless it is
    [NaN]. *)
Theorem tick_keeps_blobs_in_world s h :
  Forall (λ b, within 0 WORLD_WIDTH (Vector.x (Blob.pos b))
               ∧ within 0 WORLD_HEIGHT (Vector.y (Blob.pos b)))
         (blobs (tick s h).1.1).
Proof.
  rewrite tick_blobs, deleteConsumed_filter.
  apply Forall_forall. intros b' [_ Hb']%list_elem_of_filter. revert b' Hb'.
  apply Forall_forall.
  eapply Forall2_Forall_r; [apply tick_slots|].
  apply Forall_forall. intros b _ b' (_ & -> & _).
  split; by apply clamp_within.
Qed.

(** A tick moves every blob once and by its velocity: a blob the tick
    leaves stands where a blob of the world stood plus its velocity, cut
    to the world, with its velocity damped by 0.98; neither eating nor
    the scan moves a blob. *)
Theorem tick_moves_each_blob_once s h :
  Forall (λ b', ∃ b,
            b ∈ blobs s ∧ Blob.id b' = Blob.id b
            ∧ Blob.pos b'
              = Vector.mk
                  (Math_max 0 (Math_min WORLD_WIDTH
                     (Vector.x (Blob.pos b) + Vector.x (Blob.velocity b))))
                  (Math_max 0 (Math_min WORLD_HEIGHT
                     (Vector.y (Blob.pos b) + Vector.y (Blob.velocity b))))
            ∧ Blob.velocity b'
              = Vector.mk (Vector.x (Blob.velocity b) * 0.98)
                          (Vector.y (Blob.velocity b) * 0.98))
         (blobs (tick s h).1.1).
Proof.
  rewrite tick_blobs, deleteConsumed_filter.
  apply Forall_forall. intros b' [_ Hb']%list_elem_of_filter.
  apply list_elem_of_lookup in Hb' as [k Hk].
  destruct (Forall2_lookup_r _ _ _ _ _ (tick_slots s h) Hk)
    as (b & Hb & Hid & Hpos & Hvel & _).
  exists b. split; [by eapply list_elem_of_lookup_2|].
  by rewrite Hid, Hpos, Hvel.
Qed.

Lemma createFood_ok h : pellet_ok (createFood h).1.
Proof. unfold createFood. rewrite !bind_run. by split. Qed.

Lemma refill_loop_app k fs h :
  ∃ new_, (refill_loop k fs h).1 = fs ++ new_
          ∧ Forall pellet_ok new_ ∧ length new_ = k.
Proof.
  revert fs h. induction k as [|k IH]; intros fs h; simpl.
  - exists []. by rewrite app_nil_r.
  - rewrite bind_run.
    destruct (IH (fs ++ [(createFood h).1]) (createFood h).2)
      as (new_ & -> & Hok & Hlen).
    exists ((createFood h).1 :: new_). split_and!.
    + by rewrite <- app_assoc.
    + constructor; [apply createFood_ok | done].
    + simpl. by rewrite Hlen.
Qed.

Lemma tick_food_shape s h :
  ∃ kept new_,
    food (tick s h).1.1 = kept ++ new_
    ∧ kept `sublist_of` food s
    ∧ Forall pellet_ok new_
    ∧ length new_ = (FOOD_COUNT - length kept)%nat.
Proof.
  rewrite tick_food. unfold refill.
  destruct (refill_loop_app (FOOD_COUNT - length (feed s).2) (feed s).2 h)
    as (new_ & Heq & Hok & Hlen).
  exists (feed s).2, new_. split_and!; [done| |done..].
  unfold feed. apply eatAll_spec.
Qed.

(** *** Who ate what *)



End TickFacts.

(** ** More on the blob-against-blob scan *)

Section ScanMore.
Context `{RT : Runtime}.

Lemma pairStep_keeps_consumed sc ij h k b :
  arr sc !! k = Some b → Blob.id b ∈ consumed sc →
  arr (pairStep sc ij h).1 !! k = Some b
  ∧ Blob.id b ∈ consumed (pairStep sc ij h).1.
Proof.
  intros Hk Hin. destruct ij as [i j].
  destruct (pairStep_result sc i j h) as [|b1 b2 E1 E2 N1 N2|b1 b2 E1 E2 N1 N2].
  - done.
  - split; [|rewrite absorb_consumed; set_solver].
    rewrite absorb_lookup_other; [done|]. intros ->. congruence.
  - split; [|rewrite absorb_consumed; set_solver].
    rewrite absorb_lookup_other; [done|]. intros ->. congruence.
Qed.

(** Once the scan has marked a blob as consumed, no later step of the
    scan writes it or takes the mark away: its mass and radius stay what
    they were when it lost, and it absorbs nothing. *)
Theorem consumed_blob_is_frozen sc ps h k b :
  arr sc !! k = Some b → Blob.id b ∈ consumed sc →
  arr (foldM pairStep sc ps h).1 !! k = Some b
  ∧ Blob.id b ∈ consumed (foldM pairStep sc ps h).1.
Proof.
  intros Hk Hin.
  apply (foldM_invariant
           (λ sc' _, arr sc' !! k = Some b ∧ Blob.id b ∈ consumed sc'));
    [|done].
  intros sc' h' ij _ [Hk' Hin']. by apply pairStep_keeps_consumed.
Qed.

(** Two pieces of one player (a non-empty owner) that are both alive,
    both past their [canRecombineTime] at the clock reading of the pair,
    and overlapping (the distance is below either radius) recombine into
    the first of the two, whatever their sizes: the first takes the sum
    of the masses and the radius of that sum, the second is left as it
    was and marked as consumed, no other slot changes, and the clock was
    read once. *)
Theorem recombination_merges_into_first sc i j b1 b2 h :
  let now := now_at (clk_calls h) in
  let d := distance (Blob.pos b1) (Blob.pos b2) in
  let sc' := (pairStep sc (i, j) h).1 in
  i ≠ j →
  arr sc !! i = Some b1 → arr sc !! j = Some b2 →
  Blob.id b1 ∉ consumed sc → Blob.id b2 ∉ consumed sc →
  Blob.playerId b1 = Blob.playerId b2 → Blob.playerId b1 ≠ "" →
  now >? Blob.canRecombineTime b1 → now >? Blob.canRecombineTime b2 →
  d <? Blob.radius b1 ∨ d <? Blob.radius b2 →
  arr sc' = <[i := grow (Blob.mass b2) b1]> (arr sc)
  ∧ arr sc' !! j = Some b2
  ∧ consumed sc' = consumed sc ∪ {[Blob.id b2]}
  ∧ (pairStep sc (i, j) h).2 = clock_read h.
Proof.
  intros now d sc' Hij E1 E2 N1 N2 Hsame Hne T1 T2 Hover. subst sc'.
  rewrite (pairStep_alive sc i j b1 b2) by done. simpl.
  unfold sameOwner.
  rewrite (bool_decide_eq_true_2 _ Hsame), (bool_decide_eq_true_2 _ Hne).
  simpl. unfold mayRecombine. fold now d.
  destruct (now >? Blob.canRecombineTime b1); [|done].
  destruct (now >? Blob.canRecombineTime b2); [|done].
  assert ((d <? Blob.radius b1) || (d <? Blob.radius b2) = true) as ->.
  { destruct (d <? Blob.radius b1), (d <? Blob.radius b2);
      simpl in *; tauto. }
  simpl. split_and!; try done.
  by rewrite list_lookup_insert_ne.
Qed.
End ScanMore.

(** ** Lists *)

Lemma filter_none {A} (P : A → Prop) `{∀ a, Decision (P a)} (l : list A) :
  (∀ a, a ∈ l → ¬ P a) → filter P l = [].
Proof.
  induction l as [|a l IH]; intros Hnone; [done|].
  rewrite filter_cons_False by (apply Hnone; by left).
  apply IH. intros a' Ha'. apply Hnone. by right.
Qed.

(** ** Joining, leaving and chatting *)

Section Players.
Context `{RT : Runtime}.

Lemma elem_of_blobs_set_new b bs : b ∈ blobs_set b bs.
Proof.
  induction bs as [|a bs IH]; simpl; [by left|].
  case_bool_decide; [by left | by right].
Qed.

Lemma elem_of_blobs_set_old b b' bs :
  b' ∈ bs → Blob.id b' ≠ Blob.id b → b' ∈ blobs_set b bs.
Proof.
  intros Hin Hne. induction bs as [|a bs IH]; simpl;
    [by apply elem_of_nil in Hin|].
  apply elem_of_cons in Hin as [->|Hin].
  - rewrite bool_decide_eq_false_2 by done. by left.
  - case_bool_decide; right; [done | by apply IH].
Qed.

Lemma elem_of_blobs_set b b' bs : b' ∈ blobs_set b bs → b' = b ∨ b' ∈ bs.
Proof.
  induction bs as [|a bs IH]; simpl.
  - intros ->%list_elem_of_singleton. by left.
  - case_bool_decide.
    + intros [->|?]%elem_of_cons; [by left | right; by right].
    + intros [->|?]%elem_of_cons; [right; by left|].
      destruct IH as [?|?]; [done | by left | right; by right].
Qed.

Lemma blobs_set_fresh b bs :
  (∀ b', b' ∈ bs → Blob.id b' ≠ Blob.id b) → blobs_set b bs = bs ++ [b].
Proof.
  induction bs as [|a bs IH]; intros Hfresh; simpl; [done|].
  rewrite bool_decide_eq_false_2 by (apply Hfresh; by left).
  f_equal. apply IH. intros b' Hb'. apply Hfresh. by right.
Qed.

(** [connectPlayer] names the player after the clock, stores the name,
    and puts one blob of that player into the world: mass 20, the radius
    of mass 20, at rest.  The food is untouched, a blob that was there
    stays unless it carried the identifier of the new blob, and the state
    pushed to the listener is that of the new world. *)
Theorem connect_adds_a_starting_blob name s h :
  let r := connectPlayer name s h in
  let s' := r.1.1.1 in
  let playerId := r.1.2 in
  let blob := (createBlob playerId name (clock_read h)).1 in
  playerId = name +:+ "-" +:+ num_to_string (now_at (clk_calls h))
  ∧ playerNames s' !! playerId = Some name
  ∧ food s' = food s
  ∧ (blob ∈ blobs s'
     ∧ Blob.playerId blob = playerId ∧ Blob.name blob = name
     ∧ Blob.mass blob = INITIAL_PLAYER_MASS
     ∧ Blob.radius blob = massToRadius INITIAL_PLAYER_MASS
     ∧ Blob.velocity blob = Vector.mk 0 0)
  ∧ (∀ b, b ∈ blobs s → Blob.id b ≠ Blob.id blob → b ∈ blobs s')
  ∧ r.1.1.2 = pushState s'.
Proof.
  unfold connectPlayer. rewrite !bind_run. cbn [fst snd ret].
  change (Date_now h).1 with (now_at (clk_calls h)).
  change (Date_now h).2 with (clock_read h).
  cbn [blobs food playerNames].
  split_and!; try done.
  - by rewrite lookup_insert_eq.
  - apply elem_of_blobs_set_new.
  - intros b Hb Hne. by apply elem_of_blobs_set_old.
Qed.

(** The deletions of [disconnectPlayer], over any snapshot [l]. *)
Lemma disconnect_foldl playerId (l bs : list Blob.t) :
  foldl (λ bs blob,
           if bool_decide (Blob.playerId blob = playerId)
           then blobs_delete (Blob.id blob) bs else bs) bs l
  = filter (λ b, Blob.id b ∉ Blob.id <$> filter (ownedBy playerId) l) bs.
Proof.
  revert bs. induction l as [|a l IH]; intros bs; simpl.
  - symmetry. apply filter_keeps_all. intros b _. apply not_elem_of_nil.
  - rewrite IH, filter_cons. unfold ownedBy at 2.
    case_bool_decide as Ha; case_decide; try done.
    unfold blobs_delete. rewrite list_filter_filter.
    apply list_filter_iff. intros b. rewrite fmap_cons, not_elem_of_cons.
    tauto.
Qed.

Lemma NoDup_ids_eq (bs : list Blob.t) b b' :
  NoDup (Blob.id <$> bs) → b ∈ bs → b' ∈ bs → Blob.id b = Blob.id b' →
  b = b'.
Proof.
  intros Hnd (i & Hi)%list_elem_of_lookup (j & Hj)%list_elem_of_lookup Heq.
  assert (i = j) as ->; [|congruence].
  eapply NoDup_lookup; [done| |].
  - rewrite list_lookup_fmap, Hi. done.
  - rewrite list_lookup_fmap, Hj. simpl. by rewrite Heq.
Qed.

(** After [disconnectPlayer] the player owns no blob and has no stored
    name; food and messages are untouched; the blobs left are blobs that
    were there, in their order; and, identifiers being unique, they are
    exactly the blobs of the other players. *)
Theorem disconnect_removes_the_player playerId s :
  let s' := disconnectPlayer playerId s in
  playerCount playerId (blobs s') = 0%nat
  ∧ playerNames s' !! playerId = None
  ∧ food s' = food s ∧ messages s' = messages s
  ∧ blobs s' `sublist_of` blobs s
  ∧ (NoDup (Blob.id <$> blobs s) →
     blobs s' = filter (λ b, Blob.playerId b ≠ playerId) (blobs s)).
Proof.
  cbn zeta. unfold disconnectPlayer. cbn [blobs food messages playerNames].
  rewrite disconnect_foldl. split_and!; try done.
  - unfold playerCount. rewrite list_filter_filter.
    rewrite filter_none; [done|].
    intros b Hb [Hown Hnot]. apply Hnot.
    apply list_elem_of_fmap. exists b. split; [done|].
    by apply list_elem_of_filter.
  - apply lookup_delete_eq.
  - apply sublist_filter.
  - intros Hnd. apply filter_ext_in. intros b Hb. split.
    + intros Hnot Hown. apply Hnot.
      apply list_elem_of_fmap. exists b. split; [done|].
      by apply list_elem_of_filter.
    + intros Hne (b' & Hid & [Hown Hb']%list_elem_of_filter)%list_elem_of_fmap.
      apply Hne. by rewrite (NoDup_ids_eq (blobs s) b b' Hnd Hb Hb' Hid).
Qed.

(** Joining and leaving at once is a round trip: when the identifier
    handed to the player and the identifier of the starting blob are new
    to the world, [disconnectPlayer] right after [connectPlayer] gives
    back the server as it was. *)
Theorem join_then_leave_restores_the_server name s h :
  let r := connectPlayer name s h in
  let playerId := r.1.2 in
  let blob := (createBlob playerId name (clock_read h)).1 in
  (∀ b, b ∈ blobs s → Blob.playerId b ≠ playerId) →
  (∀ b, b ∈ blobs s → Blob.id b ≠ Blob.id blob) →
  playerNames s !! playerId = None →
  disconnectPlayer playerId r.1.1.1 = s.
Proof.
  unfold connectPlayer. rewrite !bind_run. cbn [fst snd ret].
  change (Date_now h).1 with (now_at (clk_calls h)).
  change (Date_now h).2 with (clock_read h).
  set (playerId := name +:+ "-" +:+ num_to_string (now_at (clk_calls h))).
  set (blob := (createBlob playerId name (clock_read h)).1).
  intros Hown Hid Hname.
  assert (Blob.playerId blob = playerId) as Hmine.
  { subst blob. unfold createBlob. by rewrite !bind_run. }
  unfold disconnectPlayer. cbn [blobs food messages playerNames].
  rewrite disconnect_foldl, blobs_set_fresh by done.
  rewrite delete_insert_id by done.
  rewrite filter_app, (filter_none _ [blob]), app_nil_r.
  - rewrite filter_keeps_all; [by destruct s|].
    intros b Hb (b' & Hid' & Hb')%list_elem_of_fmap.
    apply list_elem_of_filter in Hb' as [Hown' Hb'].
    apply elem_of_app in Hb' as [Hb'|Hb'].
    + by apply (Hown b').
    + apply list_elem_of_singleton in Hb' as ->. by apply (Hid b).
  - intros b ->%list_elem_of_singleton Hnot. apply Hnot.
    apply list_elem_of_fmap. exists blob. split; [done|].
    apply list_elem_of_filter. split; [done|].
    apply elem_of_app. right. by left.
Qed.

Lemma addMessage_log name text color s h :
  let s' := (addMessage name text color s h).1 in
  let msg := ChatMessage.mk (now_at (clk_calls h) + random_at (rnd_calls h))
                            name text color in
  messages s' `suffix_of` messages s ++ [msg]
  ∧ length (messages s') = (S (length (messages s)) `min` 10)%nat
  ∧ last (messages s') = Some msg
  ∧ blobs s' = blobs s ∧ food s' = food s.
Proof.
  unfold addMessage. rewrite !bind_run. cbn [fst snd ret].
  cbn [messages blobs food].
  change (Date_now h).1 with (now_at (clk_calls h)).
  change (Math_random (Date_now h).2).1 with (random_at (rnd_calls h)).
  set (msg := ChatMessage.mk _ name text color).
  split_and!; try done.
  - apply suffix_drop.
  - rewrite length_drop, length_app. simpl. lia.
  - rewrite length_app. simpl.
    destruct (decide (length (messages s) + 1 - 10 ≤ length (messages s)))%nat
      as [Hle|Hgt]; [|lia].
    rewrite drop_app_le by done. apply last_snoc.
Qed.

(** [addMessage] appends the message and keeps the last ten: the log is
    the tail of the old log followed by the new message, it has one more
    entry than before unless that would be more than ten, its last entry
    is the new message, and the blobs and the food are untouched. *)
Theorem chat_log_keeps_the_last_ten name text color s h :
  let s' := (addMessage name text color s h).1 in
  let msg := ChatMessage.mk (now_at (clk_calls h) + random_at (rnd_calls h))
                            name text color in
  messages s' `suffix_of` messages s ++ [msg]
  ∧ length (messages s') = (S (length (messages s)) `min` 10)%nat
  ∧ last (messages s') = Some msg
  ∧ blobs s' = blobs s ∧ food s' = food s.
Proof. apply addMessage_log. Qed.

(** The log never holds more than ten messages. *)
Lemma chat_log_bounded a s h :
  length (messages s) ≤ 10 → length (messages (perform a s h).1) ≤ 10.
Proof.
  intros Hle. destruct a; unfold perform; rewrite ?bind_run; cbn [fst ret].
  - unfold tick. destruct (feed s). by rewrite !bind_run.
  - unfold connectPlayer. by rewrite !bind_run.
  - done.
  - unfold updatePlayerInput. case_bool_decide; [done|].
    destruct (js_sort _ _) as [|[r0 mainBlob] rest]; [done|].
    by rewrite bind_run.
  - unfold playerSplit. case_bool_decide; [done|].
    rewrite !bind_run. by destruct (foldM _ _ _ _).1.
  - destruct (addMessage_log name text color s h)
      as (_ & Hlen & _). rewrite Hlen. lia.
Qed.
End Players.

(** ** Steering and splitting *)

Section OwnBlobs.
Context `{RT : Runtime}.
Variables (mousePos : Vector.t) (windowSize : WindowSize.t)
          (camera : Camera.t).

Lemma ownedFrom_elem_of k playerId bs r b :
  (r, b) ∈ ownedFrom k playerId bs →
  ∃ i, r = (k + i)%nat ∧ bs !! i = Some b ∧ Blob.playerId b = playerId.
Proof.
  revert k. induction bs as [|a bs IH]; intros k; simpl.
  - intros Hin. by apply elem_of_nil in Hin.
  - case_bool_decide as Ha.
    + intros [[= -> ->]|Hin]%elem_of_cons.
      * exists 0%nat. split_and!; [lia|done..].
      * destruct (IH _ Hin) as (i & -> & Hi & Hown).
        exists (S i). split_and!; [lia|done..].
    + intros Hin. destruct (IH _ Hin) as (i & -> & Hi & Hown).
      exists (S i). split_and!; [lia|done..].
Qed.

Lemma owned_elem_of playerId bs r b :
  (r, b) ∈ owned playerId bs → bs !! r = Some b ∧ Blob.playerId b = playerId.
Proof.
  intros (i & -> & Hi & Hown)%ownedFrom_elem_of. done.
Qed.

Lemma ownedFrom_refs_NoDup k playerId bs :
  NoDup (ownedFrom k playerId bs).*1.
Proof.
  revert k. induction bs as [|a bs IH]; intros k; simpl; [constructor|].
  case_bool_decide; [|apply IH].
  rewrite fmap_cons. constructor; [|apply IH].
  intros ([r b] & Hr & Hin)%list_elem_of_fmap. simpl in Hr. subst r.
  apply ownedFrom_elem_of in Hin as (i & Hk & _). lia.
Qed.

Lemma same_but_velocity_refl b : same_but_velocity b b.
Proof. by repeat split. Qed.

Lemma steered_refl playerId bs : Forall2 (steered playerId) bs bs.
Proof.
  apply Forall_Forall2_diag, Forall_forall. intros b _. unfold steered.
  case_decide; [apply same_but_velocity_refl | done].
Qed.

Lemma steer_steered playerId bs count r0 over mouseInWorld store ir h :
  (∃ b, bs !! ir.2 = Some b ∧ Blob.playerId b = playerId) →
  Forall2 (steered playerId) bs store →
  Forall2 (steered playerId) bs
          (steer count r0 over mouseInWorld store ir h).1.
Proof.
  destruct ir as [index r]. cbn [snd]. intros (b & Hb & Hown) Hst.
  unfold steer.
  destruct (store !! r0) as [mainBlob|]; [|done].
  destruct (store !! r) as [p_blob|] eqn:Hr; [|done].
  rewrite bind_run.
  match goal with |- context [if ?c then _ else _] => destruct c end;
    [|done].
  cbn [fst ret].
  rewrite <- (list_insert_id bs r b Hb).
  apply Forall2_insert; [done|].
  pose proof (Forall2_lookup_lr _ _ _ _ _ _ Hst Hb Hr) as Hbp.
  unfold steered in *. rewrite decide_True in * by done.
  destruct Hbp as (?&?&?&?&?&?&?&?). by repeat split.
Qed.

Lemma updatePlayerInput_frame playerId s h :
  let s' := (updatePlayerInput mousePos windowSize camera playerId s h).1 in
  food s' = food s ∧ messages s' = messages s
  ∧ playerNames s' = playerNames s
  ∧ Forall2 (λ b b', if decide (Blob.playerId b = playerId)
                     then same_but_velocity b b' else b' = b)
            (blobs s) (blobs s').
Proof.
  cbn zeta. unfold updatePlayerInput.
  case_bool_decide.
  { split_and!; try done. apply (steered_refl playerId). }
  destruct (js_sort _ _) as [|[r0 mainBlob] rest] eqn:Hsort.
  { split_and!; try done. apply (steered_refl playerId). }
  rewrite bind_run. cbn [fst ret set_blobs food messages playerNames blobs].
  split_and!; try done.
  apply (foldM_invariant (λ store _, Forall2 (steered playerId) (blobs s) store));
    [|apply steered_refl].
  intros store h' ir Hir. apply steer_steered.
  apply elem_of_lookup_imap in Hir as (idx & [r b] & -> & Hidx).
  apply list_elem_of_lookup_2 in Hidx. rewrite <- Hsort in Hidx.
  rewrite js_sort_perm in Hidx.
  apply owned_elem_of in Hidx as [Hb Hown]. by exists b.
Qed.

(** A steering input leaves the food, the messages and the names alone;
    it keeps every blob in its place; in a blob of the player it may
    change the velocity and nothing else; and a blob of another player
    is left exactly as it was. *)
Theorem input_only_steers_own_blobs playerId s h :
  let s' := (updatePlayerInput mousePos windowSize camera playerId s h).1 in
  food s' = food s ∧ messages s' = messages s
  ∧ playerNames s' = playerNames s
  ∧ Forall2 (λ b b', if decide (Blob.playerId b = playerId)
                     then same_but_velocity b b' else b' = b)
            (blobs s) (blobs s').
Proof. apply updatePlayerInput_frame. Qed.

(** One round of the loop of [playerSplit] at a reference that still
    holds a blob of the world that belongs to the player. *)
Lemma splitStep_halves playerId (bs : list Blob.t) count maxBlobs time
    st r b h :
  let st' := (splitStep mousePos windowSize camera count maxBlobs time
                        st r h).1 in
  st.1 !! r = Some b → b ∈ bs → Blob.playerId b = playerId →
  Forall (from_split playerId time bs) st.1 →
  Forall (λ b', from_split playerId time bs b' ∧ ownedBy playerId b') st.2 →
  Forall (from_split playerId time bs) st'.1
  ∧ Forall (λ b', from_split playerId time bs b' ∧ ownedBy playerId b') st'.2
  ∧ ∀ r', r' ≠ r → st'.1 !! r' = st.1 !! r'.
Proof.
  destruct st as [store news]. cbn [fst snd].
  intros Hr Hb Hown Hstore Hnews. unfold splitStep. rewrite Hr.
  destruct (Blob.mass b >=? MIN_MASS_TO_SPLIT) eqn:Hbig; cbn [andb];
    [case_bool_decide|]; [|done..].
  rewrite !bind_run. cbn [fst snd ret].
  assert (Is_true (Blob.mass b >=? MIN_MASS_TO_SPLIT)) as Hbig'
    by by rewrite Hbig.
  split_and!.
  - apply Forall_insert; [done|].
    right. exists b. split_and!; [done..|]. by repeat split.
  - apply Forall_app. split; [done|]. constructor; [|done].
    split; [|done].
    right. exists b. split_and!; [done..|]. by repeat split.
  - intros r' Hne. by rewrite list_lookup_insert_ne.
Qed.

(** The loop of [playerSplit] over references that are distinct, that
    still hold the blob of the world, and that belong to the player:
    what it leaves in the store and in [newBlobs] is a blob of the world
    or a half of one. *)
Lemma splitLoop_halves playerId (bs : list Blob.t) count maxBlobs time
    refs :
  ∀ st h,
    NoDup refs →
    (∀ r, r ∈ refs →
       st.1 !! r = bs !! r
       ∧ ∃ b, bs !! r = Some b ∧ Blob.playerId b = playerId) →
    Forall (from_split playerId time bs) st.1 →
    Forall (λ b', from_split playerId time bs b' ∧ ownedBy playerId b')
           st.2 →
    let st' := (foldM (splitStep mousePos windowSize camera count maxBlobs
                                 time) st refs h).1 in
    Forall (from_split playerId time bs) st'.1
    ∧ Forall (λ b', from_split playerId time bs b' ∧ ownedBy playerId b')
             st'.2.
Proof.
  induction refs as [|r refs IH];
    intros st h Hnd Hrefs Hstore Hnews; [done|].
  apply NoDup_cons in Hnd as [Hr Hnd]. cbn [foldM]. rewrite bind_run.
  destruct (Hrefs r) as [Hsame (b & Hb & Hown)]; [by left|].
  rewrite Hb in Hsame.
  destruct (splitStep_halves playerId bs count maxBlobs time st r b h)
    as (Hstore' & Hnews' & Hothers);
    [done|by eapply list_elem_of_lookup_2|done..|].
  apply IH; [done| |done..].
  intros r' Hr'. rewrite Hothers by (intros ->; done).
  apply Hrefs. by right.
Qed.

Lemma playerCount_blobs_set_own playerId b bs :
  Blob.playerId b = playerId →
  playerCount playerId bs ≤ playerCount playerId (blobs_set b bs).
Proof.
  intros Hown. unfold playerCount. induction bs as [|a bs IH]; simpl.
  - lia.
  - case_bool_decide; rewrite !filter_cons.
    + rewrite (decide_True (P := ownedBy playerId b)) by done.
      case_decide; simpl; lia.
    + case_decide; simpl; lia.
Qed.

Lemma playerCount_foldl_blobs_set_own playerId news bs :
  Forall (ownedBy playerId) news →
  playerCount playerId bs
  ≤ playerCount playerId (foldl (λ bs b, blobs_set b bs) bs news).
Proof.
  revert bs. induction news as [|b news IH]; intros bs Hown; simpl; [lia|].
  apply Forall_cons in Hown as [Hb Hown].
  etrans; [|by apply IH]. by apply playerCount_blobs_set_own.
Qed.

Lemma elem_of_foldl_blobs_set news bs b' :
  b' ∈ foldl (λ bs b, blobs_set b bs) bs news → b' ∈ bs ∨ b' ∈ news.
Proof.
  revert bs. induction news as [|b news IH]; intros bs; simpl; [by left|].
  intros [Hin|Hin]%IH; [|right; by right].
  apply elem_of_blobs_set in Hin as [->|Hin]; [right; by left | by left].
Qed.

Lemma playerSplit_frame playerId s h :
  let s' := (playerSplit mousePos windowSize camera playerId s h).1 in
  let time := now_at (clk_calls h) + RECOMBINE_DELAY_MS in
  food s' = food s ∧ messages s' = messages s
  ∧ playerNames s' = playerNames s
  ∧ Forall (from_split playerId time (blobs s)) (blobs s')
  ∧ playerCount playerId (blobs s) ≤ playerCount playerId (blobs s').
Proof.
  cbn zeta. unfold playerSplit. rewrite owned_length.
  case_bool_decide as Hcap.
  { split_and!; try done. apply Forall_forall. intros b ?. by left. }
  rewrite !bind_run.
  change (Date_now h).1 with (now_at (clk_calls h)).
  set (time := now_at (clk_calls h) + RECOMBINE_DELAY_MS).
  set (cap := getMaxBlobsForMass _) in *.
  pose proof (splitLoop_halves playerId (blobs s)
                (playerCount playerId (blobs s)) cap time
                (owned playerId (blobs s)).*1 (blobs s, []) (Date_now h).2)
    as Hhalves.
  pose proof (splitLoop_bound mousePos windowSize camera playerId
                (playerCount playerId (blobs s)) cap time
                (owned playerId (blobs s)).*1 (blobs s, []) (Date_now h).2)
    as Hbound.
  cbn zeta in Hhalves, Hbound.
  destruct (foldM _ _ _ _) as [[store news] h2]. cbn [fst snd] in *.
  destruct Hhalves as [Hstore Hnews].
  { apply ownedFrom_refs_NoDup. }
  { intros r ([r' b] & -> & Hin)%list_elem_of_fmap.
    apply owned_elem_of in Hin as [Hb Hown]. split; [done|]. by exists b. }
  { apply Forall_forall. intros b ?. by left. }
  { constructor. }
  destruct Hbound as [Hcount _]; [simpl; lia|].
  cbn [ret fst set_blobs food messages playerNames blobs].
  split_and!; try done.
  - apply Forall_forall. intros b' [Hin|Hin]%elem_of_foldl_blobs_set.
    + by apply (proj1 (Forall_forall _ _) Hstore).
    + by apply (proj1 (Forall_forall _ _) Hnews).
  - rewrite <- Hcount. apply playerCount_foldl_blobs_set_own.
    eapply Forall_impl; [done|]. by intros b' [_ ?].
Qed.

(** [playerSplit] leaves the food, the messages and the names alone.
    Every blob of the world it leaves is a blob that was there or a half
    of one: a half belongs to the player, has the name and the color of
    a blob of the player that had at least [MIN_MASS_TO_SPLIT], half its
    mass and the radius of that half, and may not recombine before the
    clock reading of the call plus [RECOMBINE_DELAY_MS].  The player
    never has fewer blobs than before. *)
Theorem split_halves_and_locks playerId s h :
  let s' := (playerSplit mousePos windowSize camera playerId s h).1 in
  let time := now_at (clk_calls h) + RECOMBINE_DELAY_MS in
  food s' = food s ∧ messages s' = messages s
  ∧ playerNames s' = playerNames s
  ∧ Forall (from_split playerId time (blobs s)) (blobs s')
  ∧ playerCount playerId (blobs s) ≤ playerCount playerId (blobs s').
Proof. apply playerSplit_frame. Qed.

(** A player whose blobs are all below [MIN_MASS_TO_SPLIT] cannot split:
    the call leaves the server as it is. *)
Theorem split_needs_min_mass playerId s h :
  (∀ b, b ∈ blobs s → Blob.playerId b = playerId →
        ¬ Blob.mass b >=? MIN_MASS_TO_SPLIT) →
  (playerSplit mousePos windowSize camera playerId s h).1 = s.
Proof.
  intros Hsmall. unfold playerSplit. case_bool_decide; [done|].
  rewrite !bind_run.
  match goal with
  | |- context [foldM ?f ?st ?refs ?h'] =>
      assert ((foldM f st refs h').1 = (blobs s, [])) as Hloop
  end.
  { apply (foldM_invariant (λ st _, st = (blobs s, []))); [|done].
    intros st h' r ([r' b] & -> & Hin)%list_elem_of_fmap ->.
    apply owned_elem_of in Hin as [Hb Hown]. cbn [fst snd] in *.
    unfold splitStep. rewrite Hb.
    destruct (Blob.mass b >=? MIN_MASS_TO_SPLIT) eqn:Hbig; [|done].
    exfalso. apply (Hsmall b); [by eapply list_elem_of_lookup_2|done|].
    by rewrite Hbig. }
  destruct (foldM _ _ _ _) as [[store news] h2]. cbn [fst] in Hloop.
  injection Hloop as -> ->. cbn [fst ret foldl]. by destruct s.
Qed.

Lemma length_blobs_set b (bs : list Blob.t) :
  length (blobs_set b bs) ≤ S (length bs).
Proof.
  induction bs as [|a bs IH]; cbn [blobs_set length]; [lia|].
  case_bool_decide; cbn [length]; lia.
Qed.

Lemma length_foldl_blobs_set news (bs : list Blob.t) :
  length (foldl (λ bs b, blobs_set b bs) bs news)
  ≤ length bs + length news.
Proof.
  revert bs. induction news as [|b news IH]; intros bs; cbn [foldl length];
    [lia|].
  etrans; [apply IH|]. pose proof (length_blobs_set b bs). lia.
Qed.

Lemma splitStep_pushes count maxBlobs time st r h :
  let st' := (splitStep mousePos windowSize camera count maxBlobs time
                        st r h).1 in
  length st'.1 = length st.1 ∧ length st'.2 ≤ S (length st.2).
Proof.
  destruct st as [store news]. cbn [fst snd]. unfold splitStep.
  destruct (store !! r) as [p_blob|]; [|cbn [ret fst snd]; lia].
  destruct (_ && _); [|cbn [ret fst snd]; lia].
  rewrite !bind_run. cbn [ret fst snd].
  rewrite length_insert, length_app. cbn [length]. lia.
Qed.

Lemma splitLoop_pushes count maxBlobs time refs :
  ∀ st h,
    let st' := (foldM (splitStep mousePos windowSize camera count maxBlobs
                                 time) st refs h).1 in
    length st'.1 = length st.1
    ∧ length st'.2 ≤ length st.2 + length refs.
Proof.
  induction refs as [|r refs IH]; intros st h; cbn [foldM length].
  - cbn [ret fst]. lia.
  - rewrite bind_run. cbn zeta in IH.
    match goal with
    | |- context [foldM _ ?st1 refs ?h1] =>
        destruct (IH st1 h1) as [IH1 IH2]
    end.
    destruct (splitStep_pushes count maxBlobs time st r h) as [H1 H2].
    cbn zeta in H1, H2. lia.
Qed.

(** A split at most doubles the blobs of the player: every blob the
    player had is split once at most, so the player ends with no more
    than twice the blobs, and the world grows by no more than the number
    of blobs the player had. *)
Theorem split_at_most_doubles playerId s h :
  let s' := (playerSplit mousePos windowSize camera playerId s h).1 in
  playerCount playerId (blobs s') ≤ 2 * playerCount playerId (blobs s)
  ∧ length (blobs s') ≤ length (blobs s) + playerCount playerId (blobs s).
Proof.
  cbn zeta. unfold playerSplit. rewrite owned_length.
  case_bool_decide as Hcap; [cbn [ret fst]; lia|].
  rewrite !bind_run.
  match goal with
  | |- context [foldM (splitStep ?m ?w ?c ?n ?mx ?t) ?st ?refs ?h'] =>
      pose proof (splitLoop_pushes n mx t refs st h') as Hpush;
      pose proof (splitLoop_bound m w c playerId n mx t refs st h') as Hcnt;
      destruct (foldM (splitStep m w c n mx t) st refs h')
        as [[store news] h2]
  end.
  cbn zeta in Hpush, Hcnt.
  cbn [fst snd ret set_blobs blobs length] in *.
  rewrite length_fmap, owned_length in Hpush.
  destruct Hpush as [Hlen Hnews]. destruct Hcnt as [Hcount _]; [lia|].
  split.
  - etrans; [apply playerCount_foldl_blobs_set|]. lia.
  - etrans; [apply length_foldl_blobs_set|]. lia.
Qed.
End OwnBlobs.

(** ** What every run of the server keeps *)

Section RunFacts.
Context `{RT : Runtime}.

Lemma foldM_run_invariant (P : GameServer → Prop) :
  (∀ h, P (GameServer_new h).1) →
  (∀ a s h, P s → P (perform a s h).1) →
  ∀ acts h, P (run acts h).1.
Proof.
  intros Hnew Hstep acts h. unfold run. rewrite bind_run.
  apply (foldM_invariant (λ s _, P s)); [|apply Hnew].
  intros s h' a _. apply Hstep.
Qed.

Lemma tick_other_fields s h :
  messages (tick s h).1.1 = messages s
  ∧ playerNames (tick s h).1.1 = playerNames s.
Proof. unfold tick. destruct (feed s). by rewrite !bind_run. Qed.

(** What the actions other than a tick do to the food: nothing. *)
Lemma perform_food a s h : a ≠ Tick → food (perform a s h).1 = food s.
Proof.
  intros Ha. destruct a; [done|..]; unfold perform; rewrite ?bind_run;
    cbn [fst ret].
  - unfold connectPlayer. by rewrite !bind_run.
  - done.
  - by destruct (updatePlayerInput_frame mousePos windowSize camera
                   playerId s h) as (-> & _).
  - by destruct (playerSplit_frame mousePos windowSize camera
                   playerId s h) as (-> & _).
  - unfold addMessage. by rewrite !bind_run.
Qed.

Lemma replicateM_Forall {A} (P : A → Prop) n (m : M A) h :
  (∀ h', P (m h').1) → Forall P (replicateM n m h).1.
Proof.
  intros Hm. revert h. induction n as [|n IH]; intros h; simpl.
  - constructor.
  - rewrite !bind_run. cbn [fst ret]. constructor; [apply Hm | apply IH].
Qed.

Lemma Forall_sublist {A} (P : A → Prop) (l k : list A) :
  l `sublist_of` k → Forall P k → Forall P l.
Proof.
  intros Hsub. rewrite !Forall_forall. intros Hk a Ha. apply Hk.
  by eapply elem_of_sublist.
Qed.

(** In every state that the server reaches from its construction the
    food has exactly [FOOD_COUNT] pellets, each with the mass
    [FOOD_MASS] and the radius of that mass: only a tick touches the
    food, and it tops it up with pellets of [createFood]. *)
Theorem food_stays_full_and_uniform acts h :
  length (food (run acts h).1) = FOOD_COUNT
  ∧ Forall pellet_ok (food (run acts h).1).
Proof.
  apply (foldM_run_invariant
           (λ s, length (food s) = FOOD_COUNT ∧ Forall pellet_ok (food s))).
  - clear. intros h. split; [apply GameServer_new_food|].
    unfold GameServer_new. rewrite bind_run. cbn [fst ret food].
    apply replicateM_Forall, createFood_ok.
  - clear. intros a s h [Hlen Hok].
    assert (a = Tick ∨ a ≠ Tick) as [->|Ha]
      by (destruct a; (by left) || (by right));
      [|by rewrite perform_food].
    unfold perform. rewrite bind_run. cbn [fst ret]. split.
    + rewrite tick_food. apply refill_length.
      unfold feed. etrans; [apply eatAll_length|]. lia.
    + destruct (tick_food_shape s h) as (kept & new_ & -> & Hsub & Hnew & _).
      apply Forall_app. split; [by eapply Forall_sublist | done].
Qed.

Lemma blobs_set_ids b bs :
  Blob.id <$> blobs_set b bs
  = if decide (Blob.id b ∈ Blob.id <$> bs) then Blob.id <$> bs
    else (Blob.id <$> bs) ++ [Blob.id b].
Proof.
  induction bs as [|a bs IH].
  - rewrite decide_False by apply not_elem_of_nil. done.
  - cbn [blobs_set]. case_bool_decide as Ha.
    + rewrite !fmap_cons, Ha. rewrite decide_True by by left. done.
    + rewrite !fmap_cons, IH. case_decide as Hin.
      * rewrite decide_True by by right. done.
      * rewrite decide_False; [done|].
        rewrite not_elem_of_cons. split; [by apply not_eq_sym|done].
Qed.

Lemma NoDup_blobs_set b bs :
  NoDup (Blob.id <$> bs) → NoDup (Blob.id <$> blobs_set b bs).
Proof.
  intros Hnd. rewrite blobs_set_ids. case_decide as Hin; [done|].
  apply NoDup_app. split_and!; [done| |apply NoDup_singleton].
  intros i Hi ->%list_elem_of_singleton. done.
Qed.

Lemma NoDup_foldl_blobs_set news bs :
  NoDup (Blob.id <$> bs) →
  NoDup (Blob.id <$> foldl (λ bs b, blobs_set b bs) bs news).
Proof.
  revert bs. induction news as [|b news IH]; intros bs Hnd; [done|].
  simpl. by apply IH, NoDup_blobs_set.
Qed.

Lemma identity_ids (bs : list Blob.t) :
  Blob.id <$> bs = (λ t, t.1.1.1.1) <$> (identity <$> bs).
Proof. rewrite <- list_fmap_compose. done. Qed.

Lemma identity_owners (bs : list Blob.t) :
  Blob.playerId <$> bs = (λ t, t.1.1.1.2) <$> (identity <$> bs).
Proof. rewrite <- list_fmap_compose. done. Qed.

Lemma steered_ids playerId (bs bs' : list Blob.t) :
  Forall2 (steered playerId) bs bs' →
  Blob.id <$> bs' = Blob.id <$> bs
  ∧ Blob.playerId <$> bs' = Blob.playerId <$> bs.
Proof.
  intros Hst. split; apply Forall2_fmap_eq;
    (eapply Forall2_impl; [done|]); intros b b'; unfold steered;
    case_decide; (intros (?&?&?&?&?&?&?&?) || intros ->); done.
Qed.

(** The loop of [playerSplit] writes blobs under their own identifier. *)
Lemma splitLoop_ids mousePos windowSize camera count maxBlobs time refs
    st h :
  Blob.id <$> (foldM (splitStep mousePos windowSize camera count maxBlobs
                                time) st refs h).1.1
  = Blob.id <$> st.1.
Proof.
  apply (foldM_invariant (λ st' _, Blob.id <$> st'.1 = Blob.id <$> st.1));
    [|done].
  intros [store news] h' r _ Hids. rewrite <- Hids. cbn [fst].
  unfold splitStep.
  destruct (store !! r) as [p_blob|] eqn:Hr; [|done].
  destruct (_ && _); [|done].
  rewrite !bind_run. cbn [fst ret].
  rewrite list_fmap_insert. cbn [Blob.id Blob.with_canRecombineTime
    Blob.with_radius Blob.with_mass].
  apply list_insert_id. by rewrite list_lookup_fmap, Hr.
Qed.

Lemma NoDup_ids_perform a s h :
  NoDup (Blob.id <$> blobs s) → NoDup (Blob.id <$> blobs (perform a s h).1).
Proof.
  intros Hnd. destruct a; unfold perform; rewrite ?bind_run; cbn [fst ret].
  - apply (sublist_NoDup _ (Blob.id <$> blobs s)); [done|].
    rewrite !identity_ids. apply fmap_sublist, tick_identities.
  - unfold connectPlayer. rewrite !bind_run. cbn [fst ret blobs].
    by apply NoDup_blobs_set.
  - apply (sublist_NoDup _ (Blob.id <$> blobs s)); [done|].
    apply fmap_sublist.
    cbn [disconnectPlayer blobs]. rewrite disconnect_foldl.
    apply sublist_filter.
  - destruct (updatePlayerInput_frame mousePos windowSize camera playerId
                s h) as (_ & _ & _ & Hst).
    apply (steered_ids playerId) in Hst as [-> _]. done.
  - unfold playerSplit. case_bool_decide; [done|]. rewrite !bind_run.
    match goal with
    | |- context [foldM (splitStep ?m ?w ?c ?n ?mx ?t) ?st ?refs ?h'] =>
        pose proof (splitLoop_ids m w c n mx t refs st h') as Hids;
        destruct (foldM (splitStep m w c n mx t) st refs h')
          as [[store news] h2]
    end.
    cbn [fst snd ret set_blobs blobs] in *.
    apply NoDup_foldl_blobs_set. by rewrite Hids.
  - unfold addMessage. by rewrite !bind_run.
Qed.

(** No two blobs of the world carry the same identifier: the property
    survives every action, and it holds in every state the server
    reaches from its construction.  (It is what lets the list of blobs
    stand for the [Map] of the source.) *)
Theorem ids_stay_unique :
  (∀ a s h, NoDup (Blob.id <$> blobs s) →
            NoDup (Blob.id <$> blobs (perform a s h).1))
  ∧ (∀ acts h, NoDup (Blob.id <$> blobs (run acts h).1)).
Proof.
  split; [apply NoDup_ids_perform|].
  apply (foldM_run_invariant (λ s, NoDup (Blob.id <$> blobs s))).
  - intros h. unfold GameServer_new. rewrite bind_run. constructor.
  - apply NoDup_ids_perform.
Qed.

Lemma registered_perform a s h : registered s → registered (perform a s h).1.
Proof.
  unfold registered. intros Hreg.
  destruct a; unfold perform; rewrite ?bind_run; cbn [fst ret].
  - destruct (tick_other_fields s h) as [_ ->]. intros b' Hb'.
    assert (Blob.playerId b' ∈ Blob.playerId <$> blobs s) as Hin.
    { eapply elem_of_sublist;
        [by apply list_elem_of_fmap_2|].
      rewrite !identity_owners. apply fmap_sublist, tick_identities. }
    apply list_elem_of_fmap in Hin as (b & -> & Hb). by apply Hreg.
  - unfold connectPlayer. rewrite !bind_run. cbn [fst ret blobs playerNames].
    intros b' [->|Hb']%elem_of_blobs_set.
    + unfold createBlob. rewrite !bind_run. cbn [fst ret Blob.playerId].
      rewrite lookup_insert_eq. by eexists.
    + apply lookup_insert_is_Some'. right. by apply Hreg.
  - cbn [disconnectPlayer blobs playerNames]. rewrite disconnect_foldl.
    intros b' [Hnot Hb']%list_elem_of_filter.
    rewrite lookup_delete_ne; [by apply Hreg|]. intros Heq.
    apply Hnot, list_elem_of_fmap. exists b'. split; [done|].
    apply list_elem_of_filter. split; [|done]. by unfold ownedBy.
  - destruct (updatePlayerInput_frame mousePos windowSize camera playerId
                s h) as (_ & _ & -> & Hst).
    apply (steered_ids playerId) in Hst as [_ Hown]. intros b' Hb'.
    apply (list_elem_of_fmap_2 Blob.playerId) in Hb'. rewrite Hown in Hb'.
    apply list_elem_of_fmap in Hb' as (b & -> & Hb). by apply Hreg.
  - destruct (playerSplit_frame mousePos windowSize camera playerId s h)
      as (_ & _ & -> & Hfrom & _).
    intros b' Hb'.
    destruct (proj1 (Forall_forall _ _) Hfrom b' Hb')
      as [Hin|(b & Hb & _ & _ & (-> & _))]; by apply Hreg.
  - unfold addMessage. rewrite !bind_run. apply Hreg.
Qed.

(** Every blob of the world belongs to a player whose name is stored:
    joining stores the name with the first blob, leaving removes the
    blobs with the name, and nothing else gives a blob an owner.  So the
    leaderboard never falls back on a missing name. *)
Theorem owners_stay_registered :
  (∀ a s h, registered s → registered (perform a s h).1)
  ∧ (∀ acts h, registered (run acts h).1).
Proof.
  split; [apply registered_perform|].
  apply (foldM_run_invariant registered).
  - intros h. unfold registered, GameServer_new. rewrite bind_run.
    cbn [fst ret blobs]. intros b Hb. by apply elem_of_nil in Hb.
  - apply registered_perform.
Qed.

(** The chat log never holds more than ten messages. *)
Theorem chat_log_stays_bounded acts h :
  length (messages (run acts h).1) ≤ 10.
Proof.
  apply (foldM_run_invariant (λ s, length (messages s) ≤ 10)).
  - intros h'. unfold GameServer_new. rewrite bind_run. simpl. lia.
  - apply chat_log_bounded.
Qed.

Lemma registered_run acts h : registered (run acts h).1.
Proof.
  apply (foldM_run_invariant registered).
  - intros h'. unfold registered, GameServer_new. rewrite bind_run.
    cbn [fst ret blobs]. intros b Hb. by apply elem_of_nil in Hb.
  - apply registered_perform.
Qed.
End RunFacts.

Lemma elem_of_firstSeen keys k : k ∈ firstSeen keys → k ∈ keys.
Proof.
  induction keys as [|a keys IH] using rev_ind; [done|].
  rewrite firstSeen_snoc, elem_of_app, list_elem_of_singleton.
  case_decide; [by left; apply IH|].
  rewrite elem_of_app, list_elem_of_singleton. intros [?|?]; [left|right]; auto.
Qed.

Section Board.
Context `{RT : Runtime}.

Lemma board_players names bs :
  LeaderboardEntry.playerId <$> leaderboardOf names bs
  `sublist_of` LeaderboardEntry.playerId
               <$> js_sort byMassDesc (toEntry names <$> playerMasses bs).
Proof. apply fmap_sublist, sublist_take. Qed.

Lemma sorted_players names bs :
  LeaderboardEntry.playerId
    <$> js_sort byMassDesc (toEntry names <$> playerMasses bs)
  ≡ₚ firstSeen (Blob.playerId <$> bs).
Proof.
  rewrite js_sort_perm, <- list_fmap_compose, <- playerMasses_keys. done.
Qed.

Lemma leaderboardOf_players names bs :
  NoDup (LeaderboardEntry.playerId <$> leaderboardOf names bs)
  ∧ ∀ e, e ∈ leaderboardOf names bs →
      (∃ b, b ∈ bs ∧ Blob.playerId b = LeaderboardEntry.playerId e)
      ∧ LeaderboardEntry.name e = nameOf names (LeaderboardEntry.playerId e).
Proof.
  split.
  - eapply sublist_NoDup; [|apply board_players].
    rewrite sorted_players. apply NoDup_firstSeen.
  - intros e He. split.
    + assert (LeaderboardEntry.playerId e ∈ firstSeen (Blob.playerId <$> bs))
        as Hin.
      { rewrite <- sorted_players. eapply elem_of_sublist;
          [by apply list_elem_of_fmap_2|apply board_players]. }
      apply elem_of_firstSeen, list_elem_of_fmap in Hin as (b & -> & Hb).
      by exists b.
    + unfold leaderboardOf in He.
      assert (e ∈ js_sort byMassDesc (toEntry names <$> playerMasses bs))
        as He' by (eapply elem_of_sublist; [done|apply sublist_take]).
      clear He. rewrite js_sort_perm in He'.
      by apply list_elem_of_fmap in He' as (kv & -> & _).
Qed.

(** The leaderboard a server publishes, in any state it reaches: no
    player stands on it twice, every player on it owns a blob of the
    world, and the name shown is the name the player joined under
    (["Unknown"] when that name is empty). *)
Theorem leaderboard_shows_live_players_once acts h :
  let s := (run acts h).1 in
  let board := GameState.leaderboard (pushState s) in
  NoDup (LeaderboardEntry.playerId <$> board)
  ∧ ∀ e, e ∈ board →
      (∃ b, b ∈ blobs s ∧ Blob.playerId b = LeaderboardEntry.playerId e)
      ∧ ∃ n, playerNames s !! LeaderboardEntry.playerId e = Some n
             ∧ LeaderboardEntry.name e
               = if bool_decide (n = "") then "Unknown" else n.
Proof.
  intros s board. subst board. cbn [pushState GameState.leaderboard].
  pose proof (registered_run acts h) as Hreg. fold s in Hreg.
  clearbody s.
  destruct (leaderboardOf_players (playerNames s) (blobs s)) as [Hnd Hall].
  split; [exact Hnd|]. intros e He.
  destruct (Hall e He) as [(b & Hb & Hown) Hn].
  split; [exists b; split; assumption|].
  destruct (Hreg b Hb) as [n Hname].
  exists n. rewrite <- Hown. split; [exact Hname|].
  rewrite Hn, <- Hown. unfold nameOf. by rewrite Hname.
Qed.
End Board.

Section Cap.
Lemma geb_up m1 m2 c : m1 <=? m2 → (m1 >=? c) = true → (m2 >=? c) = true.
Proof.
  unfold geb. intros H12 Hc. apply Is_true_true.
  apply (FloatOrder.leb_trans c m1 m2); [by apply Is_true_true|done].
Qed.

(** The cap on the number of blobs of a player never goes down when the
    mass goes up, it is one of 1, 2, 4, 8 and 16, and a mass that is not
    a number gives the cap 1 (so that such a player cannot split). *)
Theorem cap_grows_with_mass :
  (∀ m1 m2, m1 <=? m2 → getMaxBlobsForMass m1 ≤ getMaxBlobsForMass m2)
  ∧ (∀ m, getMaxBlobsForMass m ∈ [1; 2; 4; 8; 16]%nat)
  ∧ (∀ m, is_nan m → getMaxBlobsForMass m = 1%nat).
Proof.
  split_and!.
  - intros m1 m2 H12. unfold getMaxBlobsForMass.
    pose proof (geb_up m1 m2) as Hup.
    destruct (m1 >=? 240) eqn:H1; [rewrite (Hup 240); [lia|done..]|].
    destruct (m1 >=? 120) eqn:H2;
      [destruct (m2 >=? 240); [lia|]; rewrite (Hup 120); [lia|done..]|].
    destruct (m1 >=? 60) eqn:H3;
      [destruct (m2 >=? 240); [lia|]; destruct (m2 >=? 120); [lia|];
       rewrite (Hup 60); [lia|done..]|].
    destruct (m1 >=? MIN_MASS_TO_SPLIT) eqn:H4;
      [destruct (m2 >=? 240); [lia|]; destruct (m2 >=? 120); [lia|];
       destruct (m2 >=? 60); [lia|];
       rewrite (Hup MIN_MASS_TO_SPLIT); [lia|done..]|].
    repeat destruct (m2 >=? _); lia.
  - intros m. unfold getMaxBlobsForMass.
    repeat destruct (m >=? _); set_solver.
  - intros m Hnan. unfold getMaxBlobsForMass.
    assert (∀ c, (m >=? c) = false) as Hno.
    { intros c. unfold geb. destruct (c <=? m) eqn:Hc; [|done].
      apply Is_true_true, FloatOrder.leb_not_nan in Hc as [_ Hm]. done. }
    by rewrite !Hno.
Qed.
End Cap.

(** ** Positive masses *)

Section PositiveMasses.
Context `{RT : Runtime}.

Lemma has_mass_grow m b : has_mass b → 0 <? m → has_mass (grow m b).
Proof.
  unfold has_mass. intros Hb Hm. rewrite grow_mass.
  apply FloatArith.add_pos; [|by apply FloatArith.pos_not_neg|done].
  by apply FloatArith.pos_not_nan.
Qed.

Lemma pellet_has_mass f : pellet_ok f → 0 <? Food.mass f.
Proof. intros [-> _]. by vm_compute. Qed.

Lemma has_mass_eatFood blob fs :
  has_mass blob → Forall pellet_ok fs → has_mass (eatFood blob fs).1.
Proof.
  revert blob. induction fs as [|f fs IH]; intros blob Hb Hfs; [done|].
  apply Forall_cons in Hfs as [Hf Hfs]. cbn [eatFood]. case_match.
  - apply IH; [|done]. apply has_mass_grow; [done|].
    by apply pellet_has_mass.
  - specialize (IH blob Hb Hfs). by destruct (eatFood blob fs).
Qed.

Lemma has_mass_eatAll bs fs :
  Forall has_mass bs → Forall pellet_ok fs →
  Forall has_mass (eatAll bs fs).1.
Proof.
  revert fs. induction bs as [|blob bs IH]; intros fs Hbs Hfs; [done|].
  apply Forall_cons in Hbs as [Hb Hbs]. cbn [eatAll].
  pose proof (has_mass_eatFood blob fs Hb Hfs) as Hb'.
  pose proof (proj2 (eatFood_spec blob fs)) as Hsub.
  destruct (eatFood blob fs) as [blob' fs']. cbn [fst snd] in *.
  assert (Forall pellet_ok fs') as Hfs' by by eapply Forall_sublist.
  specialize (IH fs' Hbs Hfs'). destruct (eatAll bs fs').
  by constructor.
Qed.

Lemma has_mass_pairStep sc ij h :
  Forall has_mass (arr sc) → Forall has_mass (arr (pairStep sc ij h).1).
Proof.
  destruct ij as [i j]. intros Hall.
  destruct (pairStep_result sc i j h) as [|b1 b2 H1 H2 _ _|b1 b2 H1 H2 _ _];
    [done| |]; cbn [absorb arr]; (apply Forall_insert; [done|]);
    apply has_mass_grow;
    first [by apply (Forall_lookup_1 _ _ _ _ Hall H1)
          |by apply (Forall_lookup_1 _ _ _ _ Hall H2)].
Qed.

Lemma has_mass_tick s h :
  Forall has_mass (blobs s) → Forall pellet_ok (food s) →
  Forall has_mass (blobs (tick s h).1.1).
Proof.
  intros Hbs Hfs. rewrite tick_blobs, deleteConsumed_filter.
  assert (Forall has_mass (feed s).1) as Hfed.
  { unfold feed. apply has_mass_eatAll; [|done].
    rewrite Forall_fmap. eapply Forall_impl; [exact Hbs|]. by intros b. }
  assert (∀ h', Forall has_mass (arr (scan (feed s).1 h').1)) as Hscan.
  { intros h'. unfold scan.
    apply (foldM_invariant (λ sc _, Forall has_mass (arr sc))); [|done].
    intros sc h1 ij _. apply has_mass_pairStep. }
  specialize (Hscan (refill (feed s).2 h).2).
  rewrite Forall_forall in Hscan |- *.
  intros b [_ Hb]%list_elem_of_filter. by apply Hscan.
Qed.

Lemma createBlob_mass playerId name h :
  Blob.mass (createBlob playerId name h).1 = INITIAL_PLAYER_MASS.
Proof. unfold createBlob. by rewrite !bind_run. Qed.

Lemma has_mass_perform a s h :
  Forall has_mass (blobs s) → Forall pellet_ok (food s) →
  Forall has_mass (blobs (perform a s h).1).
Proof.
  intros Hbs Hfs.
  destruct a; unfold perform; rewrite ?bind_run; cbn [fst ret].
  - by apply has_mass_tick.
  - unfold connectPlayer. rewrite !bind_run. cbn [fst ret blobs].
    rewrite Forall_forall in Hbs |- *.
    intros b' [->|Hb']%elem_of_blobs_set; [|by apply Hbs].
    unfold has_mass. rewrite createBlob_mass. by vm_compute.
  - cbn [disconnectPlayer blobs]. rewrite disconnect_foldl.
    rewrite Forall_forall in Hbs |- *.
    intros b' [_ Hb']%list_elem_of_filter. by apply Hbs.
  - destruct (updatePlayerInput_frame mousePos windowSize camera playerId
                s h) as (_ & _ & _ & Hst).
    eapply Forall2_Forall_r; [exact Hst|].
    eapply Forall_impl; [exact Hbs|]. intros b Hb b'. unfold has_mass in *.
    case_decide; [intros (_ & _ & -> & _)|intros ->]; done.
  - destruct (playerSplit_frame mousePos windowSize camera playerId s h)
      as (_ & _ & _ & Hfrom & _).
    rewrite Forall_forall in Hbs, Hfrom |- *. intros b' Hb'.
    destruct (Hfrom b' Hb')
      as [Hin|(b & Hb & _ & Hbig & (_ & _ & _ & Hhalf & _))];
      [by apply Hbs|].
    unfold has_mass. rewrite Hhalf. by apply FloatHalf.half_pos.
  - by destruct (addMessage_log name text color s h) as (_ & _ & _ & -> & _).
Qed.

Lemma pellets_perform a s h :
  Forall pellet_ok (food s) → Forall pellet_ok (food (perform a s h).1).
Proof.
  intros Hok.
  assert (a = Tick ∨ a ≠ Tick) as [->|Ha]
    by (destruct a; (by left) || (by right));
    [|by rewrite perform_food].
  unfold perform. rewrite bind_run. cbn [fst ret].
  destruct (tick_food_shape s h) as (kept & new_ & -> & Hsub & Hnew & _).
  apply Forall_app. split; [by eapply Forall_sublist | done].
Qed.

Lemma has_mass_run acts h : Forall has_mass (blobs (run acts h).1).
Proof.
  apply (foldM_run_invariant
           (λ s, Forall has_mass (blobs s) ∧ Forall pellet_ok (food s))).
  - clear. intros h. unfold GameServer_new. rewrite bind_run.
    cbn [fst ret food blobs]. split; [constructor|].
    apply replicateM_Forall, createFood_ok.
  - clear. intros a s h [Hbs Hfs]. split.
    + by apply has_mass_perform.
    + by apply pellets_perform.
Qed.

(** No blob ever has a mass that is zero, negative or [NaN]: a blob
    starts with [INITIAL_PLAYER_MASS], grows by pellets and by blobs it
    absorbs, and is halved only from [MIN_MASS_TO_SPLIT] up.  Every
    action keeps the masses positive when the pellets are as
    [createFood] makes them, and the masses are positive in every state
    that the server reaches from its construction. *)
Theorem masses_stay_positive :
  (∀ a s h, Forall has_mass (blobs s) → Forall pellet_ok (food s) →
            Forall has_mass (blobs (perform a s h).1))
  ∧ (∀ acts h, Forall has_mass (blobs (run acts h).1)).
Proof. split; [apply has_mass_perform|apply has_mass_run]. Qed.

Lemma board_plain_sums names bs e :
  Forall has_mass bs → e ∈ leaderboardOf names bs →
  LeaderboardEntry.mass e
  = Math_floor (totalMass (LeaderboardEntry.playerId e) bs)
  ∧ 0 <? totalMass (LeaderboardEntry.playerId e) bs.
Proof.
  intros Hpos He. unfold leaderboardOf in He.
  assert (e ∈ toEntry names <$> playerMasses bs) as He'.
  { rewrite <- (js_sort_perm byMassDesc).
    eapply elem_of_sublist; [exact He|apply sublist_take]. }
  apply list_elem_of_fmap in He' as ([k v] & -> & Hkv).
  pose proof (playerMasses_elem_of k v bs Hkv) as Hsum.
  cbn [toEntry LeaderboardEntry.mass LeaderboardEntry.playerId fst snd].
  assert (playerCount k bs ≠ 0%nat) as Hcount.
  { unfold playerCount, summed in *. by destruct (filter (ownedBy k) bs). }
  destruct (positive_masses_steady k bs Hpos Hcount) as [Hst Htot].
  split; [|done].
  apply summed_steady in Hst; [|done]. congruence.
Qed.

(** In every state that the server reaches, the mass that the
    leaderboard shows for a player is [Math.floor] of the plain
    left-to-right sum of the masses of the blobs of the player, and
    that sum is above zero: the [|| 0] of [pushState] never replaces a
    running total. *)
Theorem leaderboard_shows_floored_plain_sums acts h :
  let s := (run acts h).1 in
  Forall (λ e,
            LeaderboardEntry.mass e
            = Math_floor (totalMass (LeaderboardEntry.playerId e) (blobs s))
            ∧ 0 <? totalMass (LeaderboardEntry.playerId e) (blobs s))
         (GameState.leaderboard (pushState s)).
Proof.
  intros s. pose proof (has_mass_run acts h) as Hpos.
  change (Forall has_mass (blobs s)) in Hpos. clearbody s.
  cbn [pushState GameState.leaderboard].
  apply Forall_forall. intros e He.
  exact (board_plain_sums (playerNames s) (blobs s) e Hpos He).
Qed.
End PositiveMasses.

(** * The further properties on the example worlds *)

Section FurtherExamples.
Import Example_host Example_world Further_worlds.
#[local] Existing Instance host.

(** The small blob of the duel was consumed by the first pair; running
    more pairs over the scan leaves it as it was. *)
Lemma consumed_blob_witness :
  arr fought !! 1%nat = Some small
  ∧ Blob.id small ∈ consumed fought
  ∧ arr (foldM pairStep fought [(0, 1); (1, 0)]%nat h0).1 !! 1%nat
    = Some small.
Proof.
  assert (arr fought !! 1%nat = Some small) as Hk by (by vm_compute).
  assert (Blob.id small ∈ consumed fought) as Hin.
  { apply (bool_decide_unpack _). by vm_compute. }
  split_and!; [exact Hk | exact Hin |].
  apply (consumed_blob_is_frozen fought [(0, 1); (1, 0)]%nat h0 1 small
           Hk Hin).
Defined.

(** The two pieces of the player P, read by the clock 7 seconds after
    their deadline: the first takes the mass of the second. *)
Lemma recombination_merges_witness :
  arr (pairStep (start [piece1; piece2]) (0, 1)%nat late).1
  = <[0%nat := grow (Blob.mass piece2) piece1]> (arr (start [piece1; piece2]))
  ∧ consumed (pairStep (start [piece1; piece2]) (0, 1)%nat late).1
    = consumed (start [piece1; piece2]) ∪ {[Blob.id piece2]}.
Proof.
  pose proof (recombination_merges_into_first
                (start [piece1; piece2]) 0 1 piece1 piece2 late) as H.
  cbv zeta in H.
  destruct H as (Harr & _ & Hcons & _).
  - lia.
  - reflexivity.
  - reflexivity.
  - apply not_elem_of_empty.
  - apply not_elem_of_empty.
  - reflexivity.
  - discriminate.
  - by vm_compute.
  - by vm_compute.
  - left. by vm_compute.
  - split; [exact Harr | exact Hcons].
Defined.

(** Zed joins the duel and leaves it at once. *)
Lemma join_then_leave_witness :
  (connectPlayer "Zed" duel h0).1.2 = "Zed-100000"
  ∧ disconnectPlayer (connectPlayer "Zed" duel h0).1.2
                     (connectPlayer "Zed" duel h0).1.1.1
    = duel.
Proof.
  split; [by vm_compute|].
  pose proof (join_then_leave_restores_the_server "Zed" duel h0) as H.
  cbv zeta in H. apply H.
  - intros b Hb. apply list_elem_of_In in Hb.
    destruct Hb as [<-|[<-|[]]]; vm_compute; discriminate.
  - intros b Hb. apply list_elem_of_In in Hb.
    destruct Hb as [<-|[<-|[]]]; vm_compute; discriminate.
  - by vm_compute.
Defined.

(** The three blobs of [crowd] weigh 75 together: the cap is four, the
    loop of the split runs, and no blob is heavy enough. *)
Lemma split_min_mass_witness :
  playerCount "A" (blobs crowd) = 3%nat
  ∧ getMaxBlobsForMass (totalMass "A" (blobs crowd)) = 4%nat
  ∧ (playerSplit mouse window view "A" crowd h0).1 = crowd.
Proof.
  split_and!; [by vm_compute | by vm_compute |].
  apply (split_needs_min_mass mouse window view "A" crowd h0).
  intros b Hb _. apply list_elem_of_In in Hb.
  destruct Hb as [<-|[<-|[<-|[]]]]; by vm_compute.
Defined.

(** The identifiers of the duel are distinct: player A leaves, and the
    blobs that stay are the blobs of the other players, in their order. *)
Lemma disconnect_witness :
  NoDup (Blob.id <$> blobs duel)
  ∧ blobs (disconnectPlayer "A" duel)
    = filter (λ b, Blob.playerId b ≠ "A") (blobs duel).
Proof.
  assert (NoDup (Blob.id <$> blobs duel)) as Hnd.
  { apply (bool_decide_unpack _). by vm_compute. }
  split; [exact Hnd|].
  destruct (disconnect_removes_the_player "A" duel) as (_ & _ & _ & _ & _ & H).
  exact (H Hnd).
Defined.

(** The identifiers of the duel stay distinct over a split. *)
Lemma ids_unique_witness :
  NoDup (Blob.id <$> blobs duel)
  ∧ NoDup (Blob.id
           <$> blobs (perform (PlayerSplit "A" mouse window view) duel h0).1).
Proof.
  assert (NoDup (Blob.id <$> blobs duel)) as Hnd.
  { apply (bool_decide_unpack _). by vm_compute. }
  split; [exact Hnd|].
  exact (proj1 ids_stay_unique (PlayerSplit "A" mouse window view) duel h0
           Hnd).
Defined.

(** The owners of the blobs of [heavy] have their names stored, before
    and after a tick. *)
Lemma owners_registered_witness :
  registered heavy ∧ registered (perform Tick heavy h0).1.
Proof.
  assert (registered heavy) as Hreg.
  { intros b Hb. apply list_elem_of_In in Hb.
    destruct Hb as [<-|[]]. exists "Ann". by vm_compute. }
  split; [exact Hreg|].
  exact (proj1 owners_stay_registered Tick heavy h0 Hreg).
Defined.

(** Masses 59 and 60: the cap goes from two to four. *)
Lemma cap_grows_witness :
  getMaxBlobsForMass 59 = 2%nat ∧ getMaxBlobsForMass 60 = 4%nat
  ∧ getMaxBlobsForMass 59 ≤ getMaxBlobsForMass 60.
Proof.
  split_and!; [by vm_compute | by vm_compute |].
  apply (proj1 cap_grows_with_mass 59 60). by vm_compute.
Defined.

(** The masses of the duel are positive, and so they are after a tick. *)
Lemma masses_positive_witness :
  Forall has_mass (blobs duel) ∧ Forall pellet_ok (food duel)
  ∧ Forall has_mass (blobs (perform Tick duel h0).1).
Proof.
  assert (Forall has_mass (blobs duel)) as Hbs.
  { apply (bool_decide_unpack _). by vm_compute. }
  assert (Forall pellet_ok (food duel)) as Hfs by constructor.
  split_and!; [exact Hbs|exact Hfs|].
  exact (proj1 masses_stay_positive Tick duel h0 Hbs Hfs).
Defined.
End FurtherExamples.

